(** * bibmanager: the LaTeX manager (latex_manager.py)

    A shallow embedding of [no_comments], [citations] and [build_bib] of
    [bibmanager/latex_manager.py], together with the fragment of Python's
    [re] module that these functions rely on.

    Text is a list of characters ([list ascii], one [ascii] per code
    point).  The regular expressions of the source are written as syntax
    trees and run by a backtracking matcher with ordered alternation,
    greedy quantifiers and capture groups, which is how Python's [re]
    matches them. *)

From Stdlib Require Import String Ascii List Bool Arith Lia Sorted.
Import ListNotations.

Set Implicit Arguments.

Local Open Scope char_scope.
Local Open Scope list_scope.

(** ** Text *)

Definition text := list ascii.

(** A string literal read as text. *)
Definition txt (s : string) : text := list_ascii_of_string s.

Definition LF : ascii := ascii_of_nat 10.

Definition text_eq_dec : forall a b : text, {a = b} + {a <> b} :=
  list_eq_dec ascii_dec.

Fixpoint text_eqb (a b : text) : bool :=
  match a, b with
  | [], [] => true
  | x :: a', y :: b' => Ascii.eqb x y && text_eqb a' b'
  | _, _ => false
  end.

(** ** The fragment of [re] used by the source *)

Module Re.

(** Regular expressions.  Every quantifier of the source's patterns that
    repeats ([*], [+]) is applied to a character class, so [RStar] takes a
    class; [?] is applied to a group or a literal and is [ROpt]. *)
Inductive regex : Type :=
| REps
| RChar (p : ascii -> bool)
| RLit (w : text)
| RSeq (r1 r2 : regex)
| RAlt (r1 r2 : regex)
| RStar (p : ascii -> bool)
| ROpt (r : regex)
| RGroup (i : nat) (r : regex).

(** [p+] *)
Definition RPlus (p : ascii -> bool) : regex := RSeq (RChar p) (RStar p).

(** [r1 r2 ... rn] and [r1|r2|...|rn] *)
Definition seqs (rs : list regex) : regex := fold_right RSeq REps rs.

Fixpoint alts (rs : list regex) : regex :=
  match rs with
  | [] => RLit [LF; LF] (* not used: every alternation has a branch *)
  | [r] => r
  | r :: rs' => RAlt r (alts rs')
  end.

(** Capture groups: the most recent binding of a group number wins. *)
Definition caps := list (nat * text).

Fixpoint get_cap (i : nat) (c : caps) : option text :=
  match c with
  | [] => None
  | (j, v) :: c' => if Nat.eqb i j then Some v else get_cap i c'
  end.

(** [m.group(i)] as [findall] reports it: a group that took no part in
    the match is the empty string. *)
Definition group (i : nat) (c : caps) : text :=
  match get_cap i c with Some v => v | None => [] end.

Fixpoint strip_prefix (w s : text) : option text :=
  match w, s with
  | [], _ => Some s
  | x :: w', y :: s' => if Ascii.eqb x y then strip_prefix w' s' else None
  | _ :: _, [] => None
  end.

Section Matcher.
Variable A : Type.

(** Greedy [p*]: take the longest run first, give characters back one
    at a time while the rest of the pattern fails. *)
Fixpoint star (p : ascii -> bool) (s : text) (k : text -> option A)
  : option A :=
  match s with
  | a :: s' =>
      if p a then
        match star p s' k with
        | Some x => Some x
        | None => k s
        end
      else k s
  | [] => k s
  end.

(** The backtracking matcher, in continuation-passing style: [k] is the
    rest of the pattern, applied to the remaining input and the groups
    captured so far.  [None] makes the caller try its next choice. *)
Fixpoint rmatch (r : regex) (s : text) (c : caps)
         (k : text -> caps -> option A) : option A :=
  match r with
  | REps => k s c
  | RChar p =>
      match s with
      | a :: s' => if p a then k s' c else None
      | [] => None
      end
  | RLit w =>
      match strip_prefix w s with
      | Some s' => k s' c
      | None => None
      end
  | RSeq r1 r2 => rmatch r1 s c (fun s' c' => rmatch r2 s' c' k)
  | RAlt r1 r2 =>
      match rmatch r1 s c k with
      | Some x => Some x
      | None => rmatch r2 s c k
      end
  | RStar p => star p s (fun s' => k s' c)
  | ROpt r1 =>
      match rmatch r1 s c k with
      | Some x => Some x
      | None => k s c
      end
  | RGroup i r1 =>
      rmatch r1 s c
        (fun s' c' => k s' ((i, firstn (length s - length s') s) :: c'))
  end.
End Matcher.

(** [pattern.match] at the start of [s]: the number of characters
    matched and the groups.  With [must_advance] an empty match is
    refused (and the matcher backtracks to find a longer one). *)
Definition match_at (must_advance : bool) (r : regex) (s : text)
  : option (nat * caps) :=
  rmatch r s []
    (fun s' c =>
       let n := length s - length s' in
       if must_advance && Nat.eqb n 0 then None else Some (n, c)).

(** A match object: where the match starts, its length, its groups. *)
Record Match : Type := mkMatch {
  m_start : nat;
  m_len : nat;
  m_caps : caps
}.

(** The search loop shared by [findall] and [sub] (Python 3.7 and
    later): scan left to right; at each position not covered by the
    previous match try the pattern; a character that starts no match is
    passed over ([inl]), a match is reported ([inr]) and the scan resumes
    at its end.  After an empty match the same position is tried again
    for a match that advances.  [pos] is the offset of [s] in the whole
    text and [skip] the number of characters of [s] still covered by the
    previous match. *)
Fixpoint scan (r : regex) (s : text) (pos skip : nat) {struct s}
  : list (ascii + Match) :=
  match s with
  | [] =>
      match skip with
      | 0 =>
          match match_at false r [] with
          | Some (_, c) => [inr (mkMatch pos 0 c)]
          | None => []
          end
      | S _ => []
      end
  | a :: s' =>
      match skip with
      | S n => scan r s' (S pos) n
      | 0 =>
          match match_at false r s with
          | None => inl a :: scan r s' (S pos) 0
          | Some (S n, c) => inr (mkMatch pos (S n) c) :: scan r s' (S pos) n
          | Some (0, c) =>
              inr (mkMatch pos 0 c) ::
              match match_at true r s with
              | Some (S n, c') =>
                  inr (mkMatch pos (S n) c') :: scan r s' (S pos) n
              | _ => inl a :: scan r s' (S pos) 0
              end
          end
      end
  end.

(** The matches of a scan, in the order found. *)
Definition matches_of (l : list (ascii + Match)) : list Match :=
  flat_map (fun t => match t with inl _ => [] | inr m => [m] end) l.

(** The text of a scan with every match replaced by [repl]. *)
Definition replaced (repl : text) (l : list (ascii + Match)) : text :=
  flat_map (fun t => match t with inl a => [a] | inr _ => repl end) l.

(** [pattern.finditer(text)] *)
Definition finditer (r : regex) (s : text) : list Match :=
  matches_of (scan r s 0 0).

(** [re.sub(pattern, repl, text)] for a replacement without group
    references. *)
Definition sub (r : regex) (repl : text) (s : text) : text :=
  replaced repl (scan r s 0 0).

(** [before a b]: the match [a] ends where [b] starts, or earlier. *)
Definition before (a b : Match) : Prop := m_start a + m_len a <= m_start b.

(** What it means for a pattern to match exactly the text [s], taking
    the groups from [c] to [c']: the declarative reading of a pattern,
    with no order among the choices. *)
Inductive Matches : regex -> text -> caps -> caps -> Prop :=
| MEps c : Matches REps [] c c
| MChar p a c : p a = true -> Matches (RChar p) [a] c c
| MLit w c : Matches (RLit w) w c c
| MSeq r1 r2 s1 s2 c c' c'' :
    Matches r1 s1 c c' -> Matches r2 s2 c' c'' ->
    Matches (RSeq r1 r2) (s1 ++ s2) c c''
| MAltL r1 r2 s c c' : Matches r1 s c c' -> Matches (RAlt r1 r2) s c c'
| MAltR r1 r2 s c c' : Matches r2 s c c' -> Matches (RAlt r1 r2) s c c'
| MStar p s c : forallb p s = true -> Matches (RStar p) s c c
| MOptSome r s c c' : Matches r s c c' -> Matches (ROpt r) s c c'
| MOptNone r c : Matches (ROpt r) [] c c
| MGroup i r s c c' :
    Matches r s c c' -> Matches (RGroup i r) s c ((i, s) :: c').

End Re.

(** ** Character classes and string methods *)

(** [str.isspace] on one character, which is also [\s] of a [str]
    pattern: the code points 9-13, 28-32, 133 and 160 among the first
    256. *)
Definition is_space (c : ascii) : bool :=
  let n := nat_of_ascii c in
  (((9 <=? n) && (n <=? 13)) || ((28 <=? n) && (n <=? 32))
   || (n =? 133) || (n =? 160))%nat.

Definition is_char (a c : ascii) : bool := Ascii.eqb c a.
Definition not_char (a c : ascii) : bool := negb (Ascii.eqb c a).

(** [.] without DOTALL: anything but a line break. *)
Definition any_char : ascii -> bool := not_char LF.

Fixpoint drop_while (p : ascii -> bool) (s : text) : text :=
  match s with
  | a :: s' => if p a then drop_while p s' else s
  | [] => []
  end.

Fixpoint take_while (p : ascii -> bool) (s : text) : text :=
  match s with
  | a :: s' => if p a then a :: take_while p s' else []
  | [] => []
  end.

(** [s.strip()] *)
Definition lstrip (s : text) : text := drop_while is_space s.
Definition rstrip (s : text) : text := rev (drop_while is_space (rev s)).
Definition strip (s : text) : text := rstrip (lstrip s).

(** [s.split(sep)] for a one-character separator. *)
Fixpoint split (sep : ascii) (s : text) : list text :=
  match s with
  | [] => [[]]
  | a :: s' =>
      if Ascii.eqb a sep then [] :: split sep s'
      else match split sep s' with
           | w :: ws => (a :: w) :: ws
           | [] => [[a]]
           end
  end.

(** [sep.join(l)] *)
Fixpoint join (sep : text) (l : list text) : text :=
  match l with
  | [] => []
  | [w] => w
  | w :: l' => w ++ sep ++ join sep l'
  end.

(** ** [no_comments] *)

(** The pattern [[^\\]%.*]. *)
Definition comment_re : Re.regex :=
  Re.seqs [Re.RChar (not_char "\"); Re.RChar (is_char "%"); Re.RStar any_char].

(** [re.sub(r"[^\\]%.*", "", text)] *)
Definition no_comments (t : text) : text := Re.sub comment_re [] t.

(** A direct description of the same function, as a single pass over the
    text: outside a removed span ([in_span = false]) a character other
    than a backslash that is followed by [%] opens a span and is dropped
    with it; inside a span every character up to the next line break is
    dropped; the line break itself is read outside the span. *)
Fixpoint uncomment (in_span : bool) (s : text) : text :=
  match s with
  | [] => []
  | a :: s' =>
      if in_span && any_char a then uncomment true s'
      else
        match s' with
        | b :: _ =>
            if not_char "\" a && is_char "%" b then uncomment true s'
            else a :: uncomment false s'
        | [] => [a]
        end
  end.

(** The comment stripper as the documentation words it: a comment begins
    at a [%] that is not immediately preceded by a backslash and extends
    to the end of the line; the [%] and everything after it on that line
    is deleted, the content before it and the line break are kept.
    [escaped] tells whether the previous character was a backslash. *)
Fixpoint strip_comments_spec (escaped in_comment : bool) (s : text) : text :=
  match s with
  | [] => []
  | a :: s' =>
      if in_comment then
        if Ascii.eqb a LF then a :: strip_comments_spec false false s'
        else strip_comments_spec false true s'
      else if Ascii.eqb a "%" && negb escaped then
        strip_comments_spec false true s'
      else a :: strip_comments_spec (Ascii.eqb a "\") false s'
  end.

(** [no_marker s]: no [%] of [s] comes right after a character other
    than a backslash, that is, [s] has no place where a span to remove
    starts. *)
Fixpoint no_marker (s : text) : bool :=
  match s with
  | [] => true
  | a :: s' =>
      match s' with
      | b :: _ => negb (not_char "\" a && is_char "%" b) && no_marker s'
      | [] => true
      end
  end.

(** The number of line breaks of a text, and the number of those that
    are immediately followed by [%]. *)
Definition count_nl (s : text) : nat := count_occ ascii_dec s LF.

Fixpoint count_nl_percent (s : text) : nat :=
  match s with
  | [] => 0
  | a :: s' =>
      match s' with
      | b :: _ =>
          (if Ascii.eqb a LF && Ascii.eqb b "%" then 1 else 0)
          + count_nl_percent s'
      | [] => 0
      end
  end.

(** ** [citations] *)

(** The command names of the pattern, as the alternation lists them:
    [defcitealias|nocite|cite|(?:[Cc]ite(?:p|alp|t|alt|author|year|yearpar)\*?)]. *)
Definition command_re : Re.regex :=
  Re.alts
    [Re.RLit (txt "defcitealias"); Re.RLit (txt "nocite"); Re.RLit (txt "cite");
     Re.seqs
       [Re.RChar (fun c => is_char "C" c || is_char "c" c);
        Re.RLit (txt "ite");
        Re.alts [Re.RLit (txt "p"); Re.RLit (txt "alp"); Re.RLit (txt "t");
                 Re.RLit (txt "alt"); Re.RLit (txt "author");
                 Re.RLit (txt "year"); Re.RLit (txt "yearpar")];
        Re.ROpt (Re.RLit (txt "*"))]].

(** [\[[^\]]*\]] *)
Definition bracket_re : Re.regex :=
  Re.seqs [Re.RLit (txt "["); Re.RStar (not_char "]"); Re.RLit (txt "]")].

(** [(\[[^\]]*\])?] as group [i] *)
Definition bracket_group (i : nat) : Re.regex :=
  Re.ROpt (Re.RGroup i bracket_re).

(** The arguments of a command:
    [[\s]*(\[[^\]]*\])?[\s]*(\[[^\]]*\])?[\s]*{([^}]+)]. *)
Definition args_re : Re.regex :=
  Re.seqs
    [Re.RStar is_space; bracket_group 1;
     Re.RStar is_space; bracket_group 2;
     Re.RStar is_space; Re.RLit (txt "{"); Re.RGroup 3 (Re.RPlus (not_char "}"))].

(** The pattern [p] of [citations]: a backslash, a command name, the
    arguments. *)
Definition cite_re : Re.regex :=
  Re.seqs [Re.RLit (txt "\"); command_re; args_re].

(** The command names as the documentation lists them: the three bare
    commands, and [cite] with one of seven suffixes, capitalized or not,
    starred or not. *)
Definition suffixes : list text :=
  [txt "p"; txt "alp"; txt "t"; txt "alt"; txt "author"; txt "year";
   txt "yearpar"].

Definition documented_commands : list text :=
  [txt "cite"; txt "nocite"; txt "defcitealias"]
  ++ flat_map (fun suf => [txt "cite" ++ suf; txt "cite" ++ suf ++ txt "*";
                           txt "Cite" ++ suf; txt "Cite" ++ suf ++ txt "*"])
              suffixes.

(** The characters of a command name: letters, and the star. *)
Definition is_name_char (c : ascii) : bool :=
  let n := nat_of_ascii c in
  (((65 <=? n) && (n <=? 90)) || ((97 <=? n) && (n <=? 122)) || (n =? 42))%nat.

(** A bracket argument as the pattern delimits it: an opening bracket,
    characters none of which is a closing bracket, a closing bracket. *)
Definition bracket_span (g : text) : Prop :=
  exists inner,
    g = txt "[" ++ inner ++ txt "]" /\ forallb (not_char "]") inner = true.

(** The closing bracket that ends a bracket argument is escaped: it
    comes right after a backslash. *)
Definition closing_escaped (g : text) : bool :=
  match rev g with
  | c :: b :: _ => Ascii.eqb c "]" && Ascii.eqb b "\"
  | _ => false
  end.

(** A command applied to one brace argument, and a document that applies
    a list of commands to keys, one per line. *)
Definition command_call (name key : text) : text :=
  txt "\" ++ name ++ txt "{" ++ key ++ txt "}".

Definition document (calls : list (text * text)) : text :=
  flat_map (fun c => command_call (fst c) (snd c) ++ [LF]) calls.

(** A single key: not empty, and free of closing braces and commas. *)
Definition single_key (k : text) : bool :=
  negb (text_eqb k []) && forallb (not_char "}") k && forallb (not_char ",") k.

(** The second example of the documentation of [citations]. *)
Definition all_commands_example : text :=
  txt "\cite{AuthorA}, \nocite{AuthorB}, \defcitealias{AuthorC}." ++ LF ::
  txt "\citet{AuthorD}, \citet*{AuthorE}, \Citet{AuthorF}, \Citet*{AuthorG}." ++ LF ::
  txt "\citep{AuthorH}, \citep*{AuthorI}, \Citep{AuthorJ}, \Citep*{AuthorK}." ++ LF ::
  txt "\citealt{AuthorL},     \citealt*{AuthorM}," ++ LF ::
  txt "\Citealt{AuthorN},     \Citealt*{AuthorO}." ++ LF ::
  txt "\citealp{AuthorP},     \citealp*{AuthorQ}," ++ LF ::
  txt "\Citealp{AuthorR},     \Citealp*{AuthorS}." ++ LF ::
  txt "\citeauthor{AuthorT},  \citeauthor*{AuthorU}." ++ LF ::
  txt "\Citeauthor{AuthorV},  \Citeauthor*{AuthorW}." ++ LF ::
  txt "\citeyear{AuthorX},    \citeyear*{AuthorY}." ++ LF ::
  txt "\citeyearpar{AuthorZ}, \citeyearpar*{AuthorAA}.".

(** [p.findall(text)] for the three groups of [p]. *)
Definition groups3 (m : Re.Match) : text * text * text :=
  (Re.group 1 (Re.m_caps m), Re.group 2 (Re.m_caps m), Re.group 3 (Re.m_caps m)).

Definition findall3 (r : Re.regex) (t : text) : list (text * text * text) :=
  map groups3 (Re.finditer r t).

(** [re.findall] for a pattern with one group. *)
Definition findall1 (r : Re.regex) (t : text) : list text :=
  map (fun m => Re.group 1 (Re.m_caps m)) (Re.finditer r t).

(** Running a generator body over a list of items, the yields of each
    item in turn; [None] when one of them does not finish. *)
Fixpoint yield_each (A B : Type) (f : A -> option (list B)) (l : list A)
  : option (list B) :=
  match l with
  | [] => Some []
  | x :: l' =>
      match f x with
      | None => None
      | Some ys =>
          match yield_each f l' with
          | None => None
          | Some zs => Some (ys ++ zs)
          end
      end
  end.

(** The generator [citations], run to its end, with [fuel] bounding the
    depth of the recursive calls: [None] when the bound is reached. *)
Fixpoint citations_fuel (fuel : nat) (t : text) : option (list text) :=
  match fuel with
  | 0 => None
  | S fuel' =>
      yield_each
        (fun m : text * text * text =>
           let '(left_, right_, cites) := m in
           match citations_fuel fuel' left_ with
           | None => None
           | Some ls =>
               match citations_fuel fuel' right_ with
               | None => None
               | Some rs =>
                   Some (map strip ls ++ map strip rs
                         ++ map strip (split "," cites))
               end
           end)
        (findall3 cite_re t)
  end.

(** [list(citations(text))]: a depth of one more than the length of the
    text is always enough (see [citations_fuel_enough]). *)
Definition citations (t : text) : list text :=
  match citations_fuel (S (length t)) t with
  | Some ks => ks
  | None => []
  end.

(** What one match contributes: the keys found in the first bracket,
    those found in the second, then the keys between the braces. *)
Definition keys_of_match (rec : text -> list text) (m : text * text * text)
  : list text :=
  let '(left_, right_, cites) := m in
  map strip (rec left_) ++ map strip (rec right_)
  ++ map strip (split "," cites).

(** ** numpy on arrays of strings *)

(** Comparison of strings by code point, as numpy sorts them. *)
Fixpoint text_compare (a b : text) : comparison :=
  match a, b with
  | [], [] => Eq
  | [], _ :: _ => Lt
  | _ :: _, [] => Gt
  | x :: a', y :: b' =>
      match Nat.compare (nat_of_ascii x) (nat_of_ascii y) with
      | Eq => text_compare a' b'
      | o => o
      end
  end.

Fixpoint insert_unique (x : text) (l : list text) : list text :=
  match l with
  | [] => [x]
  | y :: l' =>
      match text_compare x y with
      | Lt => x :: l
      | Eq => l
      | Gt => y :: insert_unique x l'
      end
  end.

(** The NUL character. *)
Definition NUL : ascii := ascii_of_nat 0.

(** A string as an element of a numpy array of strings: such an array
    has a fixed width and pads with NUL, so the trailing NUL characters
    of a string are lost when it is stored. *)
Definition np_str (s : text) : text :=
  rev (drop_while (is_char NUL) (rev s)).

(** The last character of [s] is NUL. *)
Definition ends_in_nul (s : text) : bool :=
  match rev s with
  | c :: _ => Ascii.eqb c NUL
  | [] => false
  end.

(** [np.unique(l)]: the sorted distinct elements of the array made of
    [l]. *)
Definition np_unique (l : list text) : list text :=
  fold_right insert_unique [] (map np_str l).

(** [np.in1d(ar1, ar2, assume_unique=True)], for [ar1] without
    duplicates: the mask of the elements of [ar1] that occur in [ar2],
    both taken as arrays. *)
Definition np_in1d (ar1 ar2 : list text) : list bool :=
  map (fun x => existsb (text_eqb (np_str x)) (map np_str ar2)) ar1.

(** [a[mask]] for a boolean mask. *)
Fixpoint np_mask (A : Type) (a : list A) (mask : list bool) : list A :=
  match a, mask with
  | x :: a', b :: mask' =>
      if b then x :: np_mask a' mask' else np_mask a' mask'
  | _, _ => []
  end.

(** [np.all], [np.invert] *)
Definition np_all (mask : list bool) : bool := forallb (fun b => b) mask.
Definition np_invert (mask : list bool) : list bool := map negb mask.

(** [l.index(x)] *)
Fixpoint index (x : text) (l : list text) : option nat :=
  match l with
  | [] => None
  | y :: l' =>
      if text_eqb y x then Some 0
      else match index x l' with
           | Some n => Some (S n)
           | None => None
           end
  end.

(** ** [build_bib] *)

Section BuildBib.
(** The records of the bibliography database ([bib_manager], outside
    this module) and their [key] attribute. *)
Variable Bib : Type.
Variable key : Bib -> text.

(** What [build_bib] reads and writes: the files it can open, the
    database that [bm.load()] returns, the calls of [bm.export] made so
    far (most recent first) and what was printed (most recent
    first). *)
Record World : Type := mkWorld {
  files : list (text * text);
  database : list Bib;
  exported : list (list Bib * text);
  printed : list text
}.

Inductive exn : Type :=
| Exception (msg : text)
| FileNotFoundError (name : text)
| PermissionError (name : text)
| ValueError
| IndexError.

Inductive result (A : Type) : Type :=
| Ok (a : A)
| Raised (e : exn).
Arguments Raised {A} e.

(** Computations that read and change the world and may raise. *)
Definition M (A : Type) : Type := World -> result A * World.

Definition ret (A : Type) (a : A) : M A := fun w => (Ok a, w).
Definition raise (A : Type) (e : exn) : M A := fun w => (Raised e, w).
Arguments raise {A} e.
Definition bind (A B : Type) (m : M A) (f : A -> M B) : M B :=
  fun w =>
    match m w with
    | (Ok a, w') => f a w'
    | (Raised e, w') => (Raised e, w')
    end.

Notation "x <- m ;; f" := (bind m (fun x => f))
  (at level 61, m at next level, right associativity).
Notation "m ;;; f" := (bind m (fun _ => f))
  (at level 61, right associativity).

Fixpoint lookup_file (name : text) (fs : list (text * text)) : option text :=
  match fs with
  | [] => None
  | (n, content) :: fs' =>
      if text_eqb n name then Some content else lookup_file name fs'
  end.

(** [with open(texfile, "r") as f: f.read()] *)
Definition read_file (name : text) : M text :=
  fun w =>
    match lookup_file name (files w) with
    | Some content => (Ok content, w)
    | None => (Raised (FileNotFoundError name), w)
    end.

(** [bm.load()] *)
Definition bm_load : M (list Bib) := fun w => (Ok (database w), w).

(** [bm.export(bibs, bibfile=bibfile)] *)
Definition bm_export (bibs : list Bib) (bibfile : text) : M unit :=
  fun w =>
    (Ok tt, mkWorld (files w) (database w)
                    ((bibs, bibfile) :: exported w) (printed w)).

Definition print (s : text) : M unit :=
  fun w =>
    (Ok tt, mkWorld (files w) (database w) (exported w) (s :: printed w)).

(** [[f(x) for x in l]] where [f] may raise. *)
Fixpoint for_each (A B : Type) (f : A -> M B) (l : list A) : M (list B) :=
  match l with
  | [] => ret []
  | x :: l' => y <- f x ;; ys <- for_each f l' ;; ret (y :: ys)
  end.

(** The pattern [\\bibliography{([^}]+)]. *)
Definition bibliography_re : Re.regex :=
  Re.seqs [Re.RLit (txt "\bibliography{"); Re.RGroup 1 (Re.RPlus (not_char "}"))].

Definition no_bibliography_msg : text :=
  txt "No '\bibiliography' call found in tex file.".

Definition build_bib (texfile : text) (bibfile : option text) : M unit :=
  tex <- read_file texfile ;;
  let tex := no_comments tex in
  (* Extract bibfile name from texfile: *)
  bibfile <- match bibfile with
             | None =>
                 let biblio := findall1 bibliography_re tex in
                 match biblio with
                 | [] => raise (Exception no_bibliography_msg)
                 | b :: _ => ret (strip b ++ txt ".bib")
                 end
             | Some b => ret b
             end ;;
  (* Extract citation keys from texfile: *)
  let cites := citations tex in
  let tex_keys := np_unique cites in
  (* Collect BibTeX references from keys in database: *)
  bibs <- bm_load ;;
  let db_keys := map key bibs in
  let found := np_in1d tex_keys db_keys in
  (if negb (np_all found) then
     let missing := np_mask tex_keys (np_invert found) in
     print (txt "References not found:" ++ [LF] ++ join [LF] missing)
   else ret tt) ;;;
  bibs <- for_each
            (fun k =>
               match index k db_keys with
               | None => raise ValueError
               | Some i =>
                   match nth_error bibs i with
                   | None => raise IndexError
                   | Some b => ret b
                   end
               end)
            (np_mask tex_keys found) ;;
  bm_export bibs bibfile.

(** The text has a bibliography call: somewhere in it,
    [\bibliography{] followed by a character other than a closing
    brace. *)
Definition bibliography_call_at (t : text) : bool :=
  match Re.strip_prefix (txt "\bibliography{") t with
  | Some (c :: _) => not_char "}" c
  | _ => false
  end.

Fixpoint has_bibliography_call (t : text) : bool :=
  match t with
  | [] => false
  | _ :: t' => bibliography_call_at t || has_bibliography_call t'
  end.

(** The first record of the database with the key [k]. *)
Definition record_of (k : text) (bibs : list Bib) : option Bib :=
  find (fun b => text_eqb (key b) k) bibs.

Definition not_found_msg (missing : list text) : text :=
  txt "References not found:" ++ [LF] ++ join [LF] missing.
End BuildBib.

Arguments Raised {A} e.
Arguments raise {Bib A} e.

(** ** [clear_latex] *)

(** [s.rfind(c)]: the index of the last [c] of [s]; [None] stands for
    the -1 that Python returns when there is none. *)
Fixpoint rfind (c : ascii) (s : text) : option nat :=
  match s with
  | [] => None
  | a :: s' =>
      match rfind c s' with
      | Some i => Some (S i)
      | None => if Ascii.eqb a c then Some 0 else None
      end
  end.

(** [os.path.splitext(p)] of [posixpath]: the extension starts at the
    last dot, provided that dot comes after the last slash and that
    some character between that slash and the dot is not a dot;
    otherwise the extension is empty. *)
Definition splitext (p : text) : text * text :=
  let sepIndex := rfind "/" p in
  let dotIndex := rfind "." p in
  match dotIndex with
  | None => (p, [])
  | Some d =>
      let filenameIndex := match sepIndex with None => 0 | Some i => S i end in
      if (filenameIndex <=? d)%nat then
        (* skip all leading dots *)
        if existsb (not_char ".")
                   (firstn (d - filenameIndex) (skipn filenameIndex p))
        then (firstn d p, skipn d p)
        else (p, [])
      else (p, [])
  end.

(** The exceptions of the model that are instances of [OSError]. *)
Definition is_OSError (e : exn) : bool :=
  match e with
  | FileNotFoundError _ => true
  | PermissionError _ => true
  | _ => false
  end.

(** The suffixes of the by-products, as [clear_latex] lists them. *)
Definition clears : list text :=
  [txt ".bbl"; txt ".blg"; txt ".out"; txt ".dvi"; txt ".log"; txt ".aux";
   txt ".lof"; txt ".lot"; txt ".toc"; txt ".ps"; txt ".pdf";
   txt "Notes.bib"].

Section ClearLatex.
Variable Bib : Type.

(** The names that the file system refuses to remove (a directory, a
    file in a directory that cannot be written): removing one of them
    raises an [OSError] other than [FileNotFoundError], for which
    [PermissionError] stands, and leaves it in place. *)
Variable locked : text -> bool.

(** [os.remove(name)]: a name that holds a NUL character is refused
    with [ValueError] before the file system is asked; a missing file
    raises [FileNotFoundError], a name that cannot be removed raises
    [PermissionError], otherwise the file goes away. *)
Definition os_remove (name : text) : M Bib unit :=
  fun w =>
    if existsb (is_char NUL) name then (Raised ValueError, w)
    else
      match lookup_file name (files w) with
      | Some _ =>
          if locked name then (Raised (PermissionError name), w)
          else
            (Ok tt,
             mkWorld (filter (fun f => negb (text_eqb (fst f) name)) (files w))
                     (database w) (exported w) (printed w))
      | None => (Raised (FileNotFoundError name), w)
      end.

(** [with ignored(classes): body]: an exception of [body] that belongs
    to [classes] is passed over; what [body] did before raising
    stays. *)
Definition ignored (classes : exn -> bool) (A : Type) (body : M Bib A)
  : M Bib unit :=
  fun w =>
    match body w with
    | (Ok _, w') => (Ok tt, w')
    | (Raised e, w') => if classes e then (Ok tt, w') else (Raised e, w')
    end.

(** [for x in l: f(x)] *)
Fixpoint for_in (A : Type) (f : A -> M Bib unit) (l : list A) : M Bib unit :=
  match l with
  | [] => ret tt
  | x :: l' => bind (f x) (fun _ => for_in f l')
  end.

Definition clear_latex (texfile : text) : M Bib unit :=
  (* Remove extension: *)
  let texfile := fst (splitext texfile) in
  (* Delete without complaining: *)
  for_in (fun clear => ignored is_OSError (os_remove (texfile ++ clear)))
         clears.
End ClearLatex.

(** ** Notions used to state properties *)

(** The last component of a path: what follows its last slash. *)
Definition basename (p : text) : text :=
  skipn (match rfind "/" p with None => 0 | Some i => S i end) p.

(** [name] is [root] followed by one of the suffixes of [clears]. *)
Definition is_byproduct (root name : text) : bool :=
  existsb (fun clear => text_eqb name (root ++ clear)) clears.

(** [pair_ok x out]: [x] followed by [out] does not start a span to
    remove. *)
Definition pair_ok (x : ascii) (out : text) : bool :=
  match out with
  | [] => true
  | y :: _ => negb (not_char "\" x && is_char "%" y)
  end.

(** [subsequence a b]: [a] is [b] with some characters left out. *)
Inductive subsequence : text -> text -> Prop :=
| sub_nil : subsequence [] []
| sub_keep a s t : subsequence s t -> subsequence (a :: s) (a :: t)
| sub_drop a s t : subsequence s t -> subsequence s (a :: t).

(** The strict order of [text_compare]. *)
Definition text_lt (a b : text) : Prop := text_compare a b = Lt.

(** The end of the pattern of the arguments: [{([^}]+)]. *)
Definition brace_re : Re.regex :=
  Re.RSeq (Re.RLit (txt "{"))
          (Re.RSeq (Re.RGroup 3 (Re.RPlus (not_char "}"))) Re.REps).

(** The groups after an optional bracket argument was matched as
    group [i]. *)
Definition bracket_caps (i : nat) (o : option text) (c : Re.caps) : Re.caps :=
  match o with
  | None => c
  | Some inner => (i, txt "[" ++ inner ++ txt "]") :: c
  end.

(** An optional bracket argument as it is written. *)
Definition opt_bracket (o : option text) : text :=
  match o with
  | None => []
  | Some inner => txt "[" ++ inner ++ txt "]"
  end.

(** A call as it is written: a backslash, a command name, and, each
    after optional blanks, up to two bracket arguments and the opening
    brace with the content that follows it. *)
Definition call_text (name ws1 : text) (o1 : option text) (ws2 : text)
           (o2 : option text) (ws3 body : text) : text :=
  txt "\" ++ name ++ ws1 ++ opt_bracket o1 ++ ws2 ++ opt_bracket o2 ++ ws3
  ++ txt "{" ++ body.

(** The parts of a call are well formed: the name is a documented one,
    the blanks are blanks, a second bracket argument comes only after a
    first, no bracket argument holds a closing bracket, and the brace
    content is not empty and holds no closing brace. *)
Definition well_formed_call (name ws1 : text) (o1 : option text) (ws2 : text)
           (o2 : option text) (ws3 body : text) : bool :=
  existsb (text_eqb name) documented_commands
  && forallb is_space ws1 && forallb is_space ws2 && forallb is_space ws3
  && match o1, o2 with None, Some _ => false | _, _ => true end
  && match o1 with Some inner => forallb (not_char "]") inner | None => true end
  && match o2 with Some inner => forallb (not_char "]") inner | None => true end
  && match body with [] => false | _ :: _ => true end
  && forallb (not_char "}") body.

(** The text after a brace content: the closing brace and what follows
    it, or nothing when the brace is not closed. *)
Definition after_brace (rest : text) : bool :=
  match rest with
  | [] => true
  | c :: _ => Ascii.eqb c "}"
  end.

(** The match [m] found in [t] is a call of [t]: it starts where the
    call starts, has its length, and its three groups are the first
    bracket argument, the second (each with its brackets, or empty when
    there is none) and the brace content up to the closing brace or to
    the end of [t]. *)
Definition match_is_call (t : text) (m : Re.Match) : Prop :=
  exists pre name ws1 o1 ws2 o2 ws3 body rest,
    t = pre ++ call_text name ws1 o1 ws2 o2 ws3 body ++ rest /\
    well_formed_call name ws1 o1 ws2 o2 ws3 body = true /\
    after_brace rest = true /\
    Re.m_start m = length pre /\
    Re.m_len m = length (call_text name ws1 o1 ws2 o2 ws3 body) /\
    groups3 m = (opt_bracket o1, opt_bracket o2, body).

(** A key is trimmed: it neither starts nor ends with a blank. *)
Definition no_blank_ends (k : text) : bool :=
  match k with [] => true | c :: _ => negb (is_space c) end
  && match rev k with [] => true | c :: _ => negb (is_space c) end.

(** * Properties *)

(** ** The matcher is sound for the declarative reading *)

Module ReFacts.
Import Re.

Lemma strip_prefix_sound w : forall s s',
  strip_prefix w s = Some s' -> s = w ++ s'.
Proof.
  induction w as [|x w IH]; intros s s' H; simpl in H.
  - now inversion H.
  - destruct s as [|y s]; [discriminate|].
    destruct (Ascii.eqb x y) eqn:E; [|discriminate].
    apply Ascii.eqb_eq in E. subst y. simpl. f_equal. now apply IH.
Qed.

Lemma strip_prefix_complete w s : strip_prefix w (w ++ s) = Some s.
Proof.
  induction w as [|x w IH]; simpl; [reflexivity|].
  now rewrite Ascii.eqb_refl.
Qed.

Lemma star_sound (A : Type) p (k : text -> option A) : forall s x,
  star p s k = Some x ->
  exists s1 s2, s = s1 ++ s2 /\ forallb p s1 = true /\ k s2 = Some x.
Proof.
  induction s as [|a s IH]; intros x H; simpl in H.
  - exists [], []. auto.
  - destruct (p a) eqn:Pa.
    + destruct (star p s k) as [y|] eqn:E.
      * inversion H; subst y.
        destruct (IH x eq_refl) as (s1 & s2 & -> & F & K).
        exists (a :: s1), s2. simpl. rewrite Pa, F. auto.
      * exists [], (a :: s). auto.
    + exists [], (a :: s). auto.
Qed.

(** A greedy star takes the whole run when the rest of the pattern
    accepts what is left after it. *)
Lemma star_greedy (A : Type) p (k : text -> option A) : forall s,
  k (drop_while p s) <> None ->
  star p s k = k (drop_while p s).
Proof.
  induction s as [|a s IH]; simpl; intros Hk; [reflexivity|].
  destruct (p a); [|reflexivity].
  rewrite IH by exact Hk.
  destruct (k (drop_while p s)) eqn:E; [reflexivity|]. now elim Hk.
Qed.

Lemma take_drop_while p : forall s, take_while p s ++ drop_while p s = s.
Proof.
  induction s as [|a s IH]; simpl; [reflexivity|].
  destruct (p a); simpl; [now rewrite IH|reflexivity].
Qed.

Lemma take_while_all p : forall s, forallb p (take_while p s) = true.
Proof.
  induction s as [|a s IH]; simpl; [reflexivity|].
  destruct (p a) eqn:E; simpl; [now rewrite E|reflexivity].
Qed.

Lemma drop_while_app p : forall s c rest,
  forallb p s = true -> p c = false ->
  drop_while p (s ++ c :: rest) = c :: rest.
Proof.
  induction s as [|a s IH]; simpl; intros c rest Hs Hc.
  - now rewrite Hc.
  - apply andb_true_iff in Hs. destruct Hs as [Ha Hs]. rewrite Ha. now apply IH.
Qed.

Lemma drop_while_all p : forall s, forallb p s = true -> drop_while p s = [].
Proof.
  induction s as [|a s IH]; simpl; intros Hs; [reflexivity|].
  apply andb_true_iff in Hs. destruct Hs as [Ha Hs]. rewrite Ha. now apply IH.
Qed.

Lemma skipn_take_while p : forall s,
  skipn (length (take_while p s)) s = drop_while p s.
Proof.
  induction s as [|a s IH]; simpl; [reflexivity|].
  destruct (p a); simpl; [exact IH|reflexivity].
Qed.

Lemma firstn_length_app (s1 s2 : text) :
  firstn (length (s1 ++ s2) - length s2) (s1 ++ s2) = s1.
Proof.
  rewrite length_app, Nat.add_sub.
  rewrite firstn_app, Nat.sub_diag, firstn_all. simpl. now rewrite app_nil_r.
Qed.

Theorem rmatch_sound (A : Type) : forall r s c (k : text -> caps -> option A) x,
  rmatch r s c k = Some x ->
  exists s1 s2 c',
    s = s1 ++ s2 /\ Matches r s1 c c' /\ k s2 c' = Some x.
Proof.
  induction r as [|p|w|r1 IH1 r2 IH2|r1 IH1 r2 IH2|p|r IH|i r IH];
    intros s c k x H; simpl in H.
  - exists [], s, c. repeat split; auto. constructor.
  - destruct s as [|a s]; [discriminate|].
    destruct (p a) eqn:Pa; [|discriminate].
    exists [a], s, c. repeat split; auto. now constructor.
  - destruct (strip_prefix w s) as [s'|] eqn:E; [|discriminate].
    apply strip_prefix_sound in E.
    exists w, s', c. repeat split; auto. constructor.
  - apply IH1 in H. destruct H as (s1 & s2 & c' & -> & M1 & H).
    apply IH2 in H. destruct H as (s3 & s4 & c'' & -> & M2 & H).
    exists (s1 ++ s3), s4, c''. rewrite app_assoc. repeat split; auto.
    econstructor; eauto.
  - destruct (rmatch r1 s c k) as [y|] eqn:E.
    + inversion H; subst y. apply IH1 in E.
      destruct E as (s1 & s2 & c' & -> & M1 & K).
      exists s1, s2, c'. repeat split; auto. now apply MAltL.
    + apply IH2 in H. destruct H as (s1 & s2 & c' & -> & M1 & K).
      exists s1, s2, c'. repeat split; auto. now apply MAltR.
  - apply star_sound in H. destruct H as (s1 & s2 & -> & F & K).
    exists s1, s2, c. repeat split; auto. now constructor.
  - destruct (rmatch r s c k) as [y|] eqn:E.
    + inversion H; subst y. apply IH in E.
      destruct E as (s1 & s2 & c' & -> & M1 & K).
      exists s1, s2, c'. repeat split; auto. now apply MOptSome.
    + exists [], s, c. repeat split; auto. apply MOptNone.
  - apply IH in H. destruct H as (s1 & s2 & c' & -> & M1 & K).
    rewrite firstn_length_app in K.
    exists s1, s2, ((i, s1) :: c'). repeat split; auto. now constructor.
Qed.

Lemma match_at_sound b r s n c :
  match_at b r s = Some (n, c) ->
  exists s1 s2, s = s1 ++ s2 /\ length s1 = n /\ Matches r s1 [] c.
Proof.
  unfold match_at. intros H. apply rmatch_sound in H.
  destruct H as (s1 & s2 & c' & -> & M & K).
  exists s1, s2. rewrite length_app, Nat.add_sub in K.
  destruct (b && Nat.eqb (length s1) 0); [discriminate|].
  inversion K; subst. auto.
Qed.

(** *** The search loop *)

Lemma scan_skip r : forall s pos skip,
  skip <= length s ->
  scan r s pos skip = scan r (skipn skip s) (pos + skip) 0.
Proof.
  induction s as [|a s IH]; intros pos skip Hle.
  - simpl in Hle. assert (skip = 0) by lia. subst. simpl.
    now rewrite Nat.add_0_r.
  - destruct skip as [|n].
    + now rewrite Nat.add_0_r.
    + simpl in Hle. cbn [scan skipn]. rewrite IH by lia.
      f_equal. lia.
Qed.

(** Every match reported by a scan is a piece of the text that the
    pattern matches, at the reported offset. *)
Lemma scan_sound r : forall s pos skip m,
  In (inr m) (scan r s pos skip) ->
  exists pre span post,
    s = pre ++ span ++ post /\ skip <= length pre /\
    m_start m = pos + length pre /\ length span = m_len m /\
    Matches r span [] (m_caps m).
Proof.
  assert (Hat : forall b s n c pos,
             match_at b r s = Some (n, c) ->
             exists pre span post,
               s = pre ++ span ++ post /\ 0 <= length pre /\
               m_start (mkMatch pos n c) = pos + length pre /\
               length span = m_len (mkMatch pos n c) /\
               Matches r span [] (m_caps (mkMatch pos n c))).
  { intros b s n c pos H. apply match_at_sound in H.
    destruct H as (s1 & s2 & -> & L & M).
    exists [], s1, s2. simpl. repeat split; auto; lia. }
  assert (Hshift : forall a s pos skip m,
             (exists pre span post,
                 s = pre ++ span ++ post /\ skip <= length pre /\
                 m_start m = S pos + length pre /\ length span = m_len m /\
                 Matches r span [] (m_caps m)) ->
             exists pre span post,
               a :: s = pre ++ span ++ post /\ S skip <= length pre /\
               m_start m = pos + length pre /\ length span = m_len m /\
               Matches r span [] (m_caps m)).
  { intros a s pos skip m (pre & span & post & -> & L & St & Ln & M).
    exists (a :: pre), span, post. simpl. repeat split; auto; lia. }
  assert (Hweak : forall s pos m,
             (exists pre span post,
                 s = pre ++ span ++ post /\ 1 <= length pre /\
                 m_start m = pos + length pre /\ length span = m_len m /\
                 Matches r span [] (m_caps m)) ->
             exists pre span post,
               s = pre ++ span ++ post /\ 0 <= length pre /\
               m_start m = pos + length pre /\ length span = m_len m /\
               Matches r span [] (m_caps m)).
  { intros s pos m (pre & span & post & -> & L & St & Ln & M).
    exists pre, span, post. repeat split; auto; lia. }
  induction s as [|a s IH]; intros pos skip m H.
  - simpl in H. destruct skip; [|contradiction].
    destruct (match_at false r []) as [[n c]|] eqn:E; [|contradiction].
    destruct H as [H|[]]. inversion H; subst m; clear H.
    pose proof (match_at_sound _ _ _ E) as (s1 & s2 & Hs & L & M).
    symmetry in Hs. apply app_eq_nil in Hs. destruct Hs; subst.
    exists [], [], []. simpl. repeat split; auto.
  - cbn [scan] in H. destruct skip as [|k].
    + destruct (match_at false r (a :: s)) as [[[|n] c]|] eqn:E.
      * destruct H as [H|H].
        { inversion H; subst m. eapply Hat; eauto. }
        destruct (match_at true r (a :: s)) as [[[|n'] c']|] eqn:E'.
        -- destruct H as [H|H]; [discriminate|].
           apply Hweak, Hshift, IH, H.
        -- destruct H as [H|H].
           { inversion H; subst m. eapply Hat; eauto. }
           apply Hweak, Hshift. apply IH in H.
           destruct H as (pre & span & post & ? & ? & ? & ? & ?).
           exists pre, span, post. repeat split; auto; lia.
        -- destruct H as [H|H]; [discriminate|].
           apply Hweak, Hshift, IH, H.
      * destruct H as [H|H].
        { inversion H; subst m. eapply Hat; eauto. }
        apply Hweak, Hshift. apply IH in H.
        destruct H as (pre & span & post & ? & ? & ? & ? & ?).
        exists pre, span, post. repeat split; auto; lia.
      * destruct H as [H|H]; [discriminate|].
        apply Hweak, Hshift, IH, H.
    + apply Hshift, IH, H.
Qed.

Lemma in_matches_of m l : In m (matches_of l) <-> In (inr m) l.
Proof.
  unfold matches_of. rewrite in_flat_map. split.
  - intros ([a|m'] & Hin & H); simpl in H; [contradiction|].
    destruct H as [->|[]]. exact Hin.
  - intros H. exists (inr m). simpl. auto.
Qed.

Lemma finditer_sound r s m :
  In m (finditer r s) ->
  exists pre span post,
    s = pre ++ span ++ post /\ m_start m = length pre /\
    length span = m_len m /\ Matches r span [] (m_caps m).
Proof.
  unfold finditer. rewrite in_matches_of. intros H.
  apply scan_sound in H.
  destruct H as (pre & span & post & ? & ? & ? & ? & ?).
  exists pre, span, post. auto.
Qed.

(** The matches of a scan come in the order of the text and do not
    overlap. *)
Lemma scan_sorted r : forall s pos skip,
  StronglySorted before (matches_of (scan r s pos skip)) /\
  Forall (fun m => pos + skip <= m_start m) (matches_of (scan r s pos skip)).
Proof.
  assert (Hmono : forall (l : list Match) a b,
             a <= b -> Forall (fun m => b <= m_start m) l ->
             Forall (fun m => a <= m_start m) l).
  { intros l a b Hab. apply Forall_impl. intros; lia. }
  induction s as [|a s IH]; intros pos skip.
  - simpl. destruct skip; [|split; constructor].
    destruct (match_at false r []) as [[n c]|]; simpl.
    + split; repeat constructor. simpl. lia.
    + split; constructor.
  - cbn [scan]. destruct skip as [|k].
    + destruct (match_at false r (a :: s)) as [[[|n] c]|].
      * destruct (match_at true r (a :: s)) as [[[|n'] c']|];
          cbn [matches_of flat_map app];
          fold (matches_of (scan r s (S pos) 0));
          try fold (matches_of (scan r s (S pos) n')).
        -- destruct (IH (S pos) 0) as [S1 F1]. split.
           ++ constructor; [exact S1|].
              eapply Forall_impl; [|exact F1]. unfold before; simpl; intros; lia.
           ++ constructor; [simpl; lia|]. eapply Hmono; [|exact F1]. lia.
        -- destruct (IH (S pos) n') as [S1 F1]. split.
           ++ constructor; [constructor; [exact S1|]|].
              ** eapply Forall_impl; [|exact F1].
                 unfold before; simpl; intros; lia.
              ** constructor; [unfold before; simpl; lia|].
                 eapply Forall_impl; [|exact F1].
                 unfold before; simpl; intros; lia.
           ++ constructor; [simpl; lia|]. constructor; [simpl; lia|].
              eapply Hmono; [|exact F1]. lia.
        -- destruct (IH (S pos) 0) as [S1 F1]. split.
           ++ constructor; [exact S1|].
              eapply Forall_impl; [|exact F1]. unfold before; simpl; intros; lia.
           ++ constructor; [simpl; lia|]. eapply Hmono; [|exact F1]. lia.
      * cbn [matches_of flat_map app].
        fold (matches_of (scan r s (S pos) n)).
        destruct (IH (S pos) n) as [S1 F1]. split.
        -- constructor; [exact S1|].
           eapply Forall_impl; [|exact F1]. unfold before; simpl; intros; lia.
        -- constructor; [simpl; lia|]. eapply Hmono; [|exact F1]. lia.
      * cbn [matches_of flat_map app].
        fold (matches_of (scan r s (S pos) 0)).
        destruct (IH (S pos) 0) as [S1 F1]. split; [exact S1|].
        eapply Hmono; [|exact F1]. lia.
    + destruct (IH (S pos) k) as [S1 F1]. split; [exact S1|].
      eapply Hmono; [|exact F1]. lia.
Qed.

Lemma finditer_sorted r s : StronglySorted before (finditer r s).
Proof. apply scan_sorted. Qed.

Lemma matches_of_inr m l : matches_of (inr m :: l) = m :: matches_of l.
Proof. reflexivity. Qed.

Lemma matches_of_inl a l : matches_of (inl a :: l) = matches_of l.
Proof. reflexivity. Qed.

Lemma replaced_inr repl m l :
  replaced repl (inr m :: l) = repl ++ replaced repl l.
Proof. reflexivity. Qed.

Lemma replaced_inl repl a l :
  replaced repl (inl a :: l) = a :: replaced repl l.
Proof. reflexivity. Qed.

(** The groups found do not depend on the offset the scan starts
    from. *)
Lemma scan_caps_pos r : forall s pos pos' skip,
  map m_caps (matches_of (scan r s pos skip)) =
  map m_caps (matches_of (scan r s pos' skip)).
Proof.
  induction s as [|a s IH]; intros pos pos' skip.
  - simpl. destruct skip; [|reflexivity].
    now destruct (match_at false r []) as [[n c]|].
  - cbn [scan]. destruct skip as [|k]; [|apply IH].
    destruct (match_at false r (a :: s)) as [[[|n] c]|].
    + destruct (match_at true r (a :: s)) as [[[|n'] c']|];
        rewrite ?matches_of_inr, ?matches_of_inl; cbn [map m_caps];
        rewrite ?matches_of_inr, ?matches_of_inl; cbn [map m_caps];
        first [apply IH | f_equal; apply IH | do 2 f_equal; apply IH].
    + rewrite !matches_of_inr. cbn [map m_caps]. f_equal. apply IH.
    + rewrite !matches_of_inl. apply IH.
Qed.

Lemma replaced_pos r repl : forall s pos pos' skip,
  replaced repl (scan r s pos skip) = replaced repl (scan r s pos' skip).
Proof.
  induction s as [|a s IH]; intros pos pos' skip.
  - simpl. destruct skip; [|reflexivity].
    now destruct (match_at false r []) as [[n c]|].
  - cbn [scan]. destruct skip as [|k]; [|apply IH].
    destruct (match_at false r (a :: s)) as [[[|n] c]|].
    + destruct (match_at true r (a :: s)) as [[[|n'] c']|];
        rewrite ?replaced_inr, ?replaced_inl, ?replaced_inr;
        first [apply IH | f_equal; apply IH | do 2 f_equal; apply IH].
    + rewrite !replaced_inr. f_equal. apply IH.
    + rewrite !replaced_inl. f_equal. apply IH.
Qed.

(** A match at the start of the text is the first match of the scan, and
    the scan goes on after it. *)
Lemma finditer_caps_match r s1 rest n c :
  match_at false r (s1 ++ rest) = Some (S n, c) ->
  length s1 = S n ->
  map m_caps (finditer r (s1 ++ rest)) = c :: map m_caps (finditer r rest).
Proof.
  intros Hm Hl. unfold finditer.
  destruct s1 as [|a s1]; [discriminate|].
  cbn [app] in *. cbn [scan]. rewrite Hm.
  rewrite matches_of_inr. cbn [map m_caps]. f_equal.
  cbn [length] in Hl. injection Hl as Hl. subst n.
  rewrite scan_skip by (rewrite length_app; lia).
  rewrite skipn_app, skipn_all, Nat.sub_diag. cbn [app skipn].
  apply scan_caps_pos.
Qed.

(** A character at which the pattern does not match is passed over. *)
Lemma finditer_caps_skip r a s :
  match_at false r (a :: s) = None ->
  map m_caps (finditer r (a :: s)) = map m_caps (finditer r s).
Proof.
  intros Hm. unfold finditer. cbn [scan]. rewrite Hm.
  rewrite matches_of_inl. apply scan_caps_pos.
Qed.

Lemma finditer_nil r : match_at false r [] = None -> finditer r [] = [].
Proof. intros Hm. unfold finditer. cbn [scan]. now rewrite Hm. Qed.

(** A text in no piece of which the pattern matches has no match. *)
Lemma finditer_none r s :
  (forall pre span post c,
      s = pre ++ span ++ post -> ~ Matches r span [] c) ->
  finditer r s = [].
Proof.
  intros H. destruct (finditer r s) as [|m l] eqn:E; [reflexivity|].
  assert (Hin : In m (finditer r s)) by (rewrite E; now left).
  apply finditer_sound in Hin.
  destruct Hin as (pre & span & post & Hs & _ & _ & M).
  now elim (H pre span post (m_caps m) Hs).
Qed.

Lemma match_at_le b r s n c : match_at b r s = Some (n, c) -> n <= length s.
Proof.
  intros H. apply match_at_sound in H.
  destruct H as (s1 & s2 & -> & <- & _). rewrite length_app. lia.
Qed.

(** Every match reported by a scan is what the pattern matches at the
    reported offset. *)
Lemma scan_match r : forall s pos skip m,
  In (inr m) (scan r s pos skip) ->
  exists pre rest b,
    s = pre ++ rest /\ skip <= length pre /\ m_start m = pos + length pre /\
    match_at b r rest = Some (m_len m, m_caps m).
Proof.
  assert (Hshift : forall a s pos skip skip' m,
             skip' <= S skip ->
             (exists pre rest b,
                 s = pre ++ rest /\ skip <= length pre /\
                 m_start m = S pos + length pre /\
                 match_at b r rest = Some (m_len m, m_caps m)) ->
             exists pre rest b,
               a :: s = pre ++ rest /\ skip' <= length pre /\
               m_start m = pos + length pre /\
               match_at b r rest = Some (m_len m, m_caps m)).
  { intros a s pos skip skip' m Hs (pre & rest & b & -> & L & St & M).
    exists (a :: pre), rest, b. simpl. repeat split; auto; lia. }
  assert (Hhere : forall b s n c pos,
             match_at b r s = Some (n, c) ->
             exists pre rest b',
               s = pre ++ rest /\ 0 <= length pre /\
               m_start (mkMatch pos n c) = pos + length pre /\
               match_at b' r rest
               = Some (m_len (mkMatch pos n c), m_caps (mkMatch pos n c))).
  { intros b s n c pos H. exists [], s, b. simpl.
    repeat split; auto; lia. }
  induction s as [|a s IH]; intros pos skip m H.
  - simpl in H. destruct skip; [|contradiction].
    destruct (match_at false r []) as [[n c]|] eqn:E; [|contradiction].
    destruct H as [H|[]]. inversion H; subst m; clear H.
    pose proof (match_at_le _ _ _ E) as L. simpl in L.
    assert (n = 0) by lia. subst n. eapply Hhere; eauto.
  - cbn [scan] in H. destruct skip as [|k].
    + destruct (match_at false r (a :: s)) as [[[|n] c]|] eqn:E.
      * destruct H as [H|H].
        { inversion H; subst m. eapply Hhere; eauto. }
        destruct (match_at true r (a :: s)) as [[[|n'] c']|] eqn:E'.
        -- destruct H as [H|H]; [discriminate|].
           eapply Hshift; [|apply IH, H]. lia.
        -- destruct H as [H|H].
           { inversion H; subst m. eapply Hhere; eauto. }
           eapply Hshift; [|apply IH, H]. lia.
        -- destruct H as [H|H]; [discriminate|].
           eapply Hshift; [|apply IH, H]. lia.
      * destruct H as [H|H].
        { inversion H; subst m. eapply Hhere; eauto. }
        eapply Hshift; [|apply IH, H]. lia.
      * destruct H as [H|H]; [discriminate|].
        eapply Hshift; [|apply IH, H]. lia.
    + eapply Hshift; [|apply IH, H]. lia.
Qed.

Lemma finditer_match r s m :
  In m (finditer r s) ->
  exists pre rest b,
    s = pre ++ rest /\ m_start m = length pre /\
    match_at b r rest = Some (m_len m, m_caps m).
Proof.
  unfold finditer. rewrite in_matches_of. intros H.
  apply scan_match in H.
  destruct H as (pre & rest & b & ? & ? & ? & ?).
  exists pre, rest, b. auto.
Qed.

(** A scan misses no match: where the pattern matches a piece that is
    not empty, the scan reports that match, unless the place lies
    inside a match reported before. *)
Lemma scan_complete r : forall s pos skip pre rest n c,
  s = pre ++ rest -> skip <= length pre ->
  match_at false r rest = Some (S n, c) ->
  In (inr (mkMatch (pos + length pre) (S n) c)) (scan r s pos skip) \/
  exists m, In (inr m) (scan r s pos skip) /\
            m_start m < pos + length pre /\
            pos + length pre < m_start m + m_len m.
Proof.
  induction s as [|a s IH]; intros pos skip pre rest n c Hs Hskip Hm.
  - symmetry in Hs. apply app_eq_nil in Hs. destruct Hs; subst.
    apply match_at_le in Hm. simpl in Hm. lia.
  - destruct pre as [|a' pre].
    + cbn [app] in Hs. subst rest. simpl in Hskip.
      assert (skip = 0) by lia. subst skip.
      left. cbn [scan]. rewrite Hm. cbn [length]. rewrite Nat.add_0_r.
      now left.
    + cbn [app] in Hs. inversion Hs; subst a' s. cbn [length] in *.
      replace (pos + S (length pre)) with (S pos + length pre) by lia.
      assert (Hnext : forall k l,
                 k <= length pre ->
                 In (inr (mkMatch (S pos + length pre) (S n) c))
                    (l ++ scan r (pre ++ rest) (S pos) k) \/
                 exists m, In (inr m) (l ++ scan r (pre ++ rest) (S pos) k) /\
                           m_start m < S pos + length pre /\
                           S pos + length pre < m_start m + m_len m).
      { intros k l Hk.
        destruct (IH (S pos) k pre rest n c eq_refl Hk Hm)
          as [H|(m & H & H1 & H2)].
        - left. apply in_or_app. now right.
        - right. exists m. split; [apply in_or_app; now right|]. lia. }
      assert (Hcover : forall k c0 (l : list (ascii + Match)),
                 ~ k <= length pre ->
                 exists m, In (inr m) (inr (mkMatch pos (S k) c0) :: l) /\
                           m_start m < S pos + length pre /\
                           S pos + length pre < m_start m + m_len m).
      { intros k c0 l Hk. exists (mkMatch pos (S k) c0).
        split; [now left|]. simpl. lia. }
      cbn [scan]. destruct skip as [|k].
      * destruct (match_at false r (a :: pre ++ rest)) as [[[|k] c0]|] eqn:E.
        -- destruct (match_at true r (a :: pre ++ rest))
             as [[[|k'] c1]|] eqn:E'.
           ++ apply (Hnext 0 [inr (mkMatch pos 0 c0); inl a]). lia.
           ++ destruct (le_dec k' (length pre)) as [Hk|Hk].
              ** apply (Hnext k' [inr (mkMatch pos 0 c0);
                                  inr (mkMatch pos (S k') c1)]). exact Hk.
              ** right.
                 destruct (Hcover k' c1 (scan r (pre ++ rest) (S pos) k') Hk)
                   as (m & Hin & H1 & H2).
                 exists m. split; [now right|]. lia.
           ++ apply (Hnext 0 [inr (mkMatch pos 0 c0); inl a]). lia.
        -- destruct (le_dec k (length pre)) as [Hk|Hk].
           ++ apply (Hnext k [inr (mkMatch pos (S k) c0)]). exact Hk.
           ++ right. now apply Hcover.
        -- apply (Hnext 0 [inl a]). lia.
      * apply (Hnext k []). lia.
Qed.

Lemma finditer_complete r pre rest n c :
  match_at false r rest = Some (S n, c) ->
  In (mkMatch (length pre) (S n) c) (finditer r (pre ++ rest)) \/
  exists m, In m (finditer r (pre ++ rest)) /\
            m_start m < length pre /\ length pre < m_start m + m_len m.
Proof.
  intros Hm. unfold finditer.
  destruct (@scan_complete r (pre ++ rest) 0 0 pre rest n c eq_refl
              (Nat.le_0_l _) Hm) as [H|(m & H & H1 & H2)].
  - left. now apply in_matches_of.
  - right. exists m. split; [now apply in_matches_of|]. simpl in *. lia.
Qed.

End ReFacts.

(** ** [no_comments] *)

Module NoComments.
Import Re ReFacts.

(** What the pattern [[^\\]%.*] matches at the start of a text. *)
Lemma comment_match b s :
  match_at b comment_re s =
  match s with
  | a :: c :: t =>
      if not_char "\" a && is_char "%" c
      then Some (2 + length (take_while any_char t), [])
      else None
  | _ => None
  end.
Proof.
  unfold match_at, comment_re, seqs. cbn [fold_right rmatch].
  destruct s as [|a [|c t]]; [reflexivity| |].
  - now destruct (not_char "\" a).
  - destruct (not_char "\" a); [|reflexivity].
    destruct (is_char "%" c); [|reflexivity].
    cbn [andb].
    assert (L : length (a :: c :: t) - length (drop_while any_char t)
                = 2 + length (take_while any_char t)).
    { rewrite <- (take_drop_while any_char t) at 1.
      cbn [length]. rewrite length_app. lia. }
    rewrite star_greedy; rewrite L; cbn [Nat.eqb Nat.add];
      rewrite andb_false_r; [reflexivity|discriminate].
Qed.

Lemma uncomment_in_span : forall s,
  uncomment true s = uncomment false (drop_while any_char s).
Proof.
  induction s as [|a s IH]; [reflexivity|].
  cbn [uncomment drop_while andb]. destruct (any_char a) eqn:E.
  - exact IH.
  - cbn [uncomment andb]. reflexivity.
Qed.

(** [no_comments] is the single pass [uncomment]. *)
Lemma scan_uncomment : forall n s pos,
  length s <= n ->
  replaced [] (scan comment_re s pos 0) = uncomment false s.
Proof.
  induction n as [|n IH]; intros s pos Hn.
  - destruct s; [reflexivity|simpl in Hn; lia].
  - destruct s as [|a s]; [reflexivity|].
    cbn [scan]. rewrite comment_match.
    destruct s as [|c t].
    + rewrite replaced_inl. reflexivity.
    + cbn [uncomment andb].
      destruct (not_char "\" a && is_char "%" c) eqn:E.
      * cbn [Nat.add]. rewrite replaced_inr. cbn [app].
        rewrite scan_skip.
        2:{ cbn [length]. rewrite <- (take_drop_while any_char t) at 2.
            rewrite length_app. lia. }
        cbn [skipn]. rewrite skipn_take_while.
        rewrite IH.
        2:{ cbn [length] in Hn. rewrite <- (take_drop_while any_char t) in Hn.
            rewrite length_app in Hn. lia. }
        apply andb_true_iff in E. destruct E as [_ E].
        unfold is_char in E. apply Ascii.eqb_eq in E. subst c.
        transitivity (uncomment true ("%" :: t)); [|reflexivity].
        rewrite uncomment_in_span. reflexivity.
      * rewrite replaced_inl. f_equal. apply IH. simpl in Hn. simpl. lia.
Qed.

Lemma no_comments_uncomment t : no_comments t = uncomment false t.
Proof. unfold no_comments, sub. now apply scan_uncomment with (n := length t). Qed.

(** Text before the first place where a span starts is kept as it is. *)
Lemma uncomment_keep_prefix : forall pre s,
  no_marker (pre ++ firstn 1 s) = true ->
  uncomment false (pre ++ s) = pre ++ uncomment false s.
Proof.
  induction pre as [|a pre IH]; intros s H; [reflexivity|].
  destruct pre as [|b pre].
  - destruct s as [|b s]; [reflexivity|].
    cbn [app firstn no_marker] in H. cbn [app uncomment andb].
    rewrite andb_true_r in H. apply negb_true_iff in H. now rewrite H.
  - change (no_marker ((a :: b :: pre) ++ firstn 1 s))
      with (negb (not_char "\" a && is_char "%" b)
            && no_marker ((b :: pre) ++ firstn 1 s)) in H.
    apply andb_true_iff in H. destruct H as [H1 H2].
    apply negb_true_iff in H1.
    change (uncomment false ((a :: b :: pre) ++ s))
      with (if not_char "\" a && is_char "%" b
            then uncomment true ((b :: pre) ++ s)
            else a :: uncomment false ((b :: pre) ++ s)).
    rewrite H1, IH by exact H2. reflexivity.
Qed.

Lemma uncomment_no_marker s : no_marker s = true -> uncomment false s = s.
Proof.
  intros H. rewrite <- (app_nil_r s) at 1.
  rewrite uncomment_keep_prefix.
  - simpl. now rewrite app_nil_r.
  - simpl. now rewrite app_nil_r.
Qed.

(** A span runs to the end of its line. *)
Lemma uncomment_span body tail :
  forallb any_char body = true ->
  tail = [] \/ (exists rest, tail = LF :: rest) ->
  uncomment true (body ++ tail) = uncomment false tail.
Proof.
  intros Hb Ht. rewrite uncomment_in_span. f_equal.
  destruct Ht as [->|[rest ->]].
  - rewrite app_nil_r. now apply drop_while_all.
  - now apply drop_while_app.
Qed.

Lemma count_nl_cons a s :
  count_nl (a :: s) = (if Ascii.eqb a LF then 1 else 0) + count_nl s.
Proof.
  unfold count_nl. cbn [count_occ].
  destruct (ascii_dec a LF) as [->|N].
  - now rewrite Ascii.eqb_refl.
  - apply Ascii.eqb_neq in N. now rewrite N.
Qed.

Lemma count_nl_percent_cons a c t :
  count_nl_percent (a :: c :: t) =
  (if Ascii.eqb a LF && Ascii.eqb c "%" then 1 else 0)
  + count_nl_percent (c :: t).
Proof. reflexivity. Qed.

Lemma uncomment_count_nl : forall s b,
  count_nl (uncomment b s) + count_nl_percent s = count_nl s.
Proof.
  induction s as [|a s IH]; intros b; [reflexivity|].
  cbn [uncomment]. rewrite (count_nl_cons a s).
  unfold any_char, not_char, is_char.
  destruct (Ascii.eqb a LF) eqn:Ea.
  - rewrite andb_false_r. apply Ascii.eqb_eq in Ea. subst a.
    destruct s as [|c t]; [reflexivity|].
    rewrite count_nl_percent_cons, Ascii.eqb_refl.
    change (negb (Ascii.eqb LF "\")) with true. cbn [andb].
    destruct (Ascii.eqb c "%") eqn:Ec.
    + rewrite <- (IH true). lia.
    + rewrite count_nl_cons, Ascii.eqb_refl. rewrite <- (IH false). lia.
  - cbn [negb]. rewrite andb_true_r.
    assert (Hp : count_nl_percent (a :: s) = count_nl_percent s).
    { destruct s as [|c t]; [reflexivity|].
      rewrite count_nl_percent_cons. now rewrite Ea. }
    rewrite Hp. destruct b; cbn [andb].
    + apply IH.
    + destruct s as [|c t].
      * unfold count_nl. cbn [count_occ].
        destruct (ascii_dec a LF) as [->|]; [discriminate|reflexivity].
      * destruct (negb (Ascii.eqb a "\") && Ascii.eqb c "%").
        -- apply IH.
        -- rewrite count_nl_cons, Ea. apply IH.
Qed.

End NoComments.

(** ** [citations] *)

Module Citations.
Import Re ReFacts.

Lemma text_eqb_eq : forall a b, text_eqb a b = true <-> a = b.
Proof.
  induction a as [|x a IH]; destruct b as [|y b]; simpl;
    try (split; [discriminate|discriminate]); [tauto|].
  rewrite andb_true_iff, Ascii.eqb_eq, IH. split.
  - now intros [-> ->].
  - intros H. inversion H. auto.
Qed.

Lemma existsb_text_eqb x l : existsb (text_eqb x) l = true <-> In x l.
Proof.
  rewrite existsb_exists. split.
  - intros (y & Hin & E). apply text_eqb_eq in E. now subst.
  - intros H. exists x. split; [exact H|]. now apply text_eqb_eq.
Qed.

Ltac inv_matches :=
  repeat match goal with
    | H : Matches REps _ _ _ |- _ => inversion H; subst; clear H
    | H : Matches (RChar _) _ _ _ |- _ => inversion H; subst; clear H
    | H : Matches (RLit _) _ _ _ |- _ => inversion H; subst; clear H
    | H : Matches (RSeq _ _) _ _ _ |- _ => inversion H; subst; clear H
    | H : Matches (RAlt _ _) _ _ _ |- _ => inversion H; subst; clear H
    | H : Matches (RStar _) _ _ _ |- _ => inversion H; subst; clear H
    | H : Matches (ROpt _) _ _ _ |- _ => inversion H; subst; clear H
    | H : Matches (RGroup _ _) _ _ _ |- _ => inversion H; subst; clear H
    end.

(** The alternation of command names matches the documented names and
    nothing else, and captures no group. *)
Lemma command_re_inv s c c' :
  Matches command_re s c c' -> c' = c /\ In s documented_commands.
Proof.
  intros H. cbv [command_re alts seqs fold_right] in H.
  inv_matches; (split; [reflexivity|]); apply existsb_text_eqb;
    try reflexivity;
    match goal with
    | H : (is_char "C" ?a || is_char "c" ?a) = true |- _ =>
        apply orb_true_iff in H; unfold is_char in H;
        destruct H as [H|H]; apply Ascii.eqb_eq in H; subst a; reflexivity
    end.
Qed.

Lemma bracket_group_inv i s c c' :
  Matches (bracket_group i) s c c' ->
  (s = [] /\ c' = c) \/ (bracket_span s /\ c' = (i, s) :: c).
Proof.
  intros H. cbv [bracket_group bracket_re seqs fold_right] in H.
  inv_matches.
  - right. split; [|reflexivity].
    match goal with
    | H : forallb (not_char "]") ?x = true |- _ => exists x
    end.
    rewrite app_nil_r. auto.
  - left. auto.
Qed.

(** The shape of every text that the arguments match, and the groups
    reported. *)
Lemma args_inv s c :
  Matches args_re s [] c ->
  exists w1 g1 w2 g2 w3 body,
    s = w1 ++ g1 ++ w2 ++ g2 ++ w3 ++ txt "{" ++ body /\
    forallb is_space w1 = true /\ forallb is_space w2 = true /\
    forallb is_space w3 = true /\
    (g1 = [] \/ bracket_span g1) /\ (g2 = [] \/ bracket_span g2) /\
    body <> [] /\ forallb (not_char "}") body = true /\
    group 1 c = g1 /\ group 2 c = g2 /\ group 3 c = body.
Proof.
  intros H. cbv [args_re seqs fold_right RPlus] in H.
  inv_matches.
  repeat match goal with
  | H : Matches (bracket_group _) _ _ _ |- _ => apply bracket_group_inv in H
  end.
  rewrite !app_nil_r.
  do 6 eexists. split; [reflexivity|].
  cbn [app forallb].
  repeat match goal with
  | H : _ = true |- _ => rewrite H
  end.
  repeat match goal with
  | H : _ \/ (bracket_span _ /\ _) |- _ =>
      destruct H as [[-> ->]|[? ->]]
  end;
  repeat split; auto; discriminate.
Qed.

(** The shape of every text that the pattern [p] matches. *)
Lemma cite_match_inv span c :
  Matches cite_re span [] c ->
  exists cmd w1 g1 w2 g2 w3 body,
    span = txt "\" ++ cmd ++ w1 ++ g1 ++ w2 ++ g2 ++ w3 ++ txt "{" ++ body /\
    In cmd documented_commands /\
    forallb is_space w1 = true /\ forallb is_space w2 = true /\
    forallb is_space w3 = true /\
    (g1 = [] \/ bracket_span g1) /\ (g2 = [] \/ bracket_span g2) /\
    body <> [] /\ forallb (not_char "}") body = true /\
    group 1 c = g1 /\ group 2 c = g2 /\ group 3 c = body.
Proof.
  intros H. cbv [cite_re seqs fold_right] in H.
  inv_matches.
  match goal with
  | H : Matches command_re _ _ _ |- _ =>
      apply command_re_inv in H; destruct H as [-> Hcmd]
  end.
  match goal with
  | H : Matches args_re _ _ _ |- _ =>
      apply args_inv in H;
      destruct H as (w1 & g1 & w2 & g2 & w3 & body & -> & H)
  end.
  rewrite !app_nil_r.
  match goal with
  | H : In ?cmd documented_commands |- _ =>
      exists cmd, w1, g1, w2, g2, w3, body
  end.
  split; [reflexivity|]. split; [assumption|]. assumption.
Qed.

(** Every triple of [p.findall(text)] comes from a piece of the text of
    the shape above. *)
Lemma findall3_shape t left_ right_ cites :
  In (left_, right_, cites) (findall3 cite_re t) ->
  exists pre post cmd w1 w2 w3,
    t = pre ++ (txt "\" ++ cmd ++ w1 ++ left_ ++ w2 ++ right_ ++ w3
                ++ txt "{" ++ cites) ++ post /\
    In cmd documented_commands /\
    forallb is_space w1 = true /\ forallb is_space w2 = true /\
    forallb is_space w3 = true /\
    (left_ = [] \/ bracket_span left_) /\
    (right_ = [] \/ bracket_span right_) /\
    cites <> [] /\ forallb (not_char "}") cites = true.
Proof.
  unfold findall3. rewrite in_map_iff. intros (m & E & Hin).
  apply finditer_sound in Hin.
  destruct Hin as (pre & span & post & -> & _ & _ & M).
  apply cite_match_inv in M.
  destruct M as (cmd & w1 & g1 & w2 & g2 & w3 & body & -> & Hc & W1 & W2
                 & W3 & B1 & B2 & Hne & Hb & G1 & G2 & G3).
  unfold groups3 in E. rewrite G1, G2, G3 in E. inversion E; subst.
  exists pre, post, cmd, w1, w2, w3. repeat split; auto.
Qed.

(** The bracket arguments are strictly shorter than the text they were
    found in. *)
Lemma findall3_shorter t left_ right_ cites :
  In (left_, right_, cites) (findall3 cite_re t) ->
  length left_ < length t /\ length right_ < length t.
Proof.
  intros H. apply findall3_shape in H.
  destruct H as (pre & post & cmd & w1 & w2 & w3 & -> & _).
  rewrite !length_app. cbn [length txt list_ascii_of_string]. lia.
Qed.

Lemma yield_each_flat_map (A B : Type) (f : A -> option (list B)) g l :
  (forall x, In x l -> f x = Some (g x)) ->
  yield_each f l = Some (flat_map g l).
Proof.
  induction l as [|x l IH]; intros H; [reflexivity|].
  cbn [yield_each flat_map]. rewrite (H x) by (left; reflexivity).
  rewrite IH; [reflexivity|]. intros y Hy. apply H. now right.
Qed.

(** With fuel above the length of the text the generator finishes, and
    what it yields does not depend on the fuel. *)
Lemma citations_fuel_step n t :
  (forall s, length s < length t -> citations_fuel n s = Some (citations s)) ->
  citations_fuel (S n) t
  = Some (flat_map (keys_of_match citations) (findall3 cite_re t)).
Proof.
  intros Hrec. cbn [citations_fuel].
  apply yield_each_flat_map. intros [[l r] c] Hin.
  apply findall3_shorter in Hin. destruct Hin as [Hl Hr].
  rewrite (Hrec l Hl), (Hrec r Hr). reflexivity.
Qed.

Lemma citations_fuel_enough : forall n t,
  length t < n -> citations_fuel n t = Some (citations t).
Proof.
  induction n as [n IH] using lt_wf_ind. intros t Hn.
  assert (Hstep : forall k, k < n -> length t <= k ->
             citations_fuel (S k) t
             = Some (flat_map (keys_of_match citations) (findall3 cite_re t))).
  { intros k Hk Hle. apply citations_fuel_step.
    intros s Hs. apply IH; lia. }
  destruct n as [|n]; [lia|].
  unfold citations at 1.
  rewrite (Hstep (length t)) by lia.
  apply Hstep; lia.
Qed.

Lemma citations_unfold t :
  citations t = flat_map (keys_of_match citations) (findall3 cite_re t).
Proof.
  assert (H : citations_fuel (S (length t)) t = Some (citations t))
    by (apply citations_fuel_enough; lia).
  rewrite citations_fuel_step in H.
  - now inversion H.
  - intros s Hs. apply citations_fuel_enough. exact Hs.
Qed.

(** *** Matching a command applied to its arguments *)

Lemma name_char_facts a :
  is_name_char a = true ->
  is_space a = false /\ Ascii.eqb "[" a = false /\ Ascii.eqb "{" a = false
  /\ Ascii.eqb "\" a = false.
Proof.
  destruct a as [b0 b1 b2 b3 b4 b5 b6 b7].
  destruct b0, b1, b2, b3, b4, b5, b6, b7; vm_compute; intros H;
    try discriminate H; repeat split.
Qed.

(** The arguments cannot start with a character of a command name. *)
Lemma args_fail (A : Type) (k : text -> caps -> option A) a t c :
  is_name_char a = true -> rmatch args_re (a :: t) c k = None.
Proof.
  intros H. apply name_char_facts in H. destruct H as (Hs & Hb & Hc & _).
  cbv [args_re seqs fold_right bracket_group bracket_re RPlus txt
       list_ascii_of_string].
  do 3 (cbn [rmatch star strip_prefix]; rewrite ?Hs, ?Hb, ?Hc).
  reflexivity.
Qed.

(** A brace argument right after the command name: the match takes the
    characters up to the first closing brace, or to the end of the
    text. *)
Lemma args_brace (A : Type) (k : text -> caps -> option A) key rest c :
  key <> [] -> forallb (not_char "}") key = true ->
  drop_while (not_char "}") rest = rest ->
  k rest ((3, key) :: c) <> None ->
  rmatch args_re ("{" :: key ++ rest) c k = k rest ((3, key) :: c).
Proof.
  intros Hne Hkey Hrest Hk.
  destruct key as [|k0 key]; [now elim Hne|].
  cbn [forallb] in Hkey. apply andb_true_iff in Hkey.
  destruct Hkey as [Hk0 Hkey].
  cbv [args_re seqs fold_right bracket_group bracket_re RPlus txt
       list_ascii_of_string].
  cbn [rmatch star strip_prefix app].
  change (is_space "{") with false. change (Ascii.eqb "[" "{") with false.
  change (Ascii.eqb "{" "{") with true. cbn iota. rewrite Hk0.
  assert (Hd : drop_while (not_char "}") (key ++ rest) = rest).
  { clear - Hkey Hrest. induction key as [|x key IH]; [exact Hrest|].
    cbn [forallb] in Hkey. apply andb_true_iff in Hkey.
    destruct Hkey as [Hx Hkey]. cbn [app drop_while]. rewrite Hx. now apply IH. }
  assert (Hf : firstn (length (k0 :: key ++ rest) - length rest)
                      (k0 :: key ++ rest) = k0 :: key).
  { apply (firstn_length_app (k0 :: key) rest). }
  rewrite star_greedy; rewrite Hd, Hf; [reflexivity|exact Hk].
Qed.

(** Each documented name, followed by an opening brace, is matched by
    the alternation of names, whatever choices had to be undone on the
    way. *)
Lemma command_re_complete (A : Type) (K : text -> caps -> option A)
      name tail c x :
  In name documented_commands ->
  (forall a t c', is_name_char a = true -> K (a :: t) c' = None) ->
  K ("{" :: tail) c = Some x ->
  rmatch command_re (name ++ "{" :: tail) c K = Some x.
Proof.
  intros Hin Hfail HK.
  cbv [documented_commands suffixes flat_map app txt list_ascii_of_string]
    in Hin.
  cbv [command_re alts seqs fold_right txt list_ascii_of_string].
  repeat (destruct Hin as [<-|Hin];
          [simpl; repeat (rewrite Hfail by reflexivity; simpl);
           rewrite HK; reflexivity|]).
  destruct Hin.
Qed.

(** A documented command applied to a brace argument is matched, with
    no bracket group and the argument as third group. *)
Lemma cite_match name key rest :
  In name documented_commands ->
  key <> [] -> forallb (not_char "}") key = true ->
  drop_while (not_char "}") rest = rest ->
  match_at false cite_re (txt "\" ++ name ++ txt "{" ++ key ++ rest)
  = Some (length (txt "\" ++ name ++ txt "{" ++ key), [(3, key)]).
Proof.
  intros Hin Hne Hkey Hrest.
  unfold match_at. cbv [cite_re seqs fold_right].
  cbn [rmatch txt list_ascii_of_string app strip_prefix].
  change (Ascii.eqb "\" "\") with true. cbn iota.
  apply command_re_complete; [exact Hin| |].
  - intros a t c' Ha. now apply args_fail.
  - rewrite args_brace; try assumption.
    + cbn [andb]. do 2 f_equal.
      replace ("\" :: name ++ "{" :: key ++ rest)
        with (("\" :: name ++ "{" :: key) ++ rest)
        by (cbn [app]; now rewrite <- app_assoc).
      rewrite length_app. lia.
    + discriminate.
Qed.

(** *** [findall] on command calls *)

Lemma findall3_caps r t :
  findall3 r t
  = map (fun c => (group 1 c, group 2 c, group 3 c)) (map m_caps (finditer r t)).
Proof. unfold findall3. now rewrite map_map. Qed.

Lemma findall3_call name key rest :
  In name documented_commands ->
  key <> [] -> forallb (not_char "}") key = true ->
  drop_while (not_char "}") rest = rest ->
  findall3 cite_re (txt "\" ++ name ++ txt "{" ++ key ++ rest)
  = ([], [], key) :: findall3 cite_re rest.
Proof.
  intros Hin Hne Hkey Hrest.
  pose proof (@cite_match name key rest Hin Hne Hkey Hrest) as Hm.
  rewrite !findall3_caps.
  replace (txt "\" ++ name ++ txt "{" ++ key ++ rest)
    with ((txt "\" ++ name ++ txt "{" ++ key) ++ rest) in *
    by (now rewrite <- !app_assoc).
  remember (txt "\" ++ name ++ txt "{" ++ key) as s1 eqn:Es1.
  assert (Hl : exists n, length s1 = S n).
  { subst s1. cbn [txt list_ascii_of_string app length]. eauto. }
  destruct Hl as [n Hl]. rewrite Hl in Hm.
  rewrite (@finditer_caps_match _ _ _ _ _ Hm Hl). reflexivity.
Qed.

Lemma cite_no_match a s :
  Ascii.eqb "\" a = false -> match_at false cite_re (a :: s) = None.
Proof.
  intros H. unfold match_at. cbv [cite_re seqs fold_right].
  cbn [rmatch txt list_ascii_of_string strip_prefix]. now rewrite H.
Qed.

Lemma findall3_skip a s :
  Ascii.eqb "\" a = false -> findall3 cite_re (a :: s) = findall3 cite_re s.
Proof.
  intros H. rewrite !findall3_caps.
  now rewrite finditer_caps_skip by (now apply cite_no_match).
Qed.

Lemma findall3_nil : findall3 cite_re [] = [].
Proof. reflexivity. Qed.

Lemma citations_nil : citations [] = [].
Proof. reflexivity. Qed.

Lemma split_single sep : forall k,
  forallb (not_char sep) k = true -> split sep k = [k].
Proof.
  induction k as [|a k IH]; intros H; [reflexivity|].
  cbn [forallb] in H. apply andb_true_iff in H. destruct H as [Ha Hk].
  cbn [split]. unfold not_char in Ha. apply negb_true_iff in Ha.
  rewrite Ha, IH by exact Hk. reflexivity.
Qed.

Lemma single_key_facts k :
  single_key k = true ->
  k <> [] /\ forallb (not_char "}") k = true /\ forallb (not_char ",") k = true.
Proof.
  unfold single_key. rewrite !andb_true_iff, negb_true_iff.
  intros [[H1 H2] H3]. repeat split; auto.
  intros ->. discriminate.
Qed.

(** The matches of a document of command calls: one per call, with the
    key as third group and no bracket group. *)
Lemma findall3_document : forall calls,
  (forall c, In c calls ->
             In (fst c) documented_commands /\ single_key (snd c) = true) ->
  findall3 cite_re (document calls) = map (fun c => ([], [], snd c)) calls.
Proof.
  induction calls as [|[n k] calls IH]; intros H; [reflexivity|].
  destruct (H (n, k) (or_introl eq_refl)) as [Hn Hk]. cbn [fst snd] in *.
  apply single_key_facts in Hk. destruct Hk as (Hne & Hb & _).
  cbn [document flat_map fst snd]. unfold command_call.
  rewrite <- !app_assoc.
  rewrite findall3_call; try assumption; [|reflexivity].
  cbn [txt list_ascii_of_string app map snd]. f_equal.
  rewrite !findall3_skip by reflexivity.
  apply IH. intros c Hc. apply H. now right.
Qed.

(** *** Names outside the documented list *)

Lemma documented_name_chars cmd :
  In cmd documented_commands -> forallb is_name_char cmd = true.
Proof.
  intros H.
  assert (Hall : forallb (forallb is_name_char) documented_commands = true)
    by reflexivity.
  rewrite forallb_forall in Hall. now apply Hall.
Qed.

(** Two runs of name characters, each ended by another character, that
    start the same text are the same run. *)
Lemma name_prefix_unique : forall n1 n2 x1 x2 r1 r2,
  forallb is_name_char n1 = true -> forallb is_name_char n2 = true ->
  is_name_char x1 = false -> is_name_char x2 = false ->
  n1 ++ x1 :: r1 = n2 ++ x2 :: r2 -> n1 = n2.
Proof.
  induction n1 as [|a n1 IH]; intros [|b n2] x1 x2 r1 r2 H1 H2 X1 X2 E;
    cbn [app forallb] in *.
  - reflexivity.
  - inversion E; subst. apply andb_true_iff in H2. destruct H2 as [H2 _].
    congruence.
  - inversion E; subst. apply andb_true_iff in H1. destruct H1 as [H1 _].
    congruence.
  - inversion E; subst. apply andb_true_iff in H1, H2.
    destruct H1 as [_ H1]. destruct H2 as [_ H2].
    f_equal.
    match goal with
    | H : n1 ++ _ = _ |- _ => exact (IH _ _ _ _ _ H1 H2 X1 X2 H)
    end.
Qed.

Lemma backslash_first l pre l' :
  forallb (not_char "\") l = true ->
  "\" :: l = pre ++ "\" :: l' -> pre = [] /\ l = l'.
Proof.
  intros Hl E. destruct pre as [|y pre].
  - inversion E. auto.
  - inversion E; subst. rewrite forallb_app in Hl.
    apply andb_true_iff in Hl. destruct Hl as [_ Hl]. discriminate Hl.
Qed.

(** What follows the command name in a match starts with a character
    that is not a name character. *)
Lemma args_start w1 g1 w2 g2 w3 tail :
  forallb is_space w1 = true -> forallb is_space w2 = true ->
  forallb is_space w3 = true ->
  (g1 = [] \/ bracket_span g1) -> (g2 = [] \/ bracket_span g2) ->
  exists y r,
    w1 ++ g1 ++ w2 ++ g2 ++ w3 ++ txt "{" ++ tail = y :: r /\
    is_name_char y = false.
Proof.
  assert (Hsp : forall (w : text) (T : text),
             forallb is_space w = true ->
             (exists y r, T = y :: r /\ is_name_char y = false) ->
             exists y r, w ++ T = y :: r /\ is_name_char y = false).
  { intros [|a w] T Hw HT; [exact HT|].
    cbn [forallb] in Hw. apply andb_true_iff in Hw. destruct Hw as [Ha _].
    exists a, (w ++ T). split; [reflexivity|].
    destruct (is_name_char a) eqn:E; [|reflexivity].
    apply name_char_facts in E. destruct E as [E _]. congruence. }
  assert (Hbr : forall (g : text) (T : text),
             (g = [] \/ bracket_span g) ->
             (exists y r, T = y :: r /\ is_name_char y = false) ->
             exists y r, g ++ T = y :: r /\ is_name_char y = false).
  { intros g T [->|(inner & -> & _)] HT; [exact HT|].
    exists "["%char, ((inner ++ txt "]") ++ T). split; reflexivity. }
  intros W1 W2 W3 G1 G2.
  apply Hsp; [exact W1|]. apply Hbr; [exact G1|].
  apply Hsp; [exact W2|]. apply Hbr; [exact G2|].
  apply Hsp; [exact W3|].
  exists "{"%char, tail. split; reflexivity.
Qed.

(** A backslash followed by a run of name characters that is not a
    documented command starts no match, whatever follows it. *)
Lemma findall3_undocumented name x tail :
  forallb is_name_char name = true ->
  ~ In name documented_commands ->
  is_name_char x = false ->
  forallb (not_char "\") (x :: tail) = true ->
  findall3 cite_re (txt "\" ++ name ++ x :: tail) = [].
Proof.
  intros Hname Hnot Hx Htail.
  unfold findall3. rewrite finditer_none; [reflexivity|].
  intros pre span post c E M.
  apply cite_match_inv in M.
  destruct M as (cmd & w1 & g1 & w2 & g2 & w3 & body & -> & Hc & W1 & W2
                 & W3 & B1 & B2 & _).
  cbn [txt list_ascii_of_string app] in E.
  rewrite <- app_assoc in E. cbn [app] in E.
  apply backslash_first in E.
  - destruct E as [_ E].
    destruct (@args_start w1 g1 w2 g2 w3 body W1 W2 W3 B1 B2)
      as (y & r & Hy & Hyn).
    cbn [txt list_ascii_of_string app] in Hy.
    rewrite Hy in E. cbn [app] in E.
    apply name_prefix_unique in E; auto.
    + subst. contradiction.
    + now apply documented_name_chars.
  - rewrite forallb_app. apply andb_true_iff. split; [|exact Htail].
    clear - Hname. induction name as [|a name IH]; [reflexivity|].
    cbn [forallb] in *. apply andb_true_iff in Hname. destruct Hname as [Ha Hn].
    rewrite IH by exact Hn. apply name_char_facts in Ha.
    destruct Ha as (_ & _ & _ & Ha). unfold not_char.
    rewrite Ascii.eqb_sym, Ha. reflexivity.
Qed.

End Citations.

(** ** [build_bib] *)

Module Numpy.
Import Citations.

Lemma text_compare_eq : forall a b, text_compare a b = Eq <-> a = b.
Proof.
  induction a as [|x a IH]; destruct b as [|y b]; cbn [text_compare];
    try (split; [discriminate|discriminate]); [tauto|].
  destruct (Nat.compare (nat_of_ascii x) (nat_of_ascii y)) eqn:E.
  - apply Nat.compare_eq in E.
    assert (x = y).
    { rewrite <- (ascii_nat_embedding x), <- (ascii_nat_embedding y).
      now rewrite E. }
    subst y. rewrite IH. split; [now intros ->|]. intros H. now inversion H.
  - split; [discriminate|]. intros H. inversion H; subst.
    rewrite Nat.compare_refl in E. discriminate.
  - split; [discriminate|]. intros H. inversion H; subst.
    rewrite Nat.compare_refl in E. discriminate.
Qed.

Lemma insert_unique_in x : forall l y,
  In y (insert_unique x l) <-> y = x \/ In y l.
Proof.
  induction l as [|z l IH]; intros y; cbn [insert_unique].
  - simpl. intuition.
  - destruct (text_compare x z) eqn:E.
    + apply text_compare_eq in E. subst z. simpl. intuition.
    + simpl. intuition.
    + simpl. rewrite IH. intuition.
Qed.

Lemma fold_insert_in : forall l y,
  In y (fold_right insert_unique [] l) <-> In y l.
Proof.
  induction l as [|x l IH]; intros y; [reflexivity|].
  cbn [fold_right]. rewrite insert_unique_in, IH. simpl. intuition.
Qed.

Lemma np_unique_in : forall l y,
  In y (np_unique l) <-> In y (map np_str l).
Proof. intros l y. unfold np_unique. apply fold_insert_in. Qed.

Lemma np_str_idem s : np_str (np_str s) = np_str s.
Proof.
  unfold np_str. rewrite rev_involutive. f_equal.
  generalize (rev s). intros r.
  induction r as [|a r IH]; [reflexivity|].
  cbn [drop_while]. destruct (is_char NUL a) eqn:E; [exact IH|].
  cbn [drop_while]. now rewrite E.
Qed.

Lemma np_mask_in1d ar1 ar2 :
  np_mask ar1 (np_in1d ar1 ar2)
  = filter (fun x => existsb (text_eqb (np_str x)) (map np_str ar2)) ar1.
Proof.
  unfold np_in1d. induction ar1 as [|x ar1 IH]; [reflexivity|].
  cbn [map np_mask filter]. rewrite IH. reflexivity.
Qed.

Lemma np_mask_not_in1d ar1 ar2 :
  np_mask ar1 (np_invert (np_in1d ar1 ar2))
  = filter (fun x => negb (existsb (text_eqb (np_str x)) (map np_str ar2)))
           ar1.
Proof.
  unfold np_in1d, np_invert. induction ar1 as [|x ar1 IH]; [reflexivity|].
  cbn [map np_mask filter]. rewrite IH.
  now destruct (existsb (text_eqb (np_str x)) (map np_str ar2)).
Qed.

Lemma np_all_in1d ar1 ar2 :
  np_all (np_in1d ar1 ar2) = true <->
  filter (fun x => negb (existsb (text_eqb (np_str x)) (map np_str ar2)))
         ar1 = [].
Proof.
  unfold np_all, np_in1d. induction ar1 as [|x ar1 IH]; [simpl; tauto|].
  cbn [map forallb filter].
  destruct (existsb (text_eqb (np_str x)) (map np_str ar2));
    cbn [negb andb]; [exact IH|].
  split; discriminate.
Qed.

(** When no string of [ar2] ends in NUL, the mask of [np.in1d] on the
    elements of an array is plain membership in [ar2]. *)
Lemma in1d_plain ar2 x :
  (forall k, In k ar2 -> np_str k = k) ->
  np_str x = x ->
  existsb (text_eqb (np_str x)) (map np_str ar2) = existsb (text_eqb x) ar2.
Proof.
  intros H Hx. rewrite Hx. f_equal.
  induction ar2 as [|k ar2 IH]; [reflexivity|].
  cbn [map]. rewrite (H k) by now left.
  f_equal. apply IH. intros k' Hk'. apply H. now right.
Qed.

(** No element of the array that [np.unique] returns ends in NUL. *)
Lemma np_unique_str l x : In x (np_unique l) -> np_str x = x.
Proof.
  intros H. apply np_unique_in, in_map_iff in H.
  destruct H as (y & <- & _). apply np_str_idem.
Qed.

(** A string that does not end in NUL is stored as it is. *)
Lemma np_str_keeps s : ends_in_nul s = false -> np_str s = s.
Proof.
  unfold ends_in_nul, np_str. intros H.
  destruct (rev s) as [|c r] eqn:E.
  - cbn [drop_while]. rewrite <- E. apply rev_involutive.
  - cbn [drop_while]. unfold is_char. rewrite H, <- E.
    apply rev_involutive.
Qed.

Lemma np_str_keeps_all (l : list text) :
  forallb (fun k => negb (ends_in_nul k)) l = true -> map np_str l = l.
Proof.
  induction l as [|k l IH]; [reflexivity|].
  cbn [forallb map]. intros H. apply andb_true_iff in H.
  destruct H as [Hk Hl]. apply negb_true_iff in Hk.
  now rewrite np_str_keeps, IH.
Qed.

End Numpy.

Section BuildBibFacts.
Import Re ReFacts Citations Numpy.

Variable Bib : Type.
Variable key : Bib -> text.

Lemma record_of_sound k bibs b :
  record_of key k bibs = Some b -> In b bibs /\ key b = k.
Proof.
  unfold record_of. intros H. apply find_some in H.
  destruct H as [Hin E]. apply text_eqb_eq in E. auto.
Qed.

(** [bibs[db_keys.index(k)]] is the first record with key [k]. *)
Lemma index_record : forall bibs k,
  In k (map key bibs) ->
  exists i b,
    index k (map key bibs) = Some i /\ nth_error bibs i = Some b /\
    record_of key k bibs = Some b.
Proof.
  induction bibs as [|b0 bibs IH]; intros k Hin; [contradiction|].
  cbn [map index record_of find].
  destruct (text_eqb (key b0) k) eqn:E.
  - exists 0, b0. auto.
  - destruct Hin as [Hin|Hin].
    + apply text_eqb_eq in Hin. congruence.
    + destruct (IH k Hin) as (i & b & Hi & Hn & Hr).
      exists (S i), b. rewrite Hi. auto.
Qed.

(** The list comprehension over the found keys raises nothing and
    gives, key by key, the first record of each. *)
Lemma for_each_lookup bibs : forall ks,
  (forall k, In k ks -> In k (map key bibs)) ->
  exists bs,
    Forall2 (fun k b => record_of key k bibs = Some b) ks bs /\
    forall w : World Bib,
      for_each
        (fun k =>
           match index k (map key bibs) with
           | None => raise ValueError
           | Some i =>
               match nth_error bibs i with
               | None => raise IndexError
               | Some b => ret b
               end
           end) ks w = (Ok bs, w).
Proof.
  induction ks as [|k ks IH]; intros H.
  - exists []. split; [constructor|reflexivity].
  - destruct (index_record bibs k) as (i & b & Hi & Hn & Hr);
      [apply H; now left|].
    destruct IH as (bs & F & Hbs); [intros; apply H; now right|].
    exists (b :: bs). split; [now constructor|]. intros w.
    cbn [for_each]. unfold bind at 1. rewrite Hi, Hn.
    unfold ret at 1. unfold bind at 1. rewrite Hbs. reflexivity.
Qed.

Lemma lookup_keys bibs : forall ks bs,
  Forall2 (fun k b => record_of key k bibs = Some b) ks bs ->
  map key bs = ks /\ (forall b, In b bs -> In b bibs).
Proof.
  induction 1 as [|k b ks bs Hr F [IH1 IH2]]; [split; [reflexivity|]|].
  - intros b [].
  - apply record_of_sound in Hr. destruct Hr as [Hin Hk].
    split; [cbn [map]; congruence|].
    intros b' [<-|Hb]; auto.
Qed.

Lemma has_bibliography_call_complete : forall pre c post,
  not_char "}" c = true ->
  has_bibliography_call (pre ++ txt "\bibliography{" ++ c :: post) = true.
Proof.
  induction pre as [|a pre IH]; intros c post Hc.
  - cbn [app txt list_ascii_of_string has_bibliography_call].
    unfold bibliography_call_at.
    change ("\" :: "b" :: "i" :: "b" :: "l" :: "i" :: "o" :: "g" :: "r"
                :: "a" :: "p" :: "h" :: "y" :: "{" :: c :: post)%char
      with (txt "\bibliography{" ++ c :: post).
    rewrite strip_prefix_complete, Hc. reflexivity.
  - cbn [app has_bibliography_call]. rewrite IH by exact Hc.
    apply orb_true_r.
Qed.

(** Without a bibliography call in the text, [findall] finds
    nothing. *)
Lemma bibliography_findall_none t :
  has_bibliography_call t = false -> findall1 bibliography_re t = [].
Proof.
  intros Hno. unfold findall1. rewrite finditer_none; [reflexivity|].
  intros pre span post c -> M.
  cbv [bibliography_re seqs fold_right RPlus] in M.
  inv_matches.
  match goal with
  | H : not_char "}" ?a = true, H' : forallb (not_char "}") ?s = true |- _ =>
      pose proof (@has_bibliography_call_complete pre a (s ++ post) H) as Ht
  end.
  rewrite !app_nil_r in Hno. rewrite <- !app_assoc in Hno.
  cbn [app txt list_ascii_of_string] in Hno, Ht. congruence.
Qed.

(** A run of [build_bib] once the output name is known (given, or taken
    from the first bibliography call), for a database none of whose
    keys ends in NUL: it returns normally, prints the keys of the array
    [tex_keys] that are not keys of the database, when there are some,
    and exports, key by key, the first record of each of the others. *)
Lemma build_bib_run :
  forall (w : World Bib) texfile content bibfile name,
    lookup_file texfile (files w) = Some content ->
    bibfile = Some name \/
    (bibfile = None /\
     exists b rest,
       findall1 bibliography_re (no_comments content) = b :: rest /\
       name = strip b ++ txt ".bib") ->
    forallb (fun b => negb (ends_in_nul (key b))) (database w) = true ->
    let tex_keys := np_unique (citations (no_comments content)) in
    let db_keys := map key (database w) in
    let found := filter (fun x => existsb (text_eqb x) db_keys) tex_keys in
    let missing :=
      filter (fun x => negb (existsb (text_eqb x) db_keys)) tex_keys in
    exists bibs,
      build_bib key texfile bibfile w
      = (Ok tt,
         mkWorld (files w) (database w) ((bibs, name) :: exported w)
                 (match missing with
                  | [] => printed w
                  | _ => not_found_msg missing :: printed w
                  end)) /\
      Forall2 (fun k b => record_of key k (database w) = Some b) found bibs.
Proof.
  intros w texfile content bibfile name Hf Hname Hdb
         tex_keys db_keys found missing.
  assert (Hplain : forall x, In x tex_keys ->
             existsb (text_eqb (np_str x)) (map np_str db_keys)
             = existsb (text_eqb x) db_keys).
  { intros x Hx. apply in1d_plain.
    - intros k Hk. unfold db_keys in Hk. apply in_map_iff in Hk.
      destruct Hk as (b & <- & Hb). apply np_str_keeps.
      rewrite forallb_forall in Hdb. apply negb_true_iff. now apply Hdb.
    - now apply np_unique_str in Hx. }
  assert (Ef : filter (fun x => existsb (text_eqb (np_str x))
                                        (map np_str db_keys)) tex_keys
               = found).
  { apply filter_ext_in. exact Hplain. }
  assert (Em : filter (fun x => negb (existsb (text_eqb (np_str x))
                                              (map np_str db_keys))) tex_keys
               = missing).
  { apply filter_ext_in. intros x Hx. now rewrite Hplain. }
  destruct (@for_each_lookup (database w) found) as (bibs & F & Hfe).
  { intros k Hk. unfold found in Hk. apply filter_In in Hk.
    destruct Hk as [_ Hk]. now apply existsb_text_eqb in Hk. }
  exists bibs. split; [|exact F].
  unfold build_bib, bind at 1, read_file. rewrite Hf.
  assert (Hres : forall (k : text -> M Bib unit),
             bind (match bibfile with
                   | None =>
                       match findall1 bibliography_re (no_comments content)
                       with
                       | [] => raise (Exception no_bibliography_msg)
                       | b :: _ => ret (strip b ++ txt ".bib")
                       end
                   | Some b => ret b
                   end) k w = k name w).
  { intros k. destruct Hname as [->|(-> & b & rest & -> & ->)];
      reflexivity. }
  rewrite Hres. unfold bind at 1, bm_load.
  fold tex_keys. fold db_keys.
  rewrite np_mask_in1d, np_mask_not_in1d, Ef, Em.
  fold db_keys in Hfe.
  destruct (np_all (np_in1d tex_keys db_keys)) eqn:Eall.
  - apply np_all_in1d in Eall. rewrite Em in Eall.
    cbn [negb]. unfold bind at 1, ret at 1. unfold bind at 1.
    rewrite Hfe. rewrite Eall. reflexivity.
  - assert (Hm : missing <> []).
    { intros E. rewrite <- Em in E. apply np_all_in1d in E. congruence. }
    cbn [negb]. unfold bind at 1, print at 1. unfold bind at 1.
    cbn [files database exported printed].
    rewrite Hfe. unfold bm_export, not_found_msg.
    cbn [files database exported printed].
    destruct missing; [now elim Hm|reflexivity].
Qed.
End BuildBibFacts.

(** * The comment stripper *)

Section CommentStripper.
Import NoComments.

Lemma no_percent_no_marker : forall s a,
  forallb (not_char "%") s = true -> no_marker (a :: s) = true.
Proof.
  induction s as [|b s IH]; intros a H; [reflexivity|].
  cbn [forallb] in H. apply andb_true_iff in H. destruct H as [Hb Hs].
  change (no_marker (a :: b :: s))
    with (negb (not_char "\" a && is_char "%" b) && no_marker (b :: s)).
  rewrite IH by exact Hs. unfold not_char in Hb. unfold is_char.
  apply negb_true_iff in Hb. rewrite Hb, andb_false_r. reflexivity.
Qed.

(** C1, as stated, fails: on a text with a comment line the function
    does not return what removing exactly the comment gives. *)
Lemma no_comments_not_exact :
  let t := txt "a" ++ [LF] ++ txt "% c" ++ [LF] ++ txt "b" in
  no_comments t = txt "a" ++ [LF] ++ txt "b" /\
  strip_comments_spec false false t = txt "a" ++ [LF; LF] ++ txt "b" /\
  no_comments t <> strip_comments_spec false false t.
Proof.
  split; [reflexivity|]. split; [reflexivity|].
  intros H. vm_compute in H. discriminate H.
Qed.

(** C1 (amended): text in which no [%] follows a character other than a
    backslash is returned as it is; and where such a text [pre] is
    followed by a character [a] other than a backslash, a [%] and the
    rest [body] of the line, the function keeps [pre], removes the [%]
    and [body], and goes on at the line break that ends the line (or
    at the end of the text).  When [a] is the line break before a
    comment line it is removed with the comment. *)
Theorem no_comments_removes_comments : forall pre,
  no_marker pre = true ->
  no_comments pre = pre /\
  forall a body tail,
    no_marker (pre ++ [a]) = true ->
    not_char "\" a = true ->
    forallb any_char body = true ->
    tail = [] \/ (exists rest, tail = LF :: rest) ->
    exists kept,
      (kept = [] \/ kept = [a]) /\ (a = LF -> kept = []) /\
      no_comments (pre ++ a :: "%" :: body ++ tail)
      = pre ++ kept ++ no_comments tail.
Proof.
  intros pre Hpre. split.
  - rewrite no_comments_uncomment. now apply uncomment_no_marker.
  - intros a body tail Hm Ha Hbody Htail.
    exists []. split; [now left|]. split; [reflexivity|].
    rewrite !no_comments_uncomment.
    rewrite uncomment_keep_prefix by exact Hm.
    cbn [uncomment andb app]. rewrite Ha.
    change (is_char "%" "%") with true. cbn [andb].
    f_equal. apply (uncomment_span ("%" :: body)); [|exact Htail].
    cbn [forallb]. now rewrite Hbody.
Qed.

Lemma no_comments_removes_comments_witness :
  no_marker (txt "ab") = true /\
  no_comments (txt "ab") = txt "ab" /\
  exists kept,
    (kept = [] \/ kept = [LF]) /\ (LF = LF -> kept = []) /\
    no_comments (txt "ab" ++ LF :: "%" :: txt " c" ++ LF :: txt "d")
    = txt "ab" ++ kept ++ no_comments (LF :: txt "d").
Proof.
  split; [reflexivity|]. split.
  - apply (no_comments_removes_comments (txt "ab")). reflexivity.
  - apply (proj2 (no_comments_removes_comments (txt "ab") eq_refl)).
    + reflexivity.
    + reflexivity.
    + reflexivity.
    + right. exists (txt "d"). reflexivity.
Defined.

(** C2, as stated, fails: a comment line takes a line break with it. *)
Lemma no_comments_line_count_drops :
  let t := txt "a" ++ [LF] ++ txt "% c" ++ [LF] ++ txt "b" in
  count_nl t = 2 /\ count_nl (no_comments t) = 1 /\
  count_nl (no_comments t) <> count_nl t.
Proof.
  split; [reflexivity|]. split; [reflexivity|].
  intros H. vm_compute in H. discriminate H.
Qed.

(** C2 (amended): the line breaks of the output are those of the input
    that are not immediately followed by [%]: a comment that starts its
    line is removed with the line break before it, every other line
    break is kept. *)
Theorem no_comments_line_breaks : forall t,
  count_nl (no_comments t) + count_nl_percent t = count_nl t.
Proof.
  intros t. rewrite no_comments_uncomment. apply uncomment_count_nl.
Qed.

End CommentStripper.

(** * The citation extractor *)

Section CitationExtractor.
Import Re ReFacts Citations.

(** C4: a document that applies documented commands to single keys
    yields exactly one key per command, in order; a backslash followed
    by letters and stars that do not spell a documented command yields
    nothing (so the names are matched exactly, with their case); and
    the example of the documentation, which uses every family, yields
    its 27 keys. *)
Theorem citations_command_families :
  (forall calls,
      (forall c, In c calls ->
                 In (fst c) documented_commands /\ single_key (snd c) = true) ->
      citations (document calls) = map (fun c => strip (snd c)) calls) /\
  (forall name x tail,
      forallb is_name_char name = true ->
      ~ In name documented_commands ->
      is_name_char x = false ->
      forallb (not_char "\") (x :: tail) = true ->
      citations (txt "\" ++ name ++ x :: tail) = []) /\
  length documented_commands = 31 /\
  citations all_commands_example
  = map txt ["AuthorA"; "AuthorB"; "AuthorC"; "AuthorD"; "AuthorE";
             "AuthorF"; "AuthorG"; "AuthorH"; "AuthorI"; "AuthorJ";
             "AuthorK"; "AuthorL"; "AuthorM"; "AuthorN"; "AuthorO";
             "AuthorP"; "AuthorQ"; "AuthorR"; "AuthorS"; "AuthorT";
             "AuthorU"; "AuthorV"; "AuthorW"; "AuthorX"; "AuthorY";
             "AuthorZ"; "AuthorAA"]%string.
Proof.
  split; [|split; [|split; [reflexivity|vm_compute; reflexivity]]].
  - intros calls H. rewrite citations_unfold, findall3_document by exact H.
    clear - H. induction calls as [|[n k] calls IH]; [reflexivity|].
    cbn [map flat_map keys_of_match snd].
    destruct (H (n, k) (or_introl eq_refl)) as [_ Hk]. cbn [snd] in Hk.
    apply single_key_facts in Hk. destruct Hk as (_ & _ & Hc).
    rewrite citations_nil, split_single by exact Hc.
    cbn [map app]. f_equal. apply IH. intros c Hin. apply H. now right.
  - intros name x tail Hn Hnot Hx Ht.
    rewrite citations_unfold, findall3_undocumented; auto.
Qed.

Lemma citations_command_families_witness :
  citations (document [(txt "Citeyearpar*", txt " Smith2020 ");
                       (txt "nocite", txt "Jones1999")])
  = [txt "Smith2020"; txt "Jones1999"] /\
  citations (txt "\" ++ txt "Cite" ++ "{"%char :: txt "Smith2020}") = [].
Proof.
  split.
  - apply (proj1 citations_command_families
                 [(txt "Citeyearpar*", txt " Smith2020 ");
                  (txt "nocite", txt "Jones1999")]).
    intros c [<-|[<-|[]]]; split; try reflexivity;
      apply existsb_text_eqb; reflexivity.
  - apply (proj1 (proj2 citations_command_families)).
    + reflexivity.
    + intros H. apply existsb_text_eqb in H. discriminate H.
    + reflexivity.
    + reflexivity.
Defined.

(** C5, as stated, fails: in [\cite[a\]{K}] the first bracket argument
    is [[a\]]: its span ends at a closing bracket that is escaped. *)
Lemma bracket_ends_at_escaped_bracket :
  findall3 cite_re (txt "\cite[a\]{K}") = [(txt "[a\]", [], txt "K")] /\
  closing_escaped (txt "[a\]") = true /\
  ~ (forall t left_ right_ cites,
        In (left_, right_, cites) (findall3 cite_re t) ->
        closing_escaped left_ = false /\ closing_escaped right_ = false).
Proof.
  split; [reflexivity|]. split; [reflexivity|].
  intros H.
  destruct (H (txt "\cite[a\]{K}") (txt "[a\]") [] (txt "K")) as [E _].
  - left. reflexivity.
  - discriminate E.
Qed.

(** C5 (amended): a bracket argument of a match is a piece of the text
    that goes from an opening bracket to the next closing bracket,
    escaped or not: between the two there is no closing bracket at
    all. *)
Theorem bracket_span_to_next_bracket : forall t left_ right_ cites,
  In (left_, right_, cites) (findall3 cite_re t) ->
  (exists before after_, t = before ++ left_ ++ after_) /\
  (exists before after_, t = before ++ right_ ++ after_) /\
  (left_ = [] \/ bracket_span left_) /\
  (right_ = [] \/ bracket_span right_).
Proof.
  intros t l r c H. apply findall3_shape in H.
  destruct H as (pre & post & cmd & w1 & w2 & w3 & -> & _ & _ & _ & _
                 & B1 & B2 & _).
  split; [|split; [|split; assumption]].
  - exists (pre ++ txt "\" ++ cmd ++ w1),
      (w2 ++ r ++ w3 ++ txt "{" ++ c ++ post).
    now rewrite <- !app_assoc.
  - exists (pre ++ txt "\" ++ cmd ++ w1 ++ l ++ w2),
      (w3 ++ txt "{" ++ c ++ post).
    now rewrite <- !app_assoc.
Qed.

Lemma bracket_span_to_next_bracket_witness :
  In (txt "[a\]", txt "[b]", txt "K")
     (findall3 cite_re (txt "\cite[a\] [b]{K}")) /\
  (txt "[a\]" = [] \/ bracket_span (txt "[a\]")) /\
  (txt "[b]" = [] \/ bracket_span (txt "[b]")).
Proof.
  assert (H : In (txt "[a\]", txt "[b]", txt "K")
                 (findall3 cite_re (txt "\cite[a\] [b]{K}")))
    by (left; reflexivity).
  split; [exact H|].
  apply (bracket_span_to_next_bracket _ _ _ _ H).
Defined.

(** C6: with a depth bound above the length of the text the generator
    runs to its end, and yields the list [citations t]; the bracket
    arguments it recurses into are strictly shorter than the match they
    come from, which lies within the text; the brace argument is only
    split and trimmed. *)
Theorem citations_terminates : forall t n,
  length t < n ->
  citations_fuel n t = Some (citations t) /\
  citations t = flat_map (keys_of_match citations) (findall3 cite_re t) /\
  forall m, In m (finditer cite_re t) ->
    length (group 1 (m_caps m)) < m_len m /\
    length (group 2 (m_caps m)) < m_len m /\
    m_start m + m_len m <= length t.
Proof.
  intros t n Hn. split; [now apply citations_fuel_enough|].
  split; [apply citations_unfold|].
  intros m Hm. apply finditer_sound in Hm.
  destruct Hm as (pre & span & post & -> & Hs & Hl & M).
  apply cite_match_inv in M.
  destruct M as (cmd & w1 & g1 & w2 & g2 & w3 & body & -> & _ & _ & _ & _
                 & _ & _ & _ & _ & -> & -> & _).
  rewrite <- Hl, Hs. rewrite !length_app.
  cbn [length txt list_ascii_of_string]. lia.
Qed.

Lemma citations_terminates_witness :
  length (txt "\citep[see also \citealp{M}][]{N}") < 40 /\
  citations_fuel 40 (txt "\citep[see also \citealp{M}][]{N}")
  = Some (citations (txt "\citep[see also \citealp{M}][]{N}")).
Proof.
  assert (H : length (txt "\citep[see also \citealp{M}][]{N}") < 40)
    by (vm_compute; lia).
  split; [exact H|].
  apply (citations_terminates (txt "\citep[see also \citealp{M}][]{N}") H).
Defined.

(** C9: a documented command followed by an opening brace and
    characters none of which is a closing brace is matched up to the
    end of the text, and yields the trimmed pieces of what follows the
    brace; [\cite{A, B] yields [A] and [B]. *)
Theorem citations_without_closing_brace :
  (forall name body,
      In name documented_commands ->
      body <> [] ->
      forallb (not_char "}") body = true ->
      findall3 cite_re (txt "\" ++ name ++ txt "{" ++ body)
      = [([], [], body)] /\
      citations (txt "\" ++ name ++ txt "{" ++ body)
      = map strip (split "," body)) /\
  citations (txt "\cite{A, B") = [txt "A"; txt "B"].
Proof.
  split; [|reflexivity].
  intros name body Hn Hne Hb.
  assert (F : findall3 cite_re (txt "\" ++ name ++ txt "{" ++ body)
              = [([], [], body)]).
  { rewrite <- (app_nil_r body) at 1.
    rewrite findall3_call; auto. }
  split; [exact F|].
  rewrite citations_unfold, F.
  cbn [flat_map keys_of_match]. rewrite citations_nil.
  cbn [map app]. now rewrite app_nil_r.
Qed.

Lemma citations_without_closing_brace_witness :
  In (txt "Citet*") documented_commands /\
  citations (txt "\" ++ txt "Citet*" ++ txt "{" ++ txt "A, B")
  = map strip (split "," (txt "A, B")).
Proof.
  assert (H : In (txt "Citet*") documented_commands)
    by (apply existsb_text_eqb; reflexivity).
  split; [exact H|].
  apply (proj1 citations_without_closing_brace (txt "Citet*") (txt "A, B") H).
  - discriminate.
  - reflexivity.
Defined.
End CitationExtractor.

(** * The bibliography builder *)

Section BibliographyBuilder.
Import Re ReFacts Citations Numpy.

Variable Bib : Type.
Variable key : Bib -> text.

(** C7: without an output name and without a bibliography call in the
    text left by [no_comments], [build_bib] raises its exception and
    leaves everything as it was: nothing is exported, nothing is
    printed. *)
Theorem build_bib_no_bibliography :
  forall (w : World Bib) texfile content,
    lookup_file texfile (files w) = Some content ->
    has_bibliography_call (no_comments content) = false ->
    build_bib key texfile None w
    = (Raised (Exception no_bibliography_msg), w).
Proof.
  intros w texfile content Hf Hno.
  unfold build_bib, bind, read_file. rewrite Hf.
  rewrite bibliography_findall_none by exact Hno. reflexivity.
Qed.

End BibliographyBuilder.

Lemma build_bib_no_bibliography_witness :
  let doc := txt "See \cite{X}. % \bibliography{refs}" in
  let w := mkWorld [(txt "paper.tex", doc)] [(txt "X", txt "@book{X}")] [] [] in
  lookup_file (txt "paper.tex") (files w) = Some doc /\
  has_bibliography_call (no_comments doc) = false /\
  build_bib fst (txt "paper.tex") None w
  = (Raised (Exception no_bibliography_msg), w).
Proof.
  cbv zeta. split; [reflexivity|]. split; [reflexivity|].
  apply (@build_bib_no_bibliography _ fst _ (txt "paper.tex")
           (txt "See \cite{X}. % \bibliography{refs}")).
  - reflexivity.
  - reflexivity.
Defined.

(** C8: on keys that end in NUL, [build_bib] does not do what it is
    meant to do with unresolved keys.  The array that [np.unique]
    builds drops the trailing NUL of a key and [np.in1d] compares
    without it, whereas [db_keys.index] compares the keys as they are.
    For a document that cites the key [A] followed by NUL, with a
    database that has only [A], the extracted key is not a key of the
    database, yet nothing is printed and the record of [A] is exported.
    For a document that cites [A], with a database whose only key is
    [A] followed by NUL, [A] is not a key of the database, yet it is
    not reported: [build_bib] stops with [ValueError], and exports
    nothing. *)
Theorem build_bib_trailing_nul :
  (let doc := txt "\cite{A" ++ NUL :: txt "}" in
   let a := (txt "A", txt "@book{A}") in
   let w := mkWorld [(txt "paper.tex", doc)] [a] [] [] in
   citations (no_comments doc) = [txt "A" ++ [NUL]] /\
   ~ In (txt "A" ++ [NUL]) (map fst (database w)) /\
   build_bib fst (txt "paper.tex") (Some (txt "refs.bib")) w
   = (Ok tt,
      mkWorld [(txt "paper.tex", doc)] [a] [([a], txt "refs.bib")] [])) /\
  (let doc := txt "\cite{A}" in
   let a0 := (txt "A" ++ [NUL], txt "@book{A}") in
   let w := mkWorld [(txt "paper.tex", doc)] [a0] [] [] in
   citations (no_comments doc) = [txt "A"] /\
   ~ In (txt "A") (map fst (database w)) /\
   build_bib fst (txt "paper.tex") (Some (txt "refs.bib")) w
   = (Raised ValueError, w)).
Proof.
  split; cbv zeta.
  - split; [vm_compute; reflexivity|]. split; [|vm_compute; reflexivity].
    intros [H|[]]. discriminate H.
  - split; [vm_compute; reflexivity|]. split; [|vm_compute; reflexivity].
    intros [H|[]]. discriminate H.
Qed.

(** * Further properties of the comment stripper *)

Module NoCommentsMore.
Import NoComments.

Lemma not_any_char a : any_char a = false -> a = LF.
Proof.
  unfold any_char, not_char. intros H. apply negb_false_iff in H.
  now apply Ascii.eqb_eq in H.
Qed.

Lemma no_marker_cons x out :
  no_marker (x :: out) = pair_ok x out && no_marker out.
Proof. destruct out; reflexivity. Qed.

(** What comes out after a removed span starts with a line break. *)
Lemma uncomment_span_head : forall s,
  match uncomment true s with
  | [] => True
  | y :: _ => y = LF
  end.
Proof.
  induction s as [|a s IH]; [exact I|].
  cbn [uncomment andb]. destruct (any_char a) eqn:E; [exact IH|].
  apply not_any_char in E. subst a.
  destruct s as [|c s']; [reflexivity|].
  destruct (not_char "\" LF && is_char "%" c); [exact IH|reflexivity].
Qed.

Lemma uncomment_false_head c s :
  (exists r, uncomment false (c :: s) = c :: r) \/
  uncomment false (c :: s) = uncomment true s.
Proof.
  cbn [uncomment andb]. destruct s as [|d s']; [left; now exists []|].
  destruct (not_char "\" c && is_char "%" d); [now right|].
  left. eexists. reflexivity.
Qed.

Lemma uncomment_output_no_marker : forall s b,
  no_marker (uncomment b s) = true.
Proof.
  induction s as [|a s IH]; intros b; [reflexivity|].
  cbn [uncomment].
  destruct (b && any_char a); [apply IH|].
  destruct s as [|c s']; [reflexivity|].
  destruct (not_char "\" a && is_char "%" c) eqn:E; [apply IH|].
  rewrite no_marker_cons, IH, andb_true_r.
  destruct (uncomment_false_head c s') as [[r Hr]|Hr]; rewrite Hr.
  - cbn [pair_ok]. now rewrite E.
  - pose proof (uncomment_span_head s') as Hh.
    destruct (uncomment true s') as [|y r]; [reflexivity|].
    subst y. cbn [pair_ok]. change (is_char "%" LF) with false.
    now rewrite andb_false_r.
Qed.

Lemma uncomment_by_lines : forall l rest b,
  ~ (exists r, rest = "%"%char :: r) ->
  uncomment b (l ++ LF :: rest)
  = uncomment b l ++ LF :: uncomment false rest.
Proof.
  intros l rest b Hrest. revert b.
  assert (Hnil : forall b, uncomment b (LF :: rest)
                           = LF :: uncomment false rest).
  { intros b. cbn [uncomment]. change (any_char LF) with false.
    rewrite andb_false_r. destruct rest as [|c rest']; [reflexivity|].
    destruct (is_char "%" c) eqn:E.
    - unfold is_char in E. apply Ascii.eqb_eq in E. subst c.
      elim Hrest. now exists rest'.
    - now rewrite andb_false_r. }
  induction l as [|a l IH]; intros b; [apply Hnil|].
  cbn [app uncomment].
  destruct (b && any_char a); [apply IH|].
  destruct l as [|c l'].
  - cbn [app]. change (is_char "%" LF) with false.
    rewrite andb_false_r. now rewrite Hnil.
  - cbn [app]. destruct (not_char "\" a && is_char "%" c); [apply IH|].
    cbn [app]. f_equal. apply IH.
Qed.

Lemma uncomment_subsequence : forall s b, subsequence (uncomment b s) s.
Proof.
  induction s as [|a s IH]; intros b; [constructor|].
  cbn [uncomment].
  destruct (b && any_char a); [apply sub_drop, IH|].
  destruct s as [|c s'].
  - repeat constructor.
  - destruct (not_char "\" a && is_char "%" c).
    + apply sub_drop, IH.
    + apply sub_keep, IH.
Qed.

Lemma subsequence_length a b : subsequence a b -> length a <= length b.
Proof. induction 1; simpl; lia. Qed.

End NoCommentsMore.

Section LeadingPercent.
Import NoComments NoCommentsMore.

(** C10, as stated, fails: a [%] at the start of the text that is
    followed by another [%] is removed. *)
Lemma no_comments_leading_percent_removed :
  no_comments (txt "%%foo") = [] /\
  ~ (exists out, no_comments (txt "%%foo") = "%" :: out).
Proof.
  split; [reflexivity|].
  intros [out E]. vm_compute in E. discriminate E.
Qed.

(** C10 (amended): what becomes of a [%] at the start of the text
    depends on the character after it.  When that is another [%], the
    leading [%] is the character before a [%]: it is removed with the
    whole first line, the output is that of the text from the end of
    the first line on, and it does not start with [%].  In every other
    case the leading [%] is kept as the first character of the output
    and the rest is stripped as usual; and when the first line has no
    further [%], the whole first line is kept. *)
Theorem no_comments_leading_percent :
  (forall t,
      no_comments ("%" :: "%" :: t) = no_comments (drop_while any_char t) /\
      ~ (exists out, no_comments ("%" :: "%" :: t) = "%" :: out)) /\
  (forall rest,
      ~ (exists t, rest = "%" :: t) ->
      no_comments ("%" :: rest) = "%" :: no_comments rest /\
      forall body tail,
        rest = body ++ tail ->
        forallb (fun c => any_char c && not_char "%" c) body = true ->
        tail = [] \/ (exists r, tail = LF :: r) ->
        no_comments ("%" :: rest) = "%" :: body ++ no_comments tail).
Proof.
  split.
  - intros t.
    assert (E : no_comments ("%" :: "%" :: t) = uncomment true t).
    { rewrite no_comments_uncomment. reflexivity. }
    split.
    + rewrite E, no_comments_uncomment. apply uncomment_in_span.
    + rewrite E. intros [out Hout].
      pose proof (uncomment_span_head t) as Hh. rewrite Hout in Hh.
      discriminate Hh.
  - intros rest Hrest. split.
    + rewrite !no_comments_uncomment.
      destruct rest as [|c rest]; [reflexivity|].
      cbn [uncomment andb].
      destruct (Ascii.eqb c "%") eqn:E.
      * apply Ascii.eqb_eq in E. subst c. elim Hrest. now exists rest.
      * unfold is_char. rewrite E, andb_false_r. reflexivity.
    + intros body tail -> Hbody Htail.
      rewrite !no_comments_uncomment.
      change ("%" :: body ++ tail) with (("%" :: body) ++ tail).
      rewrite uncomment_keep_prefix; [reflexivity|].
      cbn [app]. apply no_percent_no_marker.
      rewrite forallb_app. apply andb_true_iff. split.
      * clear - Hbody. induction body as [|b body IH]; [reflexivity|].
        cbn [forallb] in *. apply andb_true_iff in Hbody.
        destruct Hbody as [Hb Hbody]. apply andb_true_iff in Hb.
        destruct Hb as [_ Hb]. rewrite Hb. now apply IH.
      * destruct Htail as [->|[r ->]]; reflexivity.
Qed.

Lemma no_comments_leading_percent_witness :
  ~ (exists t, txt " note" ++ LF :: txt "x" = "%" :: t) /\
  no_comments ("%" :: txt " note" ++ LF :: txt "x")
  = "%" :: txt " note" ++ no_comments (LF :: txt "x").
Proof.
  assert (H : ~ (exists t, txt " note" ++ LF :: txt "x" = "%" :: t)).
  { intros [t E]. vm_compute in E. discriminate E. }
  split; [exact H|].
  apply (proj2 (proj2 no_comments_leading_percent _ H)).
  - reflexivity.
  - reflexivity.
  - right. exists (txt "x"). reflexivity.
Defined.
End LeadingPercent.

(** * Further properties of the citation extractor *)

Module CitationsMore.
Import Re ReFacts Citations.

(** *** [strip] and [split] *)

Lemma drop_while_length p : forall s, length (drop_while p s) <= length s.
Proof.
  induction s as [|a s IH]; simpl; [lia|].
  destruct (p a); simpl; lia.
Qed.

Lemma drop_while_head p a s :
  drop_while p (a :: s) = a :: s -> p a = false.
Proof.
  cbn [drop_while]. destruct (p a); [|reflexivity].
  intros H. pose proof (drop_while_length p s) as L.
  rewrite H in L. simpl in L. lia.
Qed.

Lemma drop_while_idem p : forall s,
  drop_while p (drop_while p s) = drop_while p s.
Proof.
  induction s as [|a s IH]; [reflexivity|].
  cbn [drop_while]. destruct (p a) eqn:E; [exact IH|].
  cbn [drop_while]. now rewrite E.
Qed.

Lemma forallb_drop_while q p : forall s,
  forallb q s = true -> forallb q (drop_while p s) = true.
Proof.
  induction s as [|a s IH]; intros H; [reflexivity|].
  cbn [drop_while]. destruct (p a); [|exact H].
  cbn [forallb] in H. apply andb_true_iff in H. now apply IH.
Qed.

Lemma forallb_rev_true q : forall s : text,
  forallb q s = true -> forallb q (rev s) = true.
Proof.
  intros s H. rewrite forallb_forall in *. intros x Hx.
  apply H. now apply in_rev.
Qed.

Lemma rstrip_prefix s : exists w, s = rstrip s ++ w.
Proof.
  unfold rstrip. exists (rev (take_while is_space (rev s))).
  rewrite <- rev_app_distr, take_drop_while. now rewrite rev_involutive.
Qed.

Lemma rstrip_idem s : rstrip (rstrip s) = rstrip s.
Proof.
  unfold rstrip. now rewrite rev_involutive, drop_while_idem.
Qed.

Lemma strip_idem s : strip (strip s) = strip s.
Proof.
  unfold strip.
  assert (H : lstrip (rstrip (lstrip s)) = rstrip (lstrip s)).
  { destruct (rstrip_prefix (lstrip s)) as [w Hw].
    destruct (rstrip (lstrip s)) as [|a r] eqn:E; [reflexivity|].
    assert (Ha : is_space a = false).
    { apply drop_while_head with (s := r ++ w).
      change (a :: r ++ w) with ((a :: r) ++ w). rewrite <- Hw.
      apply drop_while_idem. }
    unfold lstrip at 1. cbn [drop_while]. now rewrite Ha. }
  rewrite H. apply rstrip_idem.
Qed.

Lemma forallb_strip q s : forallb q s = true -> forallb q (strip s) = true.
Proof.
  intros H. unfold strip, rstrip, lstrip.
  apply forallb_rev_true, forallb_drop_while, forallb_rev_true.
  now apply forallb_drop_while.
Qed.

Lemma split_pieces sep q : forall s piece,
  In piece (split sep s) ->
  forallb (not_char sep) piece = true /\
  (forallb q s = true -> forallb q piece = true).
Proof.
  induction s as [|a s IH]; intros piece Hin.
  - destruct Hin as [<-|[]]. split; reflexivity.
  - cbn [split] in Hin. destruct (Ascii.eqb a sep) eqn:E.
    + destruct Hin as [<-|Hin]; [split; reflexivity|].
      destruct (IH piece Hin) as [H1 H2]. split; [exact H1|].
      cbn [forallb]. intros H. apply andb_true_iff in H. now apply H2.
    + destruct (split sep s) as [|w ws] eqn:Es.
      * destruct Hin as [<-|[]]. cbn [forallb]. unfold not_char.
        rewrite E. split; [reflexivity|]. intros H.
        apply andb_true_iff in H. destruct H as [H _]. now rewrite H.
      * destruct Hin as [<-|Hin].
        -- destruct (IH w (or_introl eq_refl)) as [H1 H2].
           cbn [forallb]. unfold not_char at 1. rewrite E, H1.
           split; [reflexivity|]. intros H.
           apply andb_true_iff in H. destruct H as [Ha Hs].
           now rewrite Ha, H2.
        -- destruct (IH piece (or_intror Hin)) as [H1 H2].
           split; [exact H1|]. cbn [forallb]. intros H.
           apply andb_true_iff in H. now apply H2.
Qed.

(** *** Keys *)

Lemma citations_keys_ok : forall n t k,
  length t <= n ->
  In k (citations t) ->
  strip k = k /\ forallb (not_char "}") k = true /\
  forallb (not_char ",") k = true.
Proof.
  induction n as [n IH] using lt_wf_ind. intros t k Hn Hin.
  rewrite citations_unfold in Hin. apply in_flat_map in Hin.
  destruct Hin as ([[l r] c] & Hm & Hk).
  pose proof (findall3_shorter _ _ _ _ Hm) as [Hl Hr].
  apply findall3_shape in Hm.
  destruct Hm as (_ & _ & _ & _ & _ & _ & _ & _ & _ & _ & _ & _ & _ & _ & Hc).
  cbn [keys_of_match] in Hk.
  apply in_app_or in Hk. destruct Hk as [Hk|Hk];
    [|apply in_app_or in Hk; destruct Hk as [Hk|Hk]].
  - apply in_map_iff in Hk. destruct Hk as (k' & <- & Hk').
    destruct (IH (length l) ltac:(lia) l k' (le_n _) Hk') as (H1 & H2 & H3).
    rewrite H1. auto.
  - apply in_map_iff in Hk. destruct Hk as (k' & <- & Hk').
    destruct (IH (length r) ltac:(lia) r k' (le_n _) Hk') as (H1 & H2 & H3).
    rewrite H1. auto.
  - apply in_map_iff in Hk. destruct Hk as (piece & <- & Hp).
    destruct (split_pieces "," (not_char "}") _ _ Hp) as [H1 H2].
    split; [apply strip_idem|]. split; apply forallb_strip; auto.
Qed.

(** A text without a backslash has no match. *)
Lemma findall3_no_backslash t :
  forallb (not_char "\") t = true -> findall3 cite_re t = [].
Proof.
  intros H. unfold findall3. rewrite finditer_none; [reflexivity|].
  intros pre span post c -> M. apply cite_match_inv in M.
  destruct M as (cmd & w1 & g1 & w2 & g2 & w3 & body & -> & _).
  rewrite forallb_app in H. apply andb_true_iff in H. destruct H as [_ H].
  cbn [txt list_ascii_of_string app forallb] in H. discriminate H.
Qed.

(** *** Matching a command with optional arguments and blanks *)

Lemma non_name_star x : is_name_char x = false -> Ascii.eqb "*" x = false.
Proof.
  destruct x as [b0 b1 b2 b3 b4 b5 b6 b7].
  destruct b0, b1, b2, b3, b4, b5, b6, b7; vm_compute; intros H;
    try discriminate H; reflexivity.
Qed.

Lemma space_facts x :
  is_space x = true ->
  is_name_char x = false /\ Ascii.eqb "[" x = false.
Proof.
  destruct x as [b0 b1 b2 b3 b4 b5 b6 b7].
  destruct b0, b1, b2, b3, b4, b5, b6, b7; vm_compute; intros H;
    try discriminate H; split; reflexivity.
Qed.

Local Arguments Ascii.eqb !_ !_ / : simpl nomatch.

Lemma command_re_complete_gen (A : Type) (K : text -> caps -> option A)
      name x tail c r :
  In name documented_commands ->
  (forall a t c', is_name_char a = true -> K (a :: t) c' = None) ->
  is_name_char x = false ->
  K (x :: tail) c = Some r ->
  rmatch command_re (name ++ x :: tail) c K = Some r.
Proof.
  intros Hin Hfail Hx HK. apply non_name_star in Hx.
  cbv [documented_commands suffixes flat_map app txt list_ascii_of_string]
    in Hin.
  cbv [command_re alts seqs fold_right txt list_ascii_of_string].
  repeat (destruct Hin as [<-|Hin];
          [simpl; repeat (rewrite ?Hx; rewrite Hfail by reflexivity; simpl);
           rewrite ?Hx, HK; reflexivity|]).
  destruct Hin.
Qed.

Lemma brace_step (A : Type) (k : text -> caps -> option A) body rest c :
  body <> [] -> forallb (not_char "}") body = true ->
  rest = [] \/ (exists r, rest = "}"%char :: r) ->
  k rest ((3, body) :: c) <> None ->
  rmatch brace_re ("{" :: body ++ rest) c k = k rest ((3, body) :: c).
Proof.
  intros Hne Hbody Hrest Hk.
  destruct body as [|k0 body]; [now elim Hne|].
  cbn [forallb] in Hbody. apply andb_true_iff in Hbody.
  destruct Hbody as [Hk0 Hbody].
  cbv [brace_re RPlus txt list_ascii_of_string].
  cbn [rmatch strip_prefix app].
  change (Ascii.eqb "{" "{") with true. cbn iota. rewrite Hk0.
  assert (Hd : drop_while (not_char "}") (body ++ rest) = rest).
  { destruct Hrest as [->|[r ->]].
    - rewrite app_nil_r. now apply drop_while_all.
    - now apply drop_while_app. }
  assert (Hf : firstn (length (k0 :: body ++ rest) - length rest)
                      (k0 :: body ++ rest) = k0 :: body).
  { apply (firstn_length_app (k0 :: body) rest). }
  rewrite star_greedy; rewrite Hd, Hf; [reflexivity|exact Hk].
Qed.

Lemma space_step (A : Type) (k : text -> option A) ws x T :
  forallb is_space ws = true -> is_space x = false ->
  k (x :: T) <> None ->
  star is_space (ws ++ x :: T) k = k (x :: T).
Proof.
  intros Hws Hx Hk.
  rewrite star_greedy; rewrite drop_while_app by assumption;
    [reflexivity|exact Hk].
Qed.

Lemma bracket_step (A : Type) (k : text -> caps -> option A) i inner T c :
  forallb (not_char "]") inner = true ->
  k T ((i, txt "[" ++ inner ++ txt "]") :: c) <> None ->
  rmatch (bracket_group i) (txt "[" ++ inner ++ txt "]" ++ T) c k
  = k T ((i, txt "[" ++ inner ++ txt "]") :: c).
Proof.
  intros Hin Hk.
  cbv [bracket_group bracket_re seqs fold_right txt list_ascii_of_string].
  cbn [rmatch strip_prefix app].
  change (Ascii.eqb "[" "[") with true. cbn iota.
  assert (Hf : firstn (length ("[" :: inner ++ "]" :: T) - length T)
                      ("[" :: inner ++ "]" :: T) = "[" :: inner ++ ["]"]).
  { replace ("[" :: inner ++ "]" :: T) with (("[" :: inner ++ ["]"]) ++ T)
      by (cbn [app]; now rewrite <- app_assoc).
    apply firstn_length_app. }
  rewrite star_greedy; rewrite drop_while_app by (auto; reflexivity);
    cbn [strip_prefix]; change (Ascii.eqb "]" "]") with true; cbn iota;
    rewrite Hf.
  - destruct (k T ((i, "[" :: inner ++ ["]"]) :: c)) eqn:E; [reflexivity|].
    now elim Hk.
  - exact Hk.
Qed.

Lemma bracket_skip (A : Type) (k : text -> caps -> option A) i x T c :
  Ascii.eqb "[" x = false ->
  rmatch (bracket_group i) (x :: T) c k = k (x :: T) c.
Proof.
  intros Hx.
  cbv [bracket_group bracket_re seqs fold_right txt list_ascii_of_string].
  cbn [rmatch strip_prefix]. now rewrite Hx.
Qed.

Section ArgsMatch.
Variable A : Type.
Variable k : text -> caps -> option A.
Variables body rest : text.
Hypothesis Hne : body <> [].
Hypothesis Hbody : forallb (not_char "}") body = true.
Hypothesis Hrest : rest = [] \/ (exists r, rest = "}"%char :: r).
Hypothesis Hk : forall c, k rest c <> None.

Let tail_ : text := "{"%char :: body ++ rest.

Lemma rmatch_seq r1 r2 s c :
  rmatch (RSeq r1 r2) s c k = rmatch r1 s c (fun s' c' => rmatch r2 s' c' k).
Proof. reflexivity. Qed.

Lemma rmatch_seq_star p r2 s c :
  rmatch (RSeq (RStar p) r2) s c k = star p s (fun s' => rmatch r2 s' c k).
Proof. reflexivity. Qed.

Lemma blank_head ws :
  forallb is_space ws = true ->
  exists x T, ws ++ tail_ = x :: T /\ Ascii.eqb "[" x = false.
Proof.
  intros Hws. destruct ws as [|a ws].
  - exists "{"%char, (body ++ rest). split; reflexivity.
  - cbn [forallb] in Hws. apply andb_true_iff in Hws. destruct Hws as [Ha _].
    exists a, (ws ++ tail_). split; [reflexivity|].
    now apply space_facts in Ha.
Qed.

Lemma args_step4 ws c :
  forallb is_space ws = true ->
  rmatch (RSeq (RStar is_space) brace_re) (ws ++ tail_) c k
  = k rest ((3, body) :: c).
Proof.
  intros Hws. rewrite rmatch_seq_star. unfold tail_.
  rewrite space_step; try assumption; try reflexivity;
    rewrite brace_step by auto; auto.
Qed.

Lemma args_step3 o ws c :
  forallb is_space ws = true ->
  (forall inner, o = Some inner -> forallb (not_char "]") inner = true) ->
  rmatch (RSeq (bracket_group 2) (RSeq (RStar is_space) brace_re))
         (opt_bracket o ++ ws ++ tail_) c k
  = k rest ((3, body) :: bracket_caps 2 o c).
Proof.
  intros Hws Ho. rewrite rmatch_seq. destruct o as [inner|]; cbn [opt_bracket].
  - rewrite <- !app_assoc. rewrite bracket_step.
    + now apply args_step4.
    + now apply Ho.
    + rewrite args_step4 by assumption. apply Hk.
  - cbn [app bracket_caps].
    destruct (@blank_head ws Hws) as (x & T & E & Hx). rewrite E.
    rewrite bracket_skip by exact Hx. rewrite <- E.
    now apply args_step4.
Qed.

Lemma args_step2 ws2 o ws3 c :
  forallb is_space ws2 = true -> forallb is_space ws3 = true ->
  (forall inner, o = Some inner -> forallb (not_char "]") inner = true) ->
  rmatch (RSeq (RStar is_space)
            (RSeq (bracket_group 2) (RSeq (RStar is_space) brace_re)))
         (ws2 ++ opt_bracket o ++ ws3 ++ tail_) c k
  = k rest ((3, body) :: bracket_caps 2 o c).
Proof.
  intros H2 H3 Ho. rewrite rmatch_seq_star. destruct o as [inner|].
  - pose proof (@args_step3 (Some inner) ws3 c H3 Ho) as E.
    cbn [opt_bracket] in *. rewrite <- !app_assoc in *.
    cbn [txt list_ascii_of_string app] in *.
    rewrite space_step; try assumption; try reflexivity.
    rewrite E. apply Hk.
  - pose proof (@args_step3 None [] c eq_refl Ho) as E.
    cbn [opt_bracket app] in *. rewrite app_assoc. unfold tail_ in *.
    rewrite space_step;
      [exact E | rewrite forallb_app, H2, H3; reflexivity | reflexivity
       | cbv beta; rewrite E; apply Hk].
Qed.

Lemma args_step1 o1 ws2 o2 ws3 c :
  forallb is_space ws2 = true -> forallb is_space ws3 = true ->
  (o1 = None -> o2 = None) ->
  (forall inner, o1 = Some inner \/ o2 = Some inner ->
                 forallb (not_char "]") inner = true) ->
  rmatch (RSeq (bracket_group 1)
            (RSeq (RStar is_space)
               (RSeq (bracket_group 2) (RSeq (RStar is_space) brace_re))))
         (opt_bracket o1 ++ ws2 ++ opt_bracket o2 ++ ws3 ++ tail_) c k
  = k rest ((3, body) :: bracket_caps 2 o2 (bracket_caps 1 o1 c)).
Proof.
  intros H2 H3 Hopt Ho.
  assert (Ho2 : forall inner, o2 = Some inner ->
                              forallb (not_char "]") inner = true)
    by (intros; apply Ho; now right).
  rewrite rmatch_seq. destruct o1 as [inner|].
  - cbn [opt_bracket bracket_caps]. rewrite <- !app_assoc.
    rewrite bracket_step.
    + now apply args_step2.
    + apply Ho. now left.
    + rewrite args_step2 by assumption. apply Hk.
  - assert (o2 = None) by auto. subst o2.
    cbn [opt_bracket app bracket_caps].
    assert (H23 : forallb is_space (ws2 ++ ws3) = true)
      by (rewrite forallb_app, H2, H3; reflexivity).
    rewrite app_assoc.
    destruct (@blank_head (ws2 ++ ws3) H23) as (x & T & E & Hx). rewrite E.
    rewrite bracket_skip by exact Hx. rewrite <- E, <- app_assoc.
    apply (@args_step2 ws2 None ws3 c H2 H3 Ho2).
Qed.

Lemma args_match ws1 o1 ws2 o2 ws3 c :
  forallb is_space ws1 = true ->
  forallb is_space ws2 = true -> forallb is_space ws3 = true ->
  (o1 = None -> o2 = None) ->
  (forall inner, o1 = Some inner \/ o2 = Some inner ->
                 forallb (not_char "]") inner = true) ->
  rmatch args_re
         (ws1 ++ opt_bracket o1 ++ ws2 ++ opt_bracket o2 ++ ws3 ++ tail_) c k
  = k rest ((3, body) :: bracket_caps 2 o2 (bracket_caps 1 o1 c)).
Proof.
  intros H1 H2 H3 Hopt Ho.
  change args_re
    with (RSeq (RStar is_space)
            (RSeq (bracket_group 1)
               (RSeq (RStar is_space)
                  (RSeq (bracket_group 2) (RSeq (RStar is_space) brace_re))))).
  rewrite rmatch_seq_star. destruct o1 as [inner|].
  - pose proof (@args_step1 (Some inner) ws2 o2 ws3 c H2 H3 Hopt Ho) as E.
    cbn [opt_bracket] in *. rewrite <- !app_assoc in *.
    cbn [txt list_ascii_of_string app] in *.
    rewrite space_step; try assumption; try reflexivity.
    rewrite E. apply Hk.
  - assert (o2 = None) by auto. subst o2.
    pose proof (@args_step1 None [] None [] c eq_refl eq_refl Hopt Ho) as E.
    cbn [opt_bracket app] in *. rewrite !app_assoc. unfold tail_ in *.
    rewrite space_step;
      [exact E | rewrite !forallb_app, H1, H2, H3; reflexivity | reflexivity
       | cbv beta; rewrite E; apply Hk].
Qed.
End ArgsMatch.

Lemma opt_bracket_span o :
  (forall inner, o = Some inner -> forallb (not_char "]") inner = true) ->
  opt_bracket o = [] \/ bracket_span (opt_bracket o).
Proof.
  intros H. destruct o as [inner|]; [right|now left].
  exists inner. split; [reflexivity|]. now apply H.
Qed.

Section CallMatch.
Variables name ws1 ws2 ws3 body rest : text.
Variables o1 o2 : option text.
Hypothesis Hname : In name documented_commands.
Hypothesis H1 : forallb is_space ws1 = true.
Hypothesis H2 : forallb is_space ws2 = true.
Hypothesis H3 : forallb is_space ws3 = true.
Hypothesis Hopt : o1 = None -> o2 = None.
Hypothesis Ho : forall inner, o1 = Some inner \/ o2 = Some inner ->
                              forallb (not_char "]") inner = true.
Hypothesis Hne : body <> [].
Hypothesis Hbody : forallb (not_char "}") body = true.
Hypothesis Hrest : rest = [] \/ (exists r, rest = "}"%char :: r).

Let call_ : text :=
  txt "\" ++ name ++ ws1 ++ opt_bracket o1 ++ ws2 ++ opt_bracket o2 ++ ws3
  ++ txt "{" ++ body.

Lemma cite_match_args b :
  match_at b cite_re (call_ ++ rest)
  = Some (length call_, (3, body) :: bracket_caps 2 o2 (bracket_caps 1 o1 [])).
Proof.
  assert (Hn : length (call_ ++ rest) - length rest = length call_)
    by (rewrite length_app; lia).
  assert (Hl : Nat.eqb (length call_) 0 = false)
    by (unfold call_; cbn [txt list_ascii_of_string app length]; reflexivity).
  assert (B1 : opt_bracket o1 = [] \/ bracket_span (opt_bracket o1))
    by (apply opt_bracket_span; intros; apply Ho; now left).
  assert (B2 : opt_bracket o2 = [] \/ bracket_span (opt_bracket o2))
    by (apply opt_bracket_span; intros; apply Ho; now right).
  destruct (@args_start ws1 (opt_bracket o1) ws2 (opt_bracket o2) ws3
              (body ++ rest) H1 H2 H3 B1 B2) as (x & T & E & Hx).
  assert (Ecall : call_ ++ rest
                  = "\"%char :: name ++ ws1 ++ opt_bracket o1 ++ ws2
                    ++ opt_bracket o2 ++ ws3 ++ "{"%char :: body ++ rest).
  { unfold call_. cbn [txt list_ascii_of_string app].
    now rewrite <- !app_assoc. }
  unfold match_at. rewrite Ecall at 1.
  cbv [cite_re seqs fold_right].
  cbn [rmatch txt list_ascii_of_string app strip_prefix].
  change (Ascii.eqb "\" "\") with true. cbn iota.
  cbn [txt list_ascii_of_string app] in E.
  rewrite E. apply command_re_complete_gen; [exact Hname| |exact Hx|].
  - intros a t c' Ha. now apply args_fail.
  - rewrite <- E.
    rewrite (@args_match _ _ body rest Hne Hbody Hrest).
    + cbv zeta. rewrite Hn, Hl, andb_false_r. reflexivity.
    + intros c. cbv zeta. rewrite Hn, Hl, andb_false_r. discriminate.
    + exact H1.
    + exact H2.
    + exact H3.
    + exact Hopt.
    + exact Ho.
Qed.

Lemma findall3_call_args :
  findall3 cite_re (call_ ++ rest)
  = (opt_bracket o1, opt_bracket o2, body) :: findall3 cite_re rest.
Proof.
  pose proof (cite_match_args false) as Hm.
  rewrite !findall3_caps.
  assert (Hl : exists n, length call_ = S n).
  { unfold call_. cbn [txt list_ascii_of_string app length]. eauto. }
  destruct Hl as [n Hl]. rewrite Hl in Hm.
  rewrite (@finditer_caps_match _ _ _ _ _ Hm Hl). cbn [map]. f_equal.
  destruct o1, o2; reflexivity.
Qed.
End CallMatch.

(** *** Every match is a call of the text *)

Lemma well_formed_call_iff name ws1 o1 ws2 o2 ws3 body :
  well_formed_call name ws1 o1 ws2 o2 ws3 body = true <->
  (In name documented_commands /\
   forallb is_space ws1 = true /\ forallb is_space ws2 = true /\
   forallb is_space ws3 = true /\
   (o1 = None -> o2 = None) /\
   (forall inner, o1 = Some inner \/ o2 = Some inner ->
                  forallb (not_char "]") inner = true) /\
   body <> [] /\ forallb (not_char "}") body = true).
Proof.
  unfold well_formed_call. rewrite !andb_true_iff, existsb_text_eqb.
  split.
  - intros ((((((((Hn & H1) & H2) & H3) & Ho) & Hi1) & Hi2) & Hb) & Hb').
    split; [exact Hn|]. split; [exact H1|]. split; [exact H2|].
    split; [exact H3|]. split; [|split; [|split; [|exact Hb']]].
    + intros ->. destruct o2; [discriminate Ho|reflexivity].
    + intros inner [->| ->]; assumption.
    + intros ->. discriminate Hb.
  - intros (Hn & H1 & H2 & H3 & Ho & Hi & Hb & Hb').
    repeat (split; [|try assumption]); try assumption.
    + destruct o1 as [i|]; [now destruct o2|]. now rewrite (Ho eq_refl).
    + destruct o1 as [i|]; [apply Hi; now left|reflexivity].
    + destruct o2 as [i|]; [apply Hi; now right|reflexivity].
    + destruct body; [now elim Hb|reflexivity].
Qed.

Lemma after_brace_iff rest :
  after_brace rest = true <-> rest = [] \/ (exists r, rest = "}"%char :: r).
Proof.
  unfold after_brace. destruct rest as [|c r].
  - split; [now left|reflexivity].
  - split.
    + intros H. apply Ascii.eqb_eq in H. subst c. right. now exists r.
    + intros [H|[r' H]]; [discriminate H|]. inversion H; subst. reflexivity.
Qed.

Lemma bracket_opt g :
  g = [] \/ bracket_span g ->
  exists o, g = opt_bracket o /\
            (forall inner, o = Some inner ->
                           forallb (not_char "]") inner = true).
Proof.
  intros [->|(inner & -> & H)].
  - exists None. split; [reflexivity|]. discriminate.
  - exists (Some inner). split; [reflexivity|].
    intros i E. inversion E; subst. exact H.
Qed.

Lemma drop_while_stop p s :
  drop_while p s = [] \/ exists x r, drop_while p s = x :: r /\ p x = false.
Proof.
  destruct (drop_while p s) as [|x r] eqn:E; [now left|right].
  exists x, r. split; [reflexivity|].
  apply drop_while_head with (s := r). rewrite <- E. apply drop_while_idem.
Qed.

(** Where the pattern matches, the text starts with a well-formed call,
    the match is that call, and its groups are the arguments of the
    call. *)
Lemma cite_match_call b s n c :
  match_at b cite_re s = Some (n, c) ->
  exists name ws1 o1 ws2 o2 ws3 body rest,
    s = call_text name ws1 o1 ws2 o2 ws3 body ++ rest /\
    well_formed_call name ws1 o1 ws2 o2 ws3 body = true /\
    after_brace rest = true /\
    n = length (call_text name ws1 o1 ws2 o2 ws3 body) /\
    (group 1 c, group 2 c, group 3 c) = (opt_bracket o1, opt_bracket o2, body).
Proof.
  intros H. pose proof H as H0. apply match_at_sound in H0.
  destruct H0 as (span & post & -> & _ & M).
  apply cite_match_inv in M.
  destruct M as (cmd & w1 & g1 & w2 & g2 & w3 & body' & -> & Hc & W1 & W2
                 & W3 & B1 & B2 & Hne & Hb & _).
  apply bracket_opt in B1, B2.
  destruct B1 as (p1 & -> & P1). destruct B2 as (p2 & -> & P2).
  assert (Hcanon : exists ws1 o1 ws2 o2 ws3,
             w1 ++ opt_bracket p1 ++ w2 ++ opt_bracket p2 ++ w3
             = ws1 ++ opt_bracket o1 ++ ws2 ++ opt_bracket o2 ++ ws3 /\
             forallb is_space ws1 = true /\ forallb is_space ws2 = true /\
             forallb is_space ws3 = true /\
             (o1 = None -> o2 = None) /\
             (forall inner, o1 = Some inner \/ o2 = Some inner ->
                            forallb (not_char "]") inner = true)).
  { destruct p1 as [i1|].
    - exists w1, (Some i1), w2, p2, w3. split; [reflexivity|].
      split; [exact W1|]. split; [exact W2|]. split; [exact W3|].
      split; [discriminate|].
      intros inner [E|E]; [now apply P1|now apply P2].
    - destruct p2 as [i2|].
      + exists (w1 ++ w2), (Some i2), w3, None, []. split.
        { cbn [opt_bracket app]. rewrite app_nil_r.
          now rewrite <- (app_assoc w1 w2). }
        split; [rewrite forallb_app, W1, W2; reflexivity|].
        split; [exact W3|]. split; [reflexivity|]. split; [reflexivity|].
        intros inner [E|E]; [now apply P2|discriminate E].
      + exists w1, None, w2, None, w3. split; [reflexivity|].
        split; [exact W1|]. split; [exact W2|]. split; [exact W3|].
        split; [reflexivity|]. intros inner [E|E]; discriminate E. }
  destruct Hcanon as (ws1 & o1 & ws2 & o2 & ws3 & Eq & H1 & H2 & H3 & Hopt & Ho).
  assert (EqX : forall X,
             w1 ++ opt_bracket p1 ++ w2 ++ opt_bracket p2 ++ w3 ++ X
             = ws1 ++ opt_bracket o1 ++ ws2 ++ opt_bracket o2 ++ ws3 ++ X).
  { intros X.
    transitivity ((w1 ++ opt_bracket p1 ++ w2 ++ opt_bracket p2 ++ w3) ++ X);
      [now rewrite <- !app_assoc|].
    rewrite Eq. now rewrite <- !app_assoc. }
  set (body := body' ++ take_while (not_char "}") post).
  set (rest := drop_while (not_char "}") post).
  assert (Hrest : rest = [] \/ (exists r, rest = "}"%char :: r)).
  { unfold rest.
    destruct (drop_while_stop (not_char "}") post) as [E|(x & r & E & Hx)];
      rewrite E; [now left|right].
    exists r. f_equal. unfold not_char in Hx. apply negb_false_iff in Hx.
    now apply Ascii.eqb_eq in Hx. }
  assert (HneB : body <> []).
  { unfold body. destruct body'; [now elim Hne|discriminate]. }
  assert (HbB : forallb (not_char "}") body = true).
  { unfold body. now rewrite forallb_app, Hb, take_while_all. }
  assert (Etext : (txt "\" ++ cmd ++ w1 ++ opt_bracket p1 ++ w2
                   ++ opt_bracket p2 ++ w3 ++ txt "{" ++ body') ++ post
                  = call_text cmd ws1 o1 ws2 o2 ws3 body ++ rest).
  { unfold call_text, body, rest. rewrite <- !app_assoc. rewrite EqX.
    now rewrite take_drop_while. }
  rewrite Etext in H.
  pose proof (@cite_match_args cmd ws1 ws2 ws3 body rest o1 o2
                Hc H1 H2 H3 Hopt Ho HneB HbB Hrest b) as Hm.
  cbv zeta in Hm. fold (call_text cmd ws1 o1 ws2 o2 ws3 body) in Hm.
  rewrite Hm in H. inversion H; subst n c; clear H.
  exists cmd, ws1, o1, ws2, o2, ws3, body, rest.
  split; [exact Etext|]. split.
  { apply well_formed_call_iff. repeat (split; [assumption|]). assumption. }
  split; [now apply after_brace_iff|]. split; [reflexivity|].
  destruct o1, o2; reflexivity.
Qed.

(** Every match that [finditer] reports is a call of the text. *)
Lemma finditer_call t m : In m (finditer cite_re t) -> match_is_call t m.
Proof.
  intros H. apply finditer_match in H.
  destruct H as (pre & rest0 & b & -> & Hs & Hm).
  apply cite_match_call in Hm.
  destruct Hm as (name & ws1 & o1 & ws2 & o2 & ws3 & body & rest & ->
                  & Hw & Hr & Hn & Hg).
  exists pre, name, ws1, o1, ws2, o2, ws3, body, rest.
  split; [reflexivity|]. split; [exact Hw|]. split; [exact Hr|].
  split; [exact Hs|]. split; [exact Hn|exact Hg].
Qed.

(** A call of the text is reported by [finditer], unless it starts
    inside a match reported before. *)
Lemma finditer_call_complete pre name ws1 o1 ws2 o2 ws3 body rest :
  well_formed_call name ws1 o1 ws2 o2 ws3 body = true ->
  after_brace rest = true ->
  (exists m,
      In m (finditer cite_re
              (pre ++ call_text name ws1 o1 ws2 o2 ws3 body ++ rest)) /\
      m_start m = length pre /\
      m_len m = length (call_text name ws1 o1 ws2 o2 ws3 body) /\
      groups3 m = (opt_bracket o1, opt_bracket o2, body)) \/
  (exists m,
      In m (finditer cite_re
              (pre ++ call_text name ws1 o1 ws2 o2 ws3 body ++ rest)) /\
      m_start m < length pre /\ length pre < m_start m + m_len m).
Proof.
  intros Hw Hr. apply well_formed_call_iff in Hw.
  destruct Hw as (Hc & H1 & H2 & H3 & Hopt & Ho & Hne & Hb).
  apply after_brace_iff in Hr.
  pose proof (@cite_match_args name ws1 ws2 ws3 body rest o1 o2
                Hc H1 H2 H3 Hopt Ho Hne Hb Hr false) as Hm.
  cbv zeta in Hm. fold (call_text name ws1 o1 ws2 o2 ws3 body) in Hm.
  assert (Hl : exists n, length (call_text name ws1 o1 ws2 o2 ws3 body) = S n).
  { unfold call_text. cbn [txt list_ascii_of_string app length]. eauto. }
  destruct Hl as [n Hl]. rewrite Hl in *.
  destruct (@finditer_complete cite_re pre _ n _ Hm) as [H|H].
  - left. eexists. split; [exact H|]. cbn [m_start m_len].
    split; [reflexivity|]. split; [reflexivity|].
    unfold groups3. cbn [m_caps]. destruct o1, o2; reflexivity.
  - right. exact H.
Qed.

(** *** What [strip] and [split] do *)

Lemma lstrip_strip s : lstrip (strip s) = strip s.
Proof.
  unfold strip.
  destruct (rstrip_prefix (lstrip s)) as [w Hw].
  destruct (rstrip (lstrip s)) as [|a r] eqn:E; [reflexivity|].
  assert (Ha : is_space a = false).
  { apply drop_while_head with (s := r ++ w).
    change (a :: r ++ w) with ((a :: r) ++ w). rewrite <- Hw.
    apply drop_while_idem. }
  unfold lstrip at 1. cbn [drop_while]. now rewrite Ha.
Qed.

(** [strip] removes blanks from both ends, and all of them. *)
Lemma strip_spec s :
  exists lead trail,
    s = lead ++ strip s ++ trail /\
    forallb is_space lead = true /\ forallb is_space trail = true /\
    no_blank_ends (strip s) = true.
Proof.
  exists (take_while is_space s),
         (rev (take_while is_space (rev (lstrip s)))).
  split; [|split; [|split]].
  - unfold strip, rstrip.
    rewrite <- rev_app_distr, take_drop_while, rev_involutive.
    unfold lstrip. now rewrite take_drop_while.
  - apply take_while_all.
  - apply forallb_rev_true, take_while_all.
  - unfold no_blank_ends. apply andb_true_iff. split.
    + pose proof (lstrip_strip s) as H.
      destruct (strip s) as [|c k]; [reflexivity|].
      unfold lstrip in H. apply drop_while_head in H. now rewrite H.
    + unfold strip, rstrip. rewrite rev_involutive.
      destruct (drop_while_stop is_space (rev (lstrip s)))
        as [E|(x & r & E & Hx)]; rewrite E; [reflexivity|].
      now rewrite Hx.
Qed.

Lemma split_not_nil sep : forall s, split sep s <> [].
Proof.
  destruct s as [|a s]; cbn [split]; [discriminate|].
  destruct (Ascii.eqb a sep); [discriminate|].
  destruct (split sep s); discriminate.
Qed.

(** [split] cuts at every separator: joining the pieces with the
    separator gives the text back. *)
Lemma join_split sep : forall s, join [sep] (split sep s) = s.
Proof.
  induction s as [|a s IH]; [reflexivity|].
  cbn [split]. pose proof (split_not_nil sep s) as Hn.
  destruct (Ascii.eqb a sep) eqn:E.
  - apply Ascii.eqb_eq in E. subst a.
    destruct (split sep s) as [|w ws]; [now elim Hn|].
    change (join [sep] ([] :: w :: ws))
      with ([] ++ [sep] ++ join [sep] (w :: ws)).
    now rewrite IH.
  - destruct (split sep s) as [|w ws]; [now elim Hn|].
    destruct ws as [|w' ws].
    + cbn [join] in *. now rewrite IH.
    + change (join [sep] ((a :: w) :: w' :: ws))
        with (a :: (w ++ [sep] ++ join [sep] (w' :: ws))).
      change (join [sep] (w :: w' :: ws))
        with (w ++ [sep] ++ join [sep] (w' :: ws)) in IH.
      now rewrite IH.
Qed.

Lemma split_no_sep sep s :
  Forall (fun piece => forallb (not_char sep) piece = true) (split sep s).
Proof.
  apply Forall_forall. intros piece Hin.
  now destruct (split_pieces sep (fun _ => true) s piece Hin).
Qed.

End CitationsMore.

Section CitationOrder.
Import Re ReFacts Citations CitationsMore.

Lemma flat_map_map (A B C : Type) (g : A -> B) (f : B -> list C) : forall l,
  flat_map f (map g l) = flat_map (fun x => f (g x)) l.
Proof.
  induction l as [|x l IH]; [reflexivity|].
  cbn [map flat_map]. now rewrite IH.
Qed.

(** C3: the keys come match by match, in the order of the matches in
    the text: one match gives the keys found in its first group, then
    those found in its second group, then the trimmed pieces of its
    third group cut at the commas.  The matches are the calls of the
    text, from left to right: they are sorted by offset and do not
    overlap; each of them is a well-formed call of the text, at the
    offset and of the length reported, whose groups are the first
    bracket argument, the second bracket argument and the brace
    content; and every well-formed call of the text is reported, unless
    it starts inside a match reported before.  Trimming removes the
    blanks at both ends of a piece and all of them; cutting at the
    commas loses nothing, and no piece holds a comma.  On
    [\citep[see also \citealp{M}][]{N}] the keys are [M] then [N]. *)
Theorem citations_order :
  (forall t,
      citations t
      = flat_map
          (fun m =>
             map strip (citations (group 1 (m_caps m)))
             ++ map strip (citations (group 2 (m_caps m)))
             ++ map strip (split "," (group 3 (m_caps m))))
          (finditer cite_re t) /\
      StronglySorted before (finditer cite_re t) /\
      (forall m, In m (finditer cite_re t) -> match_is_call t m)) /\
  (forall pre name ws1 o1 ws2 o2 ws3 body rest,
      well_formed_call name ws1 o1 ws2 o2 ws3 body = true ->
      after_brace rest = true ->
      let call := call_text name ws1 o1 ws2 o2 ws3 body in
      let t := pre ++ call ++ rest in
      (exists m,
          In m (finditer cite_re t) /\
          m_start m = length pre /\ m_len m = length call /\
          groups3 m = (opt_bracket o1, opt_bracket o2, body)) \/
      (exists m,
          In m (finditer cite_re t) /\
          m_start m < length pre /\ length pre < m_start m + m_len m)) /\
  (forall s,
      exists lead trail,
        s = lead ++ strip s ++ trail /\
        forallb is_space lead = true /\ forallb is_space trail = true /\
        no_blank_ends (strip s) = true) /\
  (forall s,
      join [","%char] (split "," s) = s /\
      Forall (fun piece => forallb (not_char ",") piece = true)
             (split "," s)) /\
  citations (txt "\citep[see also \citealp{M}][]{N}") = [txt "M"; txt "N"] /\
  citations
    (txt "\citep[see \citet{ P }][and \citealp{Q,R}]{ A , B} or \cite{C}")
  = map txt ["P"; "Q"; "R"; "A"; "B"; "C"]%string.
Proof.
  split; [|split; [|split; [|split; [|split]]]].
  - intros t. split; [|split].
    + rewrite citations_unfold. unfold findall3. apply flat_map_map.
    + apply finditer_sorted.
    + intros m. apply finditer_call.
  - intros pre name ws1 o1 ws2 o2 ws3 body rest Hw Hr call t.
    now apply finditer_call_complete.
  - apply strip_spec.
  - intros s. split; [apply join_split|apply split_no_sep].
  - vm_compute. reflexivity.
  - vm_compute. reflexivity.
Qed.

Lemma citations_order_witness :
  let pre := txt "See " in
  let call := call_text (txt "citep") [] (Some (txt "e.g.")) (txt " ") None []
                        (txt "A, B") in
  let rest := txt "}." in
  well_formed_call (txt "citep") [] (Some (txt "e.g.")) (txt " ") None []
                   (txt "A, B") = true /\
  after_brace rest = true /\
  ((exists m,
       In m (finditer cite_re (pre ++ call ++ rest)) /\
       m_start m = length pre /\ m_len m = length call /\
       groups3 m = (opt_bracket (Some (txt "e.g.")), opt_bracket None,
                    txt "A, B")) \/
   (exists m,
       In m (finditer cite_re (pre ++ call ++ rest)) /\
       m_start m < length pre /\ length pre < m_start m + m_len m)).
Proof.
  cbv zeta. split; [reflexivity|]. split; [reflexivity|].
  apply (proj1 (proj2 citations_order) (txt "See ") (txt "citep") []
           (Some (txt "e.g.")) (txt " ") None [] (txt "A, B") (txt "}.")).
  - reflexivity.
  - reflexivity.
Defined.
End CitationOrder.

(** * Further properties of the bibliography builder *)

Module NumpyMore.
Import Citations Numpy.

Lemma text_compare_antisym : forall a b,
  text_compare b a = CompOpp (text_compare a b).
Proof.
  induction a as [|x a IH]; destruct b as [|y b]; try reflexivity.
  cbn [text_compare]. rewrite (Nat.compare_antisym (nat_of_ascii x)).
  destruct (Nat.compare (nat_of_ascii x) (nat_of_ascii y)); cbn [CompOpp];
    [apply IH|reflexivity|reflexivity].
Qed.

Lemma text_lt_trans : forall a b c,
  text_lt a b -> text_lt b c -> text_lt a c.
Proof.
  unfold text_lt.
  induction a as [|x a IH]; intros [|y b] [|z c]; cbn [text_compare];
    try discriminate; try reflexivity.
  destruct (Nat.compare_spec (nat_of_ascii x) (nat_of_ascii y)) as [E1|L1|G1];
    try discriminate;
    destruct (Nat.compare_spec (nat_of_ascii y) (nat_of_ascii z)) as [E2|L2|G2];
    try discriminate; intros H1 H2.
  - rewrite E1, E2, Nat.compare_refl. eapply IH; eassumption.
  - rewrite E1. now apply Nat.compare_lt_iff in L2 as ->.
  - rewrite <- E2. now apply Nat.compare_lt_iff in L1 as ->.
  - assert (L : nat_of_ascii x < nat_of_ascii z) by lia.
    now apply Nat.compare_lt_iff in L as ->.
Qed.

Lemma insert_unique_sorted x : forall l,
  StronglySorted text_lt l -> StronglySorted text_lt (insert_unique x l).
Proof.
  induction l as [|y l IH]; intros Hs; cbn [insert_unique].
  - repeat constructor.
  - inversion Hs as [|? ? Hs' Hy]; subst.
    destruct (text_compare x y) eqn:E.
    + exact Hs.
    + constructor; [exact Hs|]. constructor; [exact E|].
      eapply Forall_impl; [|exact Hy]. intros z Hz.
      eapply text_lt_trans; eassumption.
    + constructor; [now apply IH|].
      apply Forall_forall. intros z Hz. apply insert_unique_in in Hz.
      destruct Hz as [->|Hz].
      * unfold text_lt. rewrite text_compare_antisym, E. reflexivity.
      * rewrite Forall_forall in Hy. now apply Hy.
Qed.

(** [np.unique] gives its elements in strictly increasing order. *)
Lemma np_unique_sorted : forall l, StronglySorted text_lt (np_unique l).
Proof.
  induction l as [|x l IH]; [constructor|].
  cbn [np_unique fold_right]. now apply insert_unique_sorted.
Qed.

Lemma filter_sorted (p : text -> bool) : forall l,
  StronglySorted text_lt l -> StronglySorted text_lt (filter p l).
Proof.
  induction l as [|x l IH]; intros Hs; [constructor|].
  inversion Hs as [|? ? Hs' Hx]; subst. cbn [filter].
  destruct (p x); [|now apply IH].
  constructor; [now apply IH|].
  apply Forall_forall. intros z Hz. apply filter_In in Hz.
  rewrite Forall_forall in Hx. now apply Hx.
Qed.

End NumpyMore.

Section BuildBibMore.
Import Re ReFacts Citations Numpy NumpyMore.

Variable Bib : Type.
Variable key : Bib -> text.

(** *** The first bibliography call *)

Lemma bibliography_no_match a s :
  Ascii.eqb "\" a = false -> match_at false bibliography_re (a :: s) = None.
Proof.
  intros H. unfold match_at. cbv [bibliography_re seqs fold_right].
  cbn [rmatch txt list_ascii_of_string strip_prefix]. now rewrite H.
Qed.

Lemma bibliography_match arg rest :
  arg <> [] -> forallb (not_char "}") arg = true ->
  rest = [] \/ (exists r, rest = "}"%char :: r) ->
  match_at false bibliography_re ((txt "\bibliography{" ++ arg) ++ rest)
  = Some (length (txt "\bibliography{" ++ arg), [(1, arg)]).
Proof.
  intros Hne Harg Hrest.
  destruct arg as [|k0 arg]; [now elim Hne|].
  cbn [forallb] in Harg. apply andb_true_iff in Harg.
  destruct Harg as [Hk0 Harg].
  unfold match_at. cbv [bibliography_re seqs fold_right RPlus].
  rewrite <- app_assoc.
  cbn [rmatch]. rewrite strip_prefix_complete.
  cbn [app rmatch]. rewrite Hk0.
  assert (Hd : drop_while (not_char "}") (arg ++ rest) = rest).
  { destruct Hrest as [->|[r ->]].
    - rewrite app_nil_r. now apply drop_while_all.
    - now apply drop_while_app. }
  assert (Hf : firstn (length (k0 :: arg ++ rest) - length rest)
                      (k0 :: arg ++ rest) = k0 :: arg).
  { apply (firstn_length_app (k0 :: arg) rest). }
  rewrite star_greedy; rewrite Hd, Hf.
  - cbn [andb]. do 2 f_equal.
    change (txt "\bibliography{" ++ (k0 :: arg) ++ rest)
      with (txt "\bibliography{" ++ k0 :: arg ++ rest).
    rewrite !length_app. cbn [length]. rewrite length_app. lia.
  - discriminate.
Qed.

Lemma findall1_caps r t :
  findall1 r t = map (group 1) (map m_caps (finditer r t)).
Proof. unfold findall1. now rewrite map_map. Qed.

Lemma strip_prefix_app_some : forall w p s r,
  strip_prefix w p = Some r -> strip_prefix w (p ++ s) = Some (r ++ s).
Proof.
  induction w as [|x w IH]; intros p s r H.
  - cbn [strip_prefix] in *. now inversion H.
  - destruct p as [|y p]; [discriminate|]. cbn [strip_prefix app] in *.
    destruct (Ascii.eqb x y); [now apply IH|discriminate].
Qed.

(** A word found at the start of [p ++ s] lies within [p], or [p] is
    the start of the word and the rest of the word, which is not empty,
    is found at the start of [s]. *)
Lemma strip_prefix_straddle : forall w p s t,
  strip_prefix w (p ++ s) = Some t ->
  (exists r, strip_prefix w p = Some r /\ t = r ++ s) \/
  (exists w2, w2 <> [] /\ w = p ++ w2 /\ strip_prefix w2 s = Some t).
Proof.
  induction w as [|x w IH]; intros p s t H.
  - left. exists p. cbn [strip_prefix] in *. now inversion H.
  - destruct p as [|y p].
    + right. exists (x :: w). repeat split; [discriminate|exact H].
    + cbn [strip_prefix app] in *.
      destruct (Ascii.eqb x y) eqn:E; [|discriminate].
      apply Ascii.eqb_eq in E. subst y.
      destruct (IH p s t H) as [(r & Hr & ->)|(w2 & Hne & -> & Hw2)].
      * left. now exists r.
      * right. now exists w2.
Qed.

(** A bibliography call that starts before a backslash of the text
    ends at that backslash or before. *)
Lemma bibliography_call_before a p s :
  bibliography_call_at ((a :: p) ++ "\"%char :: s) = true ->
  bibliography_call_at ((a :: p) ++ txt "\") = true.
Proof.
  unfold bibliography_call_at.
  destruct (strip_prefix (txt "\bibliography{") ((a :: p) ++ "\"%char :: s))
    as [t|] eqn:E; [|discriminate].
  apply strip_prefix_straddle in E.
  destruct E as [(r & Hr & ->)|(w2 & Hne & Hw & Hw2)].
  - rewrite (strip_prefix_app_some _ _ (txt "\") Hr).
    destruct r as [|c r]; [reflexivity|]. cbn [app]. trivial.
  - exfalso. destruct w2 as [|x w2]; [now elim Hne|].
    cbn [strip_prefix] in Hw2.
    destruct (Ascii.eqb x "\") eqn:Ex; [|discriminate].
    apply Ascii.eqb_eq in Ex. subst x.
    cbn [txt list_ascii_of_string app] in Hw. inversion Hw as [[Ha Hp]].
    assert (Hin : In "\"%char (txt "bibliography{")).
    { cbn [txt list_ascii_of_string]. rewrite Hp. apply in_or_app.
      right. now left. }
    cbn [txt list_ascii_of_string In] in Hin.
    repeat (destruct Hin as [Hin|Hin]; [discriminate Hin|]). exact Hin.
Qed.

(** Where the pattern matches, a bibliography call starts. *)
Lemma bibliography_match_call s :
  bibliography_call_at s = false -> match_at false bibliography_re s = None.
Proof.
  unfold bibliography_call_at, match_at.
  cbv [bibliography_re seqs fold_right RPlus]. cbn [rmatch].
  destruct (strip_prefix (txt "\bibliography{") s) as [[|c t]|];
    [reflexivity| |reflexivity].
  intros ->. reflexivity.
Qed.

(** The first bibliography call of a text gives the first element that
    [findall] returns: no call starts in [pre], which is to say that
    [pre] followed by a backslash has none. *)
Lemma findall1_first_call : forall pre arg rest,
  has_bibliography_call (pre ++ txt "\") = false ->
  arg <> [] -> forallb (not_char "}") arg = true ->
  rest = [] \/ (exists r, rest = "}"%char :: r) ->
  findall1 bibliography_re (pre ++ txt "\bibliography{" ++ arg ++ rest)
  = arg :: findall1 bibliography_re rest.
Proof.
  induction pre as [|a pre IH]; intros arg rest Hpre Hne Harg Hrest.
  - cbn [app]. rewrite !findall1_caps.
    pose proof (bibliography_match Hne Harg Hrest) as Hm.
    assert (Hl : exists n, length (txt "\bibliography{" ++ arg) = S n)
      by (cbn [txt list_ascii_of_string app length]; eauto).
    destruct Hl as [n Hl]. rewrite Hl in Hm.
    rewrite app_assoc.
    rewrite (@finditer_caps_match _ _ _ _ _ Hm Hl). reflexivity.
  - change ((a :: pre) ++ txt "\")
      with (a :: (pre ++ txt "\")) in Hpre.
    cbn [has_bibliography_call] in Hpre. apply orb_false_iff in Hpre.
    destruct Hpre as [Ha Hpre]. cbn [app].
    rewrite findall1_caps, finditer_caps_skip, <- findall1_caps.
    + now apply IH.
    + apply bibliography_match_call.
      destruct (bibliography_call_at
                  (a :: pre ++ txt "\bibliography{" ++ arg ++ rest)) eqn:E;
        [|reflexivity].
      change (a :: pre ++ txt "\bibliography{" ++ arg ++ rest)
        with ((a :: pre) ++ "\"%char :: txt "bibliography{" ++ arg ++ rest)
        in E.
      apply bibliography_call_before in E.
      change ((a :: pre) ++ txt "\") with (a :: (pre ++ txt "\")) in E.
      congruence.
Qed.
End BuildBibMore.

(** * Properties of [clear_latex] *)

Module ClearLatexFacts.
Import Citations.

Lemma rfind_app c : forall a b,
  rfind c (a ++ b)
  = match rfind c b with
    | Some i => Some (length a + i)
    | None => rfind c a
    end.
Proof.
  induction a as [|x a IH]; intros b.
  - cbn [app length rfind]. now destruct (rfind c b).
  - cbn [app rfind length]. rewrite IH.
    destruct (rfind c b); [reflexivity|]. reflexivity.
Qed.

Lemma rfind_lt c : forall s i, rfind c s = Some i -> i < length s.
Proof.
  induction s as [|a s IH]; intros i H; [discriminate|].
  cbn [rfind] in H. destruct (rfind c s) as [j|].
  - inversion H; subst. specialize (IH j eq_refl). simpl. lia.
  - destruct (Ascii.eqb a c); inversion H. simpl. lia.
Qed.

(** The extension [.tex] is split off a path whose last component has a
    character other than a dot before it. *)
Lemma splitext_tex root :
  existsb (not_char ".") (basename root) = true ->
  splitext (root ++ txt ".tex") = (root, txt ".tex").
Proof.
  intros H. unfold splitext.
  rewrite !rfind_app.
  change (rfind "." (txt ".tex")) with (Some 0).
  change (rfind "/" (txt ".tex")) with (@None nat).
  cbv iota beta. rewrite Nat.add_0_r. unfold basename in H.
  set (fi := match rfind "/" root with None => 0 | Some i => S i end) in *.
  assert (Hfi : fi <= length root).
  { unfold fi. destruct (rfind "/" root) as [i|] eqn:E; [|lia].
    apply rfind_lt in E. lia. }
  apply Nat.leb_le in Hfi. rewrite Hfi. apply Nat.leb_le in Hfi.
  assert (E : firstn (length root - fi) (skipn fi (root ++ txt ".tex"))
              = skipn fi root).
  { rewrite skipn_app. replace (fi - length root) with 0 by lia.
    cbn [skipn]. rewrite firstn_app, length_skipn, Nat.sub_diag.
    cbn [firstn]. rewrite app_nil_r. apply firstn_all2.
    rewrite length_skipn. lia. }
  rewrite E, H.
  rewrite firstn_app, Nat.sub_diag, firstn_all, skipn_app, skipn_all,
    Nat.sub_diag. cbn [firstn skipn app]. now rewrite app_nil_r.
Qed.

Section Remove.
Variable Bib : Type.
Variable locked : text -> bool.

Lemma lookup_filter (p : text -> bool) name : forall fs,
  lookup_file name (filter (fun f : text * text => p (fst f)) fs)
  = if p name then lookup_file name fs else None.
Proof.
  induction fs as [|[n content] fs IH]; [now destruct (p name)|].
  cbn [filter fst lookup_file].
  destruct (text_eqb n name) eqn:E.
  - apply text_eqb_eq in E. subst n.
    destruct (p name) eqn:Ep.
    + cbn [lookup_file]. assert (T : text_eqb name name = true)
        by now apply text_eqb_eq.
      now rewrite T.
    + rewrite IH, ?Ep. reflexivity.
  - destruct (p n); [cbn [lookup_file]; rewrite E|]; exact IH.
Qed.

Lemma lookup_cleared root name (fs : list (text * text)) :
  lookup_file name
    (filter (fun f => negb (is_byproduct root (fst f)) || locked (fst f)) fs)
  = if negb (is_byproduct root name) || locked name
    then lookup_file name fs else None.
Proof.
  exact (lookup_filter (fun n => negb (is_byproduct root n) || locked n)
                       name fs).
Qed.

Lemma filter_all_true (p : text * text -> bool) : forall fs,
  (forall f, In f fs -> p f = true) -> filter p fs = fs.
Proof.
  induction fs as [|f fs IH]; intros H; [reflexivity|].
  cbn [filter]. rewrite H by now left.
  f_equal. apply IH. intros f' Hf'. apply H. now right.
Qed.

Lemma lookup_file_in name : forall (fs : list (text * text)) f,
  In f fs -> fst f = name -> lookup_file name fs <> None.
Proof.
  induction fs as [|[n content] fs IH]; intros f Hin Hf; [contradiction|].
  cbn [lookup_file]. destruct (text_eqb n name) eqn:E; [discriminate|].
  destruct Hin as [<-|Hin].
  - cbn [fst] in Hf. apply text_eqb_eq in Hf. congruence.
  - now apply (IH f).
Qed.

(** Removing a file without complaining: the file goes away unless it
    cannot be removed; a missing file and a refusal are both passed
    over. *)
Lemma ignored_remove name (w : World Bib) :
  existsb (is_char NUL) name = false ->
  ignored is_OSError (@os_remove Bib locked name) w
  = (Ok tt,
     mkWorld (filter (fun f => negb (text_eqb (fst f) name) || locked (fst f))
                     (files w))
             (database w) (exported w) (printed w)).
Proof.
  intros Hnul. unfold ignored, os_remove. rewrite Hnul.
  destruct (lookup_file name (files w)) eqn:E.
  - destruct (locked name) eqn:L.
    + cbn [is_OSError]. rewrite filter_all_true; [now destruct w|].
      intros f _. destruct (text_eqb (fst f) name) eqn:Ef; [|reflexivity].
      apply text_eqb_eq in Ef. now rewrite Ef, L.
    + do 2 f_equal. apply filter_ext_in. intros f _.
      destruct (text_eqb (fst f) name) eqn:Ef; [|reflexivity].
      apply text_eqb_eq in Ef. now rewrite Ef, L.
  - cbn [is_OSError]. rewrite filter_all_true; [now destruct w|].
    intros f Hin. destruct (text_eqb (fst f) name) eqn:Ef; [|reflexivity].
    apply text_eqb_eq in Ef. now elim (lookup_file_in _ _ Hin Ef).
Qed.

Lemma for_in_remove root : forall (sfx : list text) (w : World Bib),
  existsb (is_char NUL) root = false ->
  forallb (fun clear => negb (existsb (is_char NUL) clear)) sfx = true ->
  for_in (fun clear =>
            ignored is_OSError (@os_remove Bib locked (root ++ clear)))
         sfx w
  = (Ok tt,
     mkWorld (filter (fun f => negb (existsb
                                       (fun clear =>
                                          text_eqb (fst f) (root ++ clear))
                                       sfx)
                               || locked (fst f))
                     (files w))
             (database w) (exported w) (printed w)).
Proof.
  induction sfx as [|cl sfx IH]; intros w Hroot Hsfx.
  - cbn [for_in existsb negb orb]. unfold ret.
    rewrite filter_all_true by reflexivity. now destruct w.
  - cbn [forallb] in Hsfx. apply andb_true_iff in Hsfx.
    destruct Hsfx as [Hcl Hsfx]. apply negb_true_iff in Hcl.
    cbn [for_in]. unfold bind. rewrite ignored_remove, IH;
      [|exact Hroot|exact Hsfx|rewrite existsb_app, Hroot, Hcl; reflexivity].
    cbn [files database exported printed]. do 2 f_equal.
    clear. induction (files w) as [|f fs IHf]; [reflexivity|].
    cbn [filter existsb].
    destruct (text_eqb (fst f) (root ++ cl)); cbn [negb orb filter].
    + destruct (locked (fst f)) eqn:L; cbn [filter orb]; [|exact IHf].
      rewrite ?L, ?orb_true_r. cbn [filter]. rewrite ?L, ?orb_true_r.
      now rewrite IHf.
    + destruct (negb (existsb (fun clear => text_eqb (fst f) (root ++ clear))
                              sfx) || locked (fst f)); now rewrite IHf.
Qed.

(** What [clear_latex] leaves, for a path without NUL: the files that
    are not by-products, and the by-products that cannot be removed. *)
Lemma clear_latex_result texfile (w : World Bib) :
  existsb (is_char NUL) (fst (splitext texfile)) = false ->
  @clear_latex Bib locked texfile w
  = (Ok tt,
     mkWorld (filter (fun f => negb (is_byproduct (fst (splitext texfile))
                                                  (fst f))
                               || locked (fst f))
                     (files w))
             (database w) (exported w) (printed w)).
Proof.
  intros Hroot. unfold clear_latex. apply for_in_remove; [exact Hroot|].
  reflexivity.
Qed.

(** With a NUL in the path, the first removal raises [ValueError],
    which is not an [OSError]: [clear_latex] stops there. *)
Lemma clear_latex_nul texfile (w : World Bib) :
  existsb (is_char NUL) (fst (splitext texfile)) = true ->
  @clear_latex Bib locked texfile w = (Raised ValueError, w).
Proof.
  intros Hroot. unfold clear_latex, clears. cbn [for_in].
  unfold bind at 1, ignored at 1, os_remove at 1.
  rewrite existsb_app, Hroot. reflexivity.
Qed.

Lemma is_byproduct_suffix root clear :
  In clear clears -> is_byproduct root (root ++ clear) = true.
Proof.
  intros Hin. unfold is_byproduct. apply existsb_exists. exists clear.
  split; [exact Hin|]. now apply text_eqb_eq.
Qed.

Lemma is_byproduct_inv root name :
  is_byproduct root name = true ->
  exists clear, In clear clears /\ name = root ++ clear.
Proof.
  unfold is_byproduct. intros E. apply existsb_exists in E.
  destruct E as (clear & Hin & E). apply text_eqb_eq in E. eauto.
Qed.
End Remove.

End ClearLatexFacts.

(** * Further theorems *)

Section MoreOnComments.
Import NoComments NoCommentsMore.

(** X1: the text that [no_comments] returns has no place left where a
    span to remove starts, so stripping it again changes nothing. *)
Theorem no_comments_idempotent : forall t,
  no_marker (no_comments t) = true /\
  no_comments (no_comments t) = no_comments t.
Proof.
  intros t.
  assert (H : no_marker (no_comments t) = true).
  { rewrite no_comments_uncomment. apply uncomment_output_no_marker. }
  split; [exact H|].
  rewrite (no_comments_uncomment (no_comments t)).
  now apply uncomment_no_marker.
Qed.

(** X2: at a line break that is not followed by [%], the text can be
    stripped in two pieces: the part before the line break and the part
    after it. *)
Theorem no_comments_by_lines : forall l rest,
  ~ (exists r, rest = "%"%char :: r) ->
  no_comments (l ++ LF :: rest) = no_comments l ++ LF :: no_comments rest.
Proof.
  intros l rest H. rewrite !no_comments_uncomment.
  now apply uncomment_by_lines.
Qed.

Lemma no_comments_by_lines_witness :
  ~ (exists r, txt "y = 2 % two" = "%"%char :: r) /\
  no_comments (txt "x = 1 % one" ++ LF :: txt "y = 2 % two")
  = no_comments (txt "x = 1 % one") ++ LF :: no_comments (txt "y = 2 % two").
Proof.
  assert (H : ~ (exists r, txt "y = 2 % two" = "%"%char :: r)).
  { intros [r E]. vm_compute in E. discriminate E. }
  split; [exact H|].
  apply (no_comments_by_lines (txt "x = 1 % one") H).
Defined.

(** X3: [no_comments] only deletes: its result is the input with some
    characters left out, in the same order, and is never longer. *)
Theorem no_comments_only_deletes : forall t,
  subsequence (no_comments t) t /\ length (no_comments t) <= length t.
Proof.
  intros t.
  assert (H : subsequence (no_comments t) t).
  { rewrite no_comments_uncomment. apply uncomment_subsequence. }
  split; [exact H|]. now apply subsequence_length.
Qed.
End MoreOnComments.

Section MoreOnCitations.
Import Re ReFacts Citations CitationsMore.

(** X4: every key that [citations] yields is trimmed (stripping it
    changes nothing) and contains neither a closing brace nor a comma. *)
Theorem citations_keys_trimmed : forall t k,
  In k (citations t) ->
  strip k = k /\ forallb (not_char "}") k = true /\
  forallb (not_char ",") k = true.
Proof.
  intros t k H. now apply (@citations_keys_ok (length t) t k (le_n _)).
Qed.

Lemma citations_keys_trimmed_witness :
  In (txt "Smith 2020") (citations (txt "\citet{ Smith 2020 , Jones}")) /\
  strip (txt "Smith 2020") = txt "Smith 2020" /\
  forallb (not_char "}") (txt "Smith 2020") = true /\
  forallb (not_char ",") (txt "Smith 2020") = true.
Proof.
  assert (H : In (txt "Smith 2020")
                 (citations (txt "\citet{ Smith 2020 , Jones}")))
    by (left; reflexivity).
  split; [exact H|].
  apply (citations_keys_trimmed _ _ H).
Defined.

(** X5: a text without a backslash yields no key. *)
Theorem citations_need_backslash : forall t,
  forallb (not_char "\") t = true -> citations t = [].
Proof.
  intros t H. rewrite citations_unfold, findall3_no_backslash by exact H.
  reflexivity.
Qed.

Lemma citations_need_backslash_witness :
  forallb (not_char "\") (txt "cite{A} and citep[x]{B}") = true /\
  citations (txt "cite{A} and citep[x]{B}") = [].
Proof.
  split; [reflexivity|].
  apply (citations_need_backslash (txt "cite{A} and citep[x]{B}")).
  reflexivity.
Defined.

(** X6: a documented command followed by blanks, at most two bracket
    arguments without closing bracket inside, separated by blanks, and
    a brace argument that runs to the first closing brace (or to the end
    of the text) is matched as a whole, whatever blanks (line breaks
    included) separate the parts: the brackets are the first two groups
    and the brace content the third.  Its keys are those found in the
    first bracket, those found in the second, then the trimmed pieces of
    the brace content; the extraction then goes on after the match. *)
Theorem citations_with_arguments :
  forall name ws1 o1 ws2 o2 ws3 body rest,
    In name documented_commands ->
    forallb is_space (ws1 ++ ws2 ++ ws3) = true ->
    (o1 = None -> o2 = None) ->
    (forall inner, o1 = Some inner \/ o2 = Some inner ->
                   forallb (not_char "]") inner = true) ->
    body <> [] -> forallb (not_char "}") body = true ->
    rest = [] \/ (exists r, rest = "}"%char :: r) ->
    let call := txt "\" ++ name ++ ws1 ++ opt_bracket o1 ++ ws2
                ++ opt_bracket o2 ++ ws3 ++ txt "{" ++ body in
    findall3 cite_re (call ++ rest)
    = (opt_bracket o1, opt_bracket o2, body) :: findall3 cite_re rest /\
    citations (call ++ rest)
    = map strip (citations (opt_bracket o1))
      ++ map strip (citations (opt_bracket o2))
      ++ map strip (split "," body) ++ citations rest.
Proof.
  intros name ws1 o1 ws2 o2 ws3 body rest Hn Hws Hopt Ho Hne Hb Hrest call.
  rewrite !forallb_app in Hws. apply andb_true_iff in Hws.
  destruct Hws as [H1 Hws]. apply andb_true_iff in Hws.
  destruct Hws as [H2 H3].
  assert (F : findall3 cite_re (call ++ rest)
              = (opt_bracket o1, opt_bracket o2, body)
                  :: findall3 cite_re rest)
    by (now apply findall3_call_args).
  split; [exact F|].
  rewrite (citations_unfold (call ++ rest)), F.
  cbn [flat_map keys_of_match]. rewrite <- !app_assoc.
  now rewrite <- citations_unfold.
Qed.

Lemma citations_with_arguments_witness :
  In (txt "citep") documented_commands /\
  forallb is_space (txt " " ++ [LF] ++ txt "  ") = true /\
  citations ((txt "\" ++ txt "citep" ++ txt " "
              ++ opt_bracket (Some (txt "see \citealp{M}")) ++ [LF]
              ++ opt_bracket (Some []) ++ txt "  " ++ txt "{"
              ++ txt "A, B") ++ txt "}.")
  = map strip (citations (opt_bracket (Some (txt "see \citealp{M}"))))
    ++ map strip (citations (opt_bracket (Some [])))
    ++ map strip (split "," (txt "A, B")) ++ citations (txt "}.").
Proof.
  assert (Hn : In (txt "citep") documented_commands)
    by (apply existsb_text_eqb; reflexivity).
  split; [exact Hn|]. split; [reflexivity|].
  apply (@citations_with_arguments (txt "citep") (txt " ")
           (Some (txt "see \citealp{M}")) [LF] (Some []) (txt "  ")
           (txt "A, B") (txt "}.") Hn).
  - reflexivity.
  - discriminate.
  - intros inner [E|E]; inversion E; reflexivity.
  - discriminate.
  - reflexivity.
  - right. exists (txt "."). reflexivity.
Defined.
End MoreOnCitations.

Section MoreOnBuildBib.
Import Re ReFacts Citations Numpy NumpyMore.

Lemma Forall2_in_right (A B : Type) (R : A -> B -> Prop) : forall l1 l2,
  Forall2 R l1 l2 -> forall b, In b l2 -> exists a, In a l1 /\ R a b.
Proof.
  induction 1 as [|a b l1 l2 Hab F IH]; intros b' Hin; [contradiction|].
  destruct Hin as [<-|Hin].
  - exists a. split; [now left|exact Hab].
  - destruct (IH b' Hin) as (a' & Ha' & HR). exists a'. split; [now right|].
    exact HR.
Qed.

(** X7: when [build_bib] gets to export, with a database none of whose
    keys ends in NUL, the records it exports have strictly increasing
    keys (in code-point order): each key once, in sorted order, however
    often and in whatever order the document cites them. *)
Theorem build_bib_exports_sorted :
  forall (Bib : Type) (key : Bib -> text) (w : World Bib)
         texfile content bibfile name,
    lookup_file texfile (files w) = Some content ->
    bibfile = Some name \/
    (bibfile = None /\
     exists b rest,
       findall1 bibliography_re (no_comments content) = b :: rest /\
       name = strip b ++ txt ".bib") ->
    forallb (fun b => negb (ends_in_nul (key b))) (database w) = true ->
    exists bibs w',
      build_bib key texfile bibfile w = (Ok tt, w') /\
      exported w' = (bibs, name) :: exported w /\
      StronglySorted text_lt (map key bibs).
Proof.
  intros Bib key w texfile content bibfile name Hf Hname Hdb.
  destruct (@build_bib_run Bib key w texfile content bibfile name
              Hf Hname Hdb) as (bibs & Hb & F).
  exists bibs. eexists. split; [exact Hb|]. split; [reflexivity|].
  apply lookup_keys in F. destruct F as [-> _].
  apply filter_sorted, np_unique_sorted.
Qed.

Lemma build_bib_exports_sorted_witness :
  let doc := txt "\cite{Zed} \cite{Abe, Zed} \cite{Abe}" in
  let w := mkWorld [(txt "paper.tex", doc)]
                   [(txt "Zed", txt "@book{Zed}"); (txt "Abe", txt "@book{Abe}")]
                   [] [] in
  lookup_file (txt "paper.tex") (files w) = Some doc /\
  forallb (fun b => negb (ends_in_nul (fst b))) (database w) = true /\
  exists bibs w',
    build_bib fst (txt "paper.tex") (Some (txt "out.bib")) w = (Ok tt, w') /\
    exported w' = (bibs, txt "out.bib") :: exported w /\
    StronglySorted text_lt (map fst bibs).
Proof.
  cbv zeta. split; [reflexivity|]. split; [reflexivity|].
  apply (@build_bib_exports_sorted (text * text)%type fst
           (mkWorld [(txt "paper.tex", txt "\cite{Zed} \cite{Abe, Zed} \cite{Abe}")]
                    [(txt "Zed", txt "@book{Zed}"); (txt "Abe", txt "@book{Abe}")]
                    [] [])
           (txt "paper.tex") (txt "\cite{Zed} \cite{Abe, Zed} \cite{Abe}")
           (Some (txt "out.bib")) (txt "out.bib")).
  - reflexivity.
  - left. reflexivity.
  - reflexivity.
Defined.

(** X8: with a database none of whose keys ends in NUL, every record
    that [build_bib] exports is the first record of the database with
    its key: when several records share a key, the later ones are never
    exported. *)
Theorem build_bib_exports_first_record :
  forall (Bib : Type) (key : Bib -> text) (w : World Bib)
         texfile content bibfile name,
    lookup_file texfile (files w) = Some content ->
    bibfile = Some name \/
    (bibfile = None /\
     exists b rest,
       findall1 bibliography_re (no_comments content) = b :: rest /\
       name = strip b ++ txt ".bib") ->
    forallb (fun b => negb (ends_in_nul (key b))) (database w) = true ->
    exists bibs w',
      build_bib key texfile bibfile w = (Ok tt, w') /\
      exported w' = (bibs, name) :: exported w /\
      forall b, In b bibs -> record_of key (key b) (database w) = Some b.
Proof.
  intros Bib key w texfile content bibfile name Hf Hname Hdb.
  destruct (@build_bib_run Bib key w texfile content bibfile name
              Hf Hname Hdb) as (bibs & Hb & F).
  exists bibs. eexists. split; [exact Hb|]. split; [reflexivity|].
  intros b Hin.
  destruct (Forall2_in_right F b Hin) as (k & _ & Hr).
  pose proof (record_of_sound _ _ _ Hr) as [_ Hk]. now rewrite Hk.
Qed.

Lemma build_bib_exports_first_record_witness :
  let doc := txt "\cite{X}" in
  let w := mkWorld [(txt "paper.tex", doc)]
                   [(txt "X", txt "first"); (txt "X", txt "second")] [] [] in
  lookup_file (txt "paper.tex") (files w) = Some doc /\
  forallb (fun b => negb (ends_in_nul (fst b))) (database w) = true /\
  exists bibs w',
    build_bib fst (txt "paper.tex") (Some (txt "out.bib")) w = (Ok tt, w') /\
    exported w' = (bibs, txt "out.bib") :: exported w /\
    forall b, In b bibs -> record_of fst (fst b) (database w) = Some b.
Proof.
  cbv zeta. split; [reflexivity|]. split; [reflexivity|].
  apply (@build_bib_exports_first_record (text * text)%type fst
           (mkWorld [(txt "paper.tex", txt "\cite{X}")]
                    [(txt "X", txt "first"); (txt "X", txt "second")] [] [])
           (txt "paper.tex") (txt "\cite{X}")
           (Some (txt "out.bib")) (txt "out.bib")).
  - reflexivity.
  - left. reflexivity.
  - reflexivity.
Defined.

(** X9: without an output name, and with a database none of whose keys
    ends in NUL, [build_bib] exports to the argument of the first
    bibliography call of the stripped text, trimmed, followed by
    [.bib].  The first call is the first [\bibliography{] that is
    followed by a character other than a closing brace: no such call
    starts in the text [pre] before it, whatever else [pre] holds
    (citation commands included).  The argument runs to the first
    closing brace or to the end of the text. *)
Theorem build_bib_output_name :
  forall (Bib : Type) (key : Bib -> text) (w : World Bib)
         texfile content pre arg rest,
    lookup_file texfile (files w) = Some content ->
    no_comments content = pre ++ txt "\bibliography{" ++ arg ++ rest ->
    has_bibliography_call (pre ++ txt "\") = false ->
    arg <> [] -> forallb (not_char "}") arg = true ->
    rest = [] \/ (exists r, rest = "}"%char :: r) ->
    forallb (fun b => negb (ends_in_nul (key b))) (database w) = true ->
    exists bibs w',
      build_bib key texfile None w = (Ok tt, w') /\
      exported w' = (bibs, strip arg ++ txt ".bib") :: exported w.
Proof.
  intros Bib key w texfile content pre arg rest Hf Ht Hpre Hne Harg Hrest Hdb.
  destruct (@build_bib_run Bib key w texfile content None
              (strip arg ++ txt ".bib") Hf)
    as (bibs & Hb & _).
  - right. split; [reflexivity|].
    exists arg, (findall1 bibliography_re rest). split; [|reflexivity].
    rewrite Ht. now apply findall1_first_call.
  - exact Hdb.
  - exists bibs. eexists. split; [exact Hb|reflexivity].
Qed.

Lemma build_bib_output_name_witness :
  let doc := txt "\citep{X, Y} and \bibliography{}." ++ LF ::
             txt "\bibliography{ refs,more }\cite{X}" in
  let w := mkWorld [(txt "paper.tex", doc)] [(txt "X", txt "@book{X}")] [] [] in
  lookup_file (txt "paper.tex") (files w) = Some doc /\
  no_comments doc
  = (txt "\citep{X, Y} and \bibliography{}." ++ [LF])
    ++ txt "\bibliography{" ++ txt " refs,more " ++ txt "}\cite{X}" /\
  has_bibliography_call
    ((txt "\citep{X, Y} and \bibliography{}." ++ [LF]) ++ txt "\") = false /\
  forallb (fun b => negb (ends_in_nul (fst b))) (database w) = true /\
  exists bibs w',
    build_bib fst (txt "paper.tex") None w = (Ok tt, w') /\
    exported w'
    = (bibs, strip (txt " refs,more ") ++ txt ".bib") :: exported w.
Proof.
  cbv zeta. split; [reflexivity|]. split; [reflexivity|].
  split; [reflexivity|]. split; [reflexivity|].
  apply (@build_bib_output_name (text * text)%type fst
           (mkWorld [(txt "paper.tex",
                      txt "\citep{X, Y} and \bibliography{}." ++ LF ::
                      txt "\bibliography{ refs,more }\cite{X}")]
                    [(txt "X", txt "@book{X}")] [] [])
           (txt "paper.tex")
           (txt "\citep{X, Y} and \bibliography{}." ++ LF ::
            txt "\bibliography{ refs,more }\cite{X}")
           (txt "\citep{X, Y} and \bibliography{}." ++ [LF])
           (txt " refs,more ") (txt "}\cite{X}")).
  - reflexivity.
  - reflexivity.
  - reflexivity.
  - discriminate.
  - reflexivity.
  - right. exists (txt "\cite{X}"). reflexivity.
  - reflexivity.
Defined.

(** X15: unresolved keys do not stop [build_bib] when no key of the
    database ends in NUL.  Once the output name is known (given, or
    taken from the first bibliography call), it returns normally.  With
    [tex_keys] the sorted distinct extracted keys, it prints those that
    are not keys of the database, in order, when there are some, and
    exports to that name, in order, one record for each of the others:
    the first record of the database with that key.  So a key is
    reported exactly when it is extracted and not in the database, and
    the keys of the exported records are exactly the extracted keys
    that are in the database.  The extracted keys are taken as the
    array of [np.unique] holds them, without their trailing NULs; they
    are the keys as written when none of them ends in NUL.  For a
    document that declares [refs] and cites [X] and [Y], with a
    database that has only [X], it prints that [Y] was not found and
    exports the record of [X] to [refs.bib]. *)
Theorem build_bib_missing_keys :
  (forall (Bib : Type) (key : Bib -> text) (w : World Bib)
          texfile content bibfile name,
      lookup_file texfile (files w) = Some content ->
      bibfile = Some name \/
      (bibfile = None /\
       exists b rest,
         findall1 bibliography_re (no_comments content) = b :: rest /\
         name = strip b ++ txt ".bib") ->
      forallb (fun b => negb (ends_in_nul (key b))) (database w) = true ->
      let keys := map np_str (citations (no_comments content)) in
      let tex_keys := np_unique (citations (no_comments content)) in
      let db_keys := map key (database w) in
      let found := filter (fun k => existsb (text_eqb k) db_keys) tex_keys in
      let missing :=
        filter (fun k => negb (existsb (text_eqb k) db_keys)) tex_keys in
      (forallb (fun k => negb (ends_in_nul k))
               (citations (no_comments content)) = true ->
       keys = citations (no_comments content)) /\
      (forall k, In k missing <-> In k keys /\ ~ In k db_keys) /\
      (forall k, In k found <-> In k keys /\ In k db_keys) /\
      exists bibs,
        build_bib key texfile bibfile w
        = (Ok tt,
           mkWorld (files w) (database w) ((bibs, name) :: exported w)
                   (match missing with
                    | [] => printed w
                    | _ => not_found_msg missing :: printed w
                    end)) /\
        map key bibs = found /\
        (forall b, In b bibs ->
                   record_of key (key b) (database w) = Some b)) /\
  (let doc := txt "\citep{X, Y}" ++ LF :: txt "\bibliography{refs}" in
   let x := (txt "X", txt "@book{X}") in
   let w := mkWorld [(txt "paper.tex", doc)] [x] [] [] in
   build_bib fst (txt "paper.tex") None w
   = (Ok tt,
      mkWorld [(txt "paper.tex", doc)] [x] [([x], txt "refs.bib")]
              [txt "References not found:" ++ LF :: txt "Y"])).
Proof.
  split; [|vm_compute; reflexivity].
  intros Bib key w texfile content bibfile name Hf Hname Hdb
         keys tex_keys db_keys found missing.
  split; [apply np_str_keeps_all|]. split; [|split].
  - intros k. unfold missing, tex_keys.
    rewrite filter_In, negb_true_iff, np_unique_in.
    rewrite <- not_true_iff_false, existsb_text_eqb. reflexivity.
  - intros k. unfold found, tex_keys.
    rewrite filter_In, np_unique_in, existsb_text_eqb. reflexivity.
  - destruct (@build_bib_run Bib key w texfile content bibfile name
                Hf Hname Hdb) as (bibs & Hb & F).
    exists bibs. split; [exact Hb|]. split.
    + now apply lookup_keys in F.
    + intros b Hin.
      destruct (Forall2_in_right F b Hin) as (k & _ & Hr).
      pose proof (record_of_sound _ _ _ Hr) as [_ Hk]. now rewrite Hk.
Qed.

Lemma build_bib_missing_keys_witness :
  let doc := txt "\bibliography{refs} \citep{X, Y}" in
  let w := mkWorld [(txt "paper.tex", doc)] [(txt "X", txt "@book{X}")] [] [] in
  lookup_file (txt "paper.tex") (files w) = Some doc /\
  findall1 bibliography_re (no_comments doc) = [txt "refs"] /\
  forallb (fun b => negb (ends_in_nul (fst b))) (database w) = true /\
  exists bibs,
    build_bib fst (txt "paper.tex") None w
    = (Ok tt,
       mkWorld (files w) (database w) ((bibs, txt "refs.bib") :: exported w)
               [not_found_msg [txt "Y"]]) /\
    map fst bibs = [txt "X"] /\
    (forall b, In b bibs -> record_of fst (fst b) (database w) = Some b).
Proof.
  cbv zeta. split; [reflexivity|]. split; [reflexivity|].
  split; [reflexivity|].
  apply (proj1 build_bib_missing_keys (text * text)%type fst
           (mkWorld [(txt "paper.tex", txt "\bibliography{refs} \citep{X, Y}")]
                    [(txt "X", txt "@book{X}")] [] [])
           (txt "paper.tex") (txt "\bibliography{refs} \citep{X, Y}")
           None (txt "refs.bib")).
  - reflexivity.
  - right. split; [reflexivity|].
    exists (txt "refs"), []. split; reflexivity.
  - reflexivity.
Defined.
End MoreOnBuildBib.

Section MoreOnClearLatex.
Import Citations ClearLatexFacts.

(** X10: for a path whose root holds no NUL character, [clear_latex]
    returns normally whether or not the by-products exist and whether
    or not they can be removed: the error of a missing file and the
    error of a refused removal are both passed over.  Afterwards a file
    named by the root of [texfile] followed by one of the twelve
    suffixes is left only if its removal is refused, and then it is as
    it was.  For a path whose root holds a NUL character, the first
    removal raises [ValueError], which is not passed over, and nothing
    is removed. *)
Theorem clear_latex_removes_byproducts :
  forall (Bib : Type) (locked : text -> bool) (w : World Bib) texfile,
    if existsb (is_char NUL) (fst (splitext texfile))
    then @clear_latex Bib locked texfile w = (Raised ValueError, w)
    else
      exists w',
        @clear_latex Bib locked texfile w = (Ok tt, w') /\
        forall clear, In clear clears ->
          lookup_file (fst (splitext texfile) ++ clear) (files w')
          = if locked (fst (splitext texfile) ++ clear)
            then lookup_file (fst (splitext texfile) ++ clear) (files w)
            else None.
Proof.
  intros Bib locked w texfile.
  destruct (existsb (is_char NUL) (fst (splitext texfile))) eqn:Hnul.
  - now apply clear_latex_nul.
  - eexists. split; [now apply clear_latex_result|].
    intros clear Hin. cbn [files]. rewrite lookup_cleared.
    rewrite is_byproduct_suffix by exact Hin. reflexivity.
Qed.

(** X11: [clear_latex] touches nothing else: a file whose name is not
    the root followed by one of the suffixes is kept with its content,
    and the database, the exports and the output are as before. *)
Theorem clear_latex_keeps_the_rest :
  forall (Bib : Type) (locked : text -> bool) (w w' : World Bib) texfile r,
    @clear_latex Bib locked texfile w = (r, w') ->
    (forall name,
        (forall clear, In clear clears ->
                       name <> fst (splitext texfile) ++ clear) ->
        lookup_file name (files w') = lookup_file name (files w)) /\
    database w' = database w /\ exported w' = exported w /\
    printed w' = printed w.
Proof.
  intros Bib locked w w' texfile r H.
  destruct (existsb (is_char NUL) (fst (splitext texfile))) eqn:Hnul.
  - rewrite clear_latex_nul in H by exact Hnul.
    inversion H; subst; clear H. auto.
  - rewrite clear_latex_result in H by exact Hnul.
    inversion H; subst; clear H. cbn [files database exported printed].
    split; [|auto]. intros name Hname. rewrite lookup_cleared.
    destruct (is_byproduct (fst (splitext texfile)) name) eqn:E;
      [|reflexivity].
    apply is_byproduct_inv in E. destruct E as (clear & Hin & E).
    now elim (Hname clear Hin).
Qed.

Lemma clear_latex_keeps_the_rest_witness :
  let w := mkWorld [(txt "paper.tex", txt "source"); (txt "paper.aux", txt "aux");
                    (txt "other.pdf", txt "pdf")]
                   ([] : list (text * text)) [] [] in
  let w' := mkWorld [(txt "paper.tex", txt "source"); (txt "other.pdf", txt "pdf")]
                    ([] : list (text * text)) [] [] in
  clear_latex (fun _ => false) (txt "paper.tex") w = (Ok tt, w') /\
  database w' = database w /\ exported w' = exported w /\
  printed w' = printed w.
Proof.
  cbv zeta.
  assert (H : clear_latex (fun _ => false) (txt "paper.tex")
                (mkWorld [(txt "paper.tex", txt "source");
                          (txt "paper.aux", txt "aux");
                          (txt "other.pdf", txt "pdf")]
                         ([] : list (text * text)) [] [])
              = (Ok tt,
                 mkWorld [(txt "paper.tex", txt "source");
                          (txt "other.pdf", txt "pdf")]
                         ([] : list (text * text)) [] []))
    by reflexivity.
  split; [exact H|].
  apply (proj2 (@clear_latex_keeps_the_rest _ _ _ _ _ _ H)).
Defined.

(** X12: running [clear_latex] again on what it left changes nothing
    and ends as the first run did: normally, when the root of the path
    holds no NUL character. *)
Theorem clear_latex_idempotent :
  forall (Bib : Type) (locked : text -> bool) (w w' : World Bib) texfile r,
    @clear_latex Bib locked texfile w = (r, w') ->
    @clear_latex Bib locked texfile w' = (r, w') /\
    (existsb (is_char NUL) (fst (splitext texfile)) = false -> r = Ok tt).
Proof.
  intros Bib locked w w' texfile r H.
  destruct (existsb (is_char NUL) (fst (splitext texfile))) eqn:Hnul.
  - rewrite clear_latex_nul in H by exact Hnul.
    inversion H; subst; clear H.
    split; [now apply clear_latex_nul|discriminate].
  - rewrite clear_latex_result in H by exact Hnul.
    inversion H; subst; clear H. split; [|reflexivity].
    rewrite clear_latex_result by exact Hnul.
    cbn [files database exported printed]. do 2 f_equal.
    induction (files w) as [|f fs IH]; [reflexivity|].
    cbn [filter].
    destruct (negb (is_byproduct (fst (splitext texfile)) (fst f))
              || locked (fst f)) eqn:E;
      cbn [filter]; [|exact IH].
    rewrite E. now rewrite IH.
Qed.

Lemma clear_latex_idempotent_witness :
  let w := mkWorld [(txt "paper.tex", txt "source"); (txt "paper.log", txt "log")]
                   ([] : list (text * text)) [] [] in
  let w' := mkWorld [(txt "paper.tex", txt "source")]
                    ([] : list (text * text)) [] [] in
  clear_latex (fun _ => false) (txt "paper.tex") w = (Ok tt, w') /\
  clear_latex (fun _ => false) (txt "paper.tex") w' = (Ok tt, w').
Proof.
  cbv zeta.
  assert (H : clear_latex (fun _ => false) (txt "paper.tex")
                (mkWorld [(txt "paper.tex", txt "source");
                          (txt "paper.log", txt "log")]
                         ([] : list (text * text)) [] [])
              = (Ok tt,
                 mkWorld [(txt "paper.tex", txt "source")]
                         ([] : list (text * text)) [] []))
    by reflexivity.
  split; [exact H|].
  apply (proj1 (@clear_latex_idempotent _ _ _ _ _ _ H)).
Defined.

(** X13: called with the path of the source, [root.tex], where [root]
    holds no NUL character and its last component has a character
    other than a dot, [clear_latex] keeps [root.tex] with its content,
    and of [root.bbl], [root.aux] and the other by-products of [root]
    it leaves only those whose removal is refused. *)
Theorem clear_latex_keeps_source :
  forall (Bib : Type) (locked : text -> bool) (w : World Bib) root,
    existsb (not_char ".") (basename root) = true ->
    existsb (is_char NUL) root = false ->
    exists w',
      @clear_latex Bib locked (root ++ txt ".tex") w = (Ok tt, w') /\
      lookup_file (root ++ txt ".tex") (files w')
      = lookup_file (root ++ txt ".tex") (files w) /\
      forall clear, In clear clears ->
        lookup_file (root ++ clear) (files w')
        = if locked (root ++ clear)
          then lookup_file (root ++ clear) (files w) else None.
Proof.
  intros Bib locked w root Hroot Hnul.
  eexists. split.
  { apply clear_latex_result. now rewrite splitext_tex by exact Hroot. }
  rewrite splitext_tex by exact Hroot. cbn [fst files]. split.
  - rewrite lookup_cleared.
    destruct (is_byproduct root (root ++ txt ".tex")) eqn:E; [|reflexivity].
    apply is_byproduct_inv in E. destruct E as (clear & Hin & E).
    apply app_inv_head in E. subst clear.
    apply existsb_text_eqb in Hin. discriminate Hin.
  - intros clear Hin. rewrite lookup_cleared.
    rewrite is_byproduct_suffix by exact Hin. reflexivity.
Qed.

Lemma clear_latex_keeps_source_witness :
  let locked := text_eqb (txt "doc/paper.v2.log") in
  let w := mkWorld [(txt "doc/paper.v2.tex", txt "source");
                    (txt "doc/paper.v2.pdf", txt "pdf");
                    (txt "doc/paper.v2.log", txt "log")]
                   ([] : list (text * text)) [] [] in
  existsb (not_char ".") (basename (txt "doc/paper.v2")) = true /\
  existsb (is_char NUL) (txt "doc/paper.v2") = false /\
  exists w',
    clear_latex locked (txt "doc/paper.v2" ++ txt ".tex") w = (Ok tt, w') /\
    lookup_file (txt "doc/paper.v2" ++ txt ".tex") (files w')
    = lookup_file (txt "doc/paper.v2" ++ txt ".tex") (files w) /\
    forall clear, In clear clears ->
      lookup_file (txt "doc/paper.v2" ++ clear) (files w')
      = if locked (txt "doc/paper.v2" ++ clear)
        then lookup_file (txt "doc/paper.v2" ++ clear) (files w) else None.
Proof.
  cbv zeta. split; [reflexivity|]. split; [reflexivity|].
  apply (@clear_latex_keeps_source (text * text)%type
           (text_eqb (txt "doc/paper.v2.log"))
           (mkWorld [(txt "doc/paper.v2.tex", txt "source");
                     (txt "doc/paper.v2.pdf", txt "pdf");
                     (txt "doc/paper.v2.log", txt "log")]
                    ([] : list (text * text)) [] [])
           (txt "doc/paper.v2")).
  - reflexivity.
  - reflexivity.
Defined.
End MoreOnClearLatex.

Section CommentsThenCitations.
Import Re ReFacts NoComments Citations CitationsMore.

Lemma rstrip_snoc_space s c : is_space c = true -> rstrip (s ++ [c]) = rstrip s.
Proof.
  intros Hc. unfold rstrip. rewrite rev_app_distr. cbn [rev app drop_while].
  now rewrite Hc.
Qed.

Lemma strip_snoc_space c : forall s,
  is_space c = true -> strip (s ++ [c]) = strip s.
Proof.
  intros s Hc. unfold strip, lstrip.
  induction s as [|a s IH].
  - cbn [app drop_while]. now rewrite Hc.
  - cbn [app drop_while]. destruct (is_space a); [exact IH|].
    now apply (rstrip_snoc_space (a :: s)).
Qed.

Lemma name_no_percent name :
  In name documented_commands -> forallb (not_char "%") name = true.
Proof.
  intros H.
  assert (Hall : forallb (forallb (not_char "%")) documented_commands = true)
    by reflexivity.
  rewrite forallb_forall in Hall. now apply Hall.
Qed.

(** X14: what [build_bib] extracts from a brace argument cut by a
    comment.  In [\name{key c % comment] followed by a line break and
    [}], [no_comments] removes the comment together with the character
    [c] before the [%], and [citations] then yields [key] trimmed: when
    [c] is the closing brace the key is whole (no closing brace is
    needed), when [c] is the last character of the key that character
    is lost. *)
Theorem comment_in_brace_argument :
  forall name key c comment rest,
    In name documented_commands ->
    single_key key = true ->
    forallb (not_char "%") key = true ->
    not_char "\" c = true -> not_char "%" c = true ->
    forallb any_char comment = true ->
    no_marker (LF :: txt "}" ++ rest) = true ->
    let source := txt "\" ++ name ++ txt "{" ++ key
                  ++ c :: "%"%char :: comment ++ LF :: txt "}" ++ rest in
    no_comments source
    = txt "\" ++ name ++ txt "{" ++ key ++ LF :: txt "}" ++ rest /\
    citations (no_comments source)
    = strip key :: citations (txt "}" ++ rest).
Proof.
  intros name key c comment rest Hn Hkey Hpc Hc1 Hc2 Hcom Hrest source.
  apply single_key_facts in Hkey. destruct Hkey as (Hne & Hb & Hcomma).
  assert (E : no_comments source
              = txt "\" ++ name ++ txt "{" ++ key ++ LF :: txt "}" ++ rest).
  { unfold source. rewrite no_comments_uncomment.
    replace (txt "\" ++ name ++ txt "{" ++ key
             ++ c :: "%"%char :: comment ++ LF :: txt "}" ++ rest)
      with ((txt "\" ++ name ++ txt "{" ++ key)
            ++ c :: ("%"%char :: comment) ++ LF :: txt "}" ++ rest)
      by (now rewrite <- !app_assoc).
    rewrite uncomment_keep_prefix.
    - cbn [uncomment andb app]. rewrite Hc1.
      change (is_char "%" "%") with true. cbn [andb].
      change ("%"%char :: comment ++ LF :: txt "}" ++ rest)
        with (("%"%char :: comment) ++ LF :: txt "}" ++ rest).
      rewrite uncomment_span.
      + rewrite uncomment_no_marker by exact Hrest.
        now rewrite <- !app_assoc.
      + cbn [forallb]. now rewrite Hcom.
      + right. eexists. reflexivity.
    - cbn [firstn txt list_ascii_of_string app].
      apply no_percent_no_marker.
      rewrite !forallb_app, (name_no_percent Hn). cbn [forallb andb].
      change (not_char "%" "{") with true. cbn [andb].
      now rewrite Hpc, Hc2. }
  split; [exact E|]. rewrite E.
  replace (txt "\" ++ name ++ txt "{" ++ key ++ LF :: txt "}" ++ rest)
    with (txt "\" ++ name ++ txt "{" ++ (key ++ [LF]) ++ txt "}" ++ rest)
    by (now rewrite <- !app_assoc).
  rewrite citations_unfold, findall3_call.
  - cbn [flat_map keys_of_match]. rewrite citations_nil.
    rewrite split_single.
    + cbn [map app]. rewrite strip_snoc_space by reflexivity.
      f_equal. now rewrite <- citations_unfold.
    + rewrite forallb_app, Hcomma. reflexivity.
  - exact Hn.
  - intros H. apply app_eq_nil in H. destruct H as [_ H]. discriminate H.
  - rewrite forallb_app, Hb. reflexivity.
  - reflexivity.
Qed.

Lemma comment_in_brace_argument_witness :
  In (txt "cite") documented_commands /\
  single_key (txt "Smith2") = true /\
  citations (no_comments
               (txt "\" ++ txt "cite" ++ txt "{" ++ txt "Smith2"
                ++ "0"%char :: "%"%char :: txt " year" ++ LF :: txt "}"
                ++ txt "."))
  = strip (txt "Smith2") :: citations (txt "}" ++ txt ".").
Proof.
  assert (Hn : In (txt "cite") documented_commands) by (left; reflexivity).
  split; [exact Hn|]. split; [reflexivity|].
  apply (proj2 (@comment_in_brace_argument (txt "cite") (txt "Smith2") "0"%char
                  (txt " year") (txt ".") Hn eq_refl eq_refl eq_refl
                  eq_refl eq_refl eq_refl)).
Defined.
End CommentsThenCitations.
